(** * auto-favicon-injector: a shallow embedding of [lib/injector.js]

    The three functions of [lib/injector.js] ([hasFavicon], [injectFavicon],
    [injectDir]) are embedded over
    - JavaScript strings as [string] (code units as [ascii]),
    - a filesystem keyed by path text ([gmap string fs_node]) threaded
      through a small state-and-exception monad together with the log of
      the calls made on it and of the console output,
    - the DOM that cheerio exposes (elements with attributes and children),
      whose parser and serializer are parameters of the development. *)

From Stdlib Require Import ZArith Ascii Lia.
From stdpp Require Import base option list strings gmap.

Local Open Scope Z_scope.

(** ** JavaScript string primitives *)

Module Js.

Fixpoint startsWith (s pre : string) : bool :=
  match pre, s with
  | EmptyString, _ => true
  | String a pre', String b s' => if decide (a = b) then startsWith s' pre' else false
  | String _ _, EmptyString => false
  end.

Fixpoint rev_append (s acc : string) : string :=
  match s with
  | EmptyString => acc
  | String c s' => rev_append s' (String c acc)
  end.

Definition reverse (s : string) : string := rev_append s EmptyString.

(** [s.endsWith(suf)]: [suf] read backwards starts [s] read backwards. *)
Definition endsWith (s suf : string) : bool :=
  startsWith (reverse s) (reverse suf).

Definition lower_char (c : ascii) : ascii :=
  let n := N_of_ascii c in
  if ((65 <=? n) && (n <=? 90))%N then ascii_of_N (n + 32) else c.

(** [s.toLowerCase()] on the ASCII letters; the suffixes and extensions
    compared below are ASCII, and no other code unit lower-cases to an
    ASCII letter of theirs. *)
Fixpoint toLowerCase (s : string) : string :=
  match s with
  | EmptyString => EmptyString
  | String c s' => String (lower_char c) (toLowerCase s')
  end.

Fixpoint length (s : string) : nat :=
  match s with
  | EmptyString => O
  | String _ s' => S (length s')
  end.

Fixpoint to_list (s : string) : list ascii :=
  match s with
  | EmptyString => []
  | String c s' => c :: to_list s'
  end.

Fixpoint of_list (l : list ascii) : string :=
  match l with
  | [] => EmptyString
  | c :: l' => String c (of_list l')
  end.

(** [s.slice(from, to)] for [0 <= from], [to <= s.length]. *)
Definition slice (s : string) (from to : nat) : string :=
  of_list (take (to - from)%nat (drop from (to_list s))).

(** The values an option field can hold: the model covers [undefined],
    [null] and strings. *)
Inductive value :=
| Undefined
| Null
| Str (s : string).

(** Truthiness: [undefined], [null] and the empty string are falsy. *)
Definition truthy (v : value) : bool :=
  match v with
  | Str (String _ _) => true
  | _ => false
  end.

(** [v === s] against a string literal *)
Definition strict_eq (v : value) (s : string) : bool :=
  match v with
  | Str t => bool_decide (t = s)
  | _ => false
  end.

(** [`${v}`] *)
Definition to_string (v : value) : string :=
  match v with
  | Undefined => "undefined"
  | Null => "null"
  | Str s => s
  end.

End Js.

(** ** Node's [path] module (POSIX flavour) *)

Module Path.

Definition slash : ascii := "/"%char.
Definition dot : ascii := "."%char.

Fixpoint drop_slashes (l : list ascii) : list ascii :=
  match l with
  | c :: l' => if decide (c = slash) then drop_slashes l' else l
  | [] => []
  end.

Fixpoint take_component (l : list ascii) : list ascii :=
  match l with
  | c :: l' => if decide (c = slash) then [] else c :: take_component l'
  | [] => []
  end.

(** [path.basename(p)]: scanning from the end, trailing separators are
    passed over and the component runs back to the previous separator. *)
Definition basename (p : string) : string :=
  Js.of_list (rev (take_component (drop_slashes (rev (Js.to_list p))))).

(** The loop state of [path.extname]; [None] stands for the index -1. *)
Record ext_state := {
  startDot : option nat;
  startPart : nat;
  end_ : option nat;
  matchedSlash : bool;
  preDotState : Z
}.

Definition ext_init : ext_state :=
  {| startDot := None; startPart := 0%nat; end_ := None;
     matchedSlash := true; preDotState := 0 |}.

(** The loop [for (i = path.length - 1; i >= 0; --i)] of [path.extname]:
    [cs] holds [path[i], path[i-1], ..., path[0]]. *)
Fixpoint ext_loop (cs : list ascii) (i : nat) (st : ext_state) : ext_state :=
  match cs with
  | [] => st
  | c :: rest =>
      if decide (c = slash) then
        if negb (matchedSlash st) then
          {| startDot := startDot st; startPart := S i; end_ := end_ st;
             matchedSlash := matchedSlash st; preDotState := preDotState st |}
        else ext_loop rest (pred i) st
      else
        let st1 :=
          match end_ st with
          | None =>
              {| startDot := startDot st; startPart := startPart st;
                 end_ := Some (S i); matchedSlash := false;
                 preDotState := preDotState st |}
          | Some _ => st
          end in
        let st2 :=
          if decide (c = dot) then
            match startDot st1 with
            | None =>
                {| startDot := Some i; startPart := startPart st1;
                   end_ := end_ st1; matchedSlash := matchedSlash st1;
                   preDotState := preDotState st1 |}
            | Some _ =>
                if decide (preDotState st1 = 1) then st1
                else
                  {| startDot := startDot st1; startPart := startPart st1;
                     end_ := end_ st1; matchedSlash := matchedSlash st1;
                     preDotState := 1 |}
            end
          else
            match startDot st1 with
            | Some _ =>
                {| startDot := startDot st1; startPart := startPart st1;
                   end_ := end_ st1; matchedSlash := matchedSlash st1;
                   preDotState := -1 |}
            | None => st1
            end in
        ext_loop rest (pred i) st2
  end.

(** [path.extname(p)] *)
Definition extname (p : string) : string :=
  let cs := rev (Js.to_list p) in
  let st := ext_loop cs (pred (length cs)) ext_init in
  match startDot st, end_ st with
  | Some sd, Some e =>
      if decide (preDotState st = 0) then EmptyString
      else if bool_decide (preDotState st = 1) && bool_decide (sd = pred e)
              && bool_decide (sd = S (startPart st)) then EmptyString
      else Js.slice p sd e
  | _, _ => EmptyString
  end.

(** [path.join(dir, item)] for a directory path and one of its entry
    names: the two are joined by a separator.  Node also normalises the
    result (repeated separators, [.] and [..] segments), which names the
    same file; the filesystem below is keyed by the text it is given.
    [PosixPath.join] further down is node's function with its
    normalisation; the two give the same text on a normalised
    directory. *)
Definition join (dir item : string) : string := dir +:+ "/" +:+ item.

End Path.


(** ** The DOM seen through cheerio *)

#[warnings="-register-all"]
Inductive dom_node :=
| Element (name : string) (attribs : list (string * string)) (children : list dom_node)
| Text (data : string).

(** A loaded document [$]: the children of its root. *)
Definition document := list dom_node.

(** [$(tag)]: the elements named [tag], in document order. *)
Fixpoint select_node (tag : string) (n : dom_node) : list dom_node :=
  match n with
  | Element name _ children =>
      (if decide (name = tag) then [n] else []) ++ flat_map (select_node tag) children
  | Text _ => []
  end.

Definition select (tag : string) (doc : document) : list dom_node :=
  flat_map (select_node tag) doc.

Fixpoint lookup_attrib (name : string) (attribs : list (string * string)) : Js.value :=
  match attribs with
  | [] => Js.Undefined
  | (k, v) :: rest => if decide (k = name) then Js.Str v else lookup_attrib name rest
  end.

(** [$(el).attr(name)] *)
Definition attr (name : string) (el : dom_node) : Js.value :=
  match el with
  | Element _ attribs _ => lookup_attrib name attribs
  | Text _ => Js.Undefined
  end.

(** [$(tag).append(nodes)]: every element named [tag] receives the nodes
    after its present children. *)
Fixpoint append_node (tag : string) (new : list dom_node) (n : dom_node) : dom_node :=
  match n with
  | Element name attribs children =>
      Element name attribs
        (map (append_node tag new) children ++ (if decide (name = tag) then new else []))
  | Text data => Text data
  end.

Definition append (tag : string) (new : list dom_node) (doc : document) : document :=
  map (append_node tag new) doc.

(** The HTML parser and serializer behind cheerio: [cheerio.load(html)]
    ([None] when it throws), the parsing of the markup handed to
    [.append(...)], and [$.html()]. *)
Class Cheerio := {
  cheerio_load : string -> option document;
  cheerio_parse : string -> list dom_node;
  cheerio_html : document -> string
}.

(** ** [hasFavicon] *)

Definition is_favicon_rel (rel : Js.value) : bool :=
  Js.truthy rel &&
  (Js.strict_eq rel "icon" || Js.strict_eq rel "shortcut icon"
   || Js.strict_eq rel "apple-touch-icon").

(** The loop of [hasFavicon] over [links[i], links[i+1], ...]: the value
    returned and the index [i] at which the loop is left. *)
Fixpoint hasFavicon_loop (links : list dom_node) (i : nat) : bool * nat :=
  match links with
  | [] => (false, i)
  | link :: rest =>
      let rel := attr "rel" link in
      if is_favicon_rel rel then (true, i) else hasFavicon_loop rest (S i)
  end.

Definition hasFavicon (doc : document) : bool :=
  fst (hasFavicon_loop (select "link" doc) 0).

(** ** The filesystem, the console and the monad of effects *)

Inductive fs_node :=
| File (content : string) (readable writable : bool)
| Dir (entries : option (list string))
| Special.

Inductive syscall := Access | Stat | Scandir | Open | Write.

Inductive error :=
| FsError (call : syscall) (path : string)
| TypeError (msg : string)
| ParseError
| JsError (msg : string).

Inductive event :=
| FsCall (call : syscall) (path : string)
| ConsoleWarn (msg : string)
| ConsoleError (msg : string) (e : error).

(** The files by path text, and the log of calls and console lines, newest
    first. *)
Record world := {
  fs : gmap string fs_node;
  log : list event
}.

Inductive result (A : Type) :=
| Ok (a : A)
| Throw (e : error).
Arguments Ok {A} a.
Arguments Throw {A} e.

Definition M (A : Type) : Type := world -> result A * world.

Definition ret {A} (a : A) : M A := fun w => (Ok a, w).
Definition throw {A} (e : error) : M A := fun w => (Throw e, w).
Definition bind {A B} (m : M A) (k : A -> M B) : M B :=
  fun w => match m w with
           | (Ok a, w') => k a w'
           | (Throw e, w') => (Throw e, w')
           end.
Definition try_catch {A} (m : M A) (handler : error -> M A) : M A :=
  fun w => match m w with
           | (Ok a, w') => (Ok a, w')
           | (Throw e, w') => handler e w'
           end.

Notation "'let*' x ':=' m 'in' k" := (bind m (fun x => k))
  (at level 10, x name, m at level 100, k at level 200).

Definition emit (e : event) : M unit :=
  fun w => (Ok tt, {| fs := fs w; log := e :: log w |}).

Definition console_warn (msg : string) : M unit := emit (ConsoleWarn msg).
Definition console_error (msg : string) (e : error) : M unit := emit (ConsoleError msg e).

Definition lookup_node (p : string) : M (option fs_node) :=
  fun w => (Ok (fs w !! p), w).

(** [fs.pathExists(p)] never rejects. *)
Definition pathExists (p : string) : M bool :=
  let* _ := emit (FsCall Access p) in
  let* n := lookup_node p in
  ret (bool_decide (is_Some n)).

(** [fs.stat(p)]: the node found at [p], of which only [isFile()] and
    [isDirectory()] are asked. *)
Definition stat (p : string) : M fs_node :=
  let* _ := emit (FsCall Stat p) in
  let* n := lookup_node p in
  match n with
  | Some n => ret n
  | None => throw (FsError Stat p)
  end.

Definition isFile (n : fs_node) : bool :=
  match n with File _ _ _ => true | _ => false end.

Definition isDirectory (n : fs_node) : bool :=
  match n with Dir _ => true | _ => false end.

(** [fs.readdir(p)] *)
Definition readdir (p : string) : M (list string) :=
  let* _ := emit (FsCall Scandir p) in
  let* n := lookup_node p in
  match n with
  | Some (Dir (Some items)) => ret items
  | _ => throw (FsError Scandir p)
  end.

(** [fs.readFile(p, 'utf8')] *)
Definition readFile (p : string) : M string :=
  let* _ := emit (FsCall Open p) in
  let* n := lookup_node p in
  match n with
  | Some (File content true _) => ret content
  | _ => throw (FsError Open p)
  end.

(** [fs.writeFile(p, data)]: the content of a writable file is replaced as
    a whole or not at all.  The code writes only to a path it has just
    stat'ed and read as a file, so the creation of a missing file is left
    out and counted as a rejection. *)
Definition writeFile (p data : string) : M unit :=
  let* _ := emit (FsCall Write p) in
  let* n := lookup_node p in
  match n with
  | Some (File _ readable true) =>
      fun w => (Ok tt, {| fs := <[p := File data readable true]> (fs w); log := log w |})
  | _ => throw (FsError Write p)
  end.

(** ** Options *)

(** An options object as passed by the caller: [None] is a key that the
    object does not have. *)
Record options_object := {
  opt_path : option Js.value;
  opt_rel : option Js.value;
  opt_type : option Js.value;
  opt_sizes : option Js.value
}.

(** The [options] argument: left out, a bare string, or an object. *)
Inductive options :=
| Omitted
| Bare (s : string)
| Object (o : options_object).

(** The local [faviconOptions]. *)
Record FaviconOptions := {
  path : Js.value;
  rel : Js.value;
  type : Js.value;
  sizes : Js.value
}.

(** The default parameter value and [typeof options === 'string']. *)
Definition options_as_object (o : options) : options_object :=
  match o with
  | Omitted =>
      {| opt_path := Some (Js.Str "/favicon.ico"); opt_rel := None;
         opt_type := None; opt_sizes := None |}
  | Bare s =>
      {| opt_path := Some (Js.Str s); opt_rel := None;
         opt_type := None; opt_sizes := None |}
  | Object o => o
  end.

(** [{ path: '/favicon.ico', rel: 'icon', type: null, sizes: null, ...options }] *)
Definition with_defaults (o : options_object) : FaviconOptions :=
  {| path := default (Js.Str "/favicon.ico") (opt_path o);
     rel := default (Js.Str "icon") (opt_rel o);
     type := default Js.Null (opt_type o);
     sizes := default Js.Null (opt_sizes o) |}.

(** The [switch (ext)] of the auto-detection: [None] when no case matches. *)
Definition mime_of_ext (ext : string) : option string :=
  if decide (ext = ".ico") then Some "image/x-icon"
  else if decide (ext = ".png") then Some "image/png"
  else if decide (ext = ".svg") then Some "image/svg+xml"
  else if decide (ext = ".jpg") then Some "image/jpeg"
  else if decide (ext = ".jpeg") then Some "image/jpeg"
  else None.

(** [if (!faviconOptions.type) { ... }]; [path.extname] rejects a
    non-string with a [TypeError]. *)
Definition detect_type (fo : FaviconOptions) : M FaviconOptions :=
  if negb (Js.truthy (type fo)) then
    match path fo with
    | Js.Str p =>
        let ext := Js.toLowerCase (Path.extname p) in
        match mime_of_ext ext with
        | Some mime =>
            ret {| path := path fo; rel := rel fo; type := Js.Str mime; sizes := sizes fo |}
        | None => ret fo
        end
    | _ => throw (TypeError "The path argument must be of type string")
    end
  else ret fo.

Definition dquote : string := String (ascii_of_N 34) EmptyString.

(** The [linkTag] string built from [faviconOptions]. *)
Definition link_tag (fo : FaviconOptions) : string :=
  let linkTag :=
    "<link rel=" +:+ dquote +:+ Js.to_string (rel fo) +:+ dquote +:+
    " href=" +:+ dquote +:+ Js.to_string (path fo) +:+ dquote in
  let linkTag :=
    if Js.truthy (type fo)
    then linkTag +:+ " type=" +:+ dquote +:+ Js.to_string (type fo) +:+ dquote
    else linkTag in
  let linkTag :=
    if Js.truthy (sizes fo)
    then linkTag +:+ " sizes=" +:+ dquote +:+ Js.to_string (sizes fo) +:+ dquote
    else linkTag in
  linkTag +:+ ">".

(** The value that a [type] or [sizes] attribute of the tag carries, [None]
    when the tag has no such attribute. *)
Definition attribute_value (v : Js.value) : option string :=
if Js.truthy v then Some (Js.to_string v) else None.

(** The text of an optional attribute: a space, the name and the quoted
    value, or nothing. *)
Definition attribute_text (name : string) (v : option string) : string :=
match v with
| Some s => " " +:+ name +:+ "=" +:+ dquote +:+ s +:+ dquote
| None => EmptyString
end.

(** ** [injectFavicon] and [injectDir] *)

Record InjectionStats := {
  total : Z;
  injected : Z;
  skipped : Z;
  failed : Z
}.

Definition zero_stats : InjectionStats :=
  {| total := 0; injected := 0; skipped := 0; failed := 0 |}.

Definition incr_total (s : InjectionStats) : InjectionStats :=
  {| total := total s + 1; injected := injected s; skipped := skipped s; failed := failed s |}.
Definition incr_injected (s : InjectionStats) : InjectionStats :=
  {| total := total s; injected := injected s + 1; skipped := skipped s; failed := failed s |}.
Definition incr_skipped (s : InjectionStats) : InjectionStats :=
  {| total := total s; injected := injected s; skipped := skipped s + 1; failed := failed s |}.
Definition incr_failed (s : InjectionStats) : InjectionStats :=
  {| total := total s; injected := injected s; skipped := skipped s; failed := failed s + 1 |}.

(** The four [stats.x += subStats.x]. *)
Definition add_stats (s sub : InjectionStats) : InjectionStats :=
  {| total := total s + total sub; injected := injected s + injected sub;
     skipped := skipped s + skipped sub; failed := failed s + failed sub |}.

Section Injector.

Context `{Cheerio}.

Definition load (html : string) : M document :=
  match cheerio_load html with
  | Some doc => ret doc
  | None => throw ParseError
  end.

(** The body of the [try] block of [injectFavicon]. *)
Definition injectFavicon_try (filePath : string) (opts : options) : M bool :=
  let* st := stat filePath in
  if negb (isFile st) then
    let* _ := console_warn ("Path is not a file: " +:+ filePath) in
    ret false
  else if Js.startsWith (Path.basename filePath) "._" then
    let* _ := console_warn ("Skipping macOS metadata file: " +:+ filePath) in
    ret false
  else
    let faviconOptions := with_defaults (options_as_object opts) in
    let* faviconOptions := detect_type faviconOptions in
    let* html := readFile filePath in
    let* doc := load html in
    if hasFavicon doc then ret false
    else
      let head := select "head" doc in
      if decide (length head = 0%nat) then
        let* _ := console_warn ("No <head> tag found in " +:+ filePath) in
        ret false
      else
        let linkTag := link_tag faviconOptions in
        let doc := append "head" (cheerio_parse linkTag) doc in
        let* _ := writeFile filePath (cheerio_html doc) in
        ret true.

Definition injectFavicon (filePath : string) (opts : options) : M bool :=
  try_catch (injectFavicon_try filePath opts)
    (fun e =>
       let* _ := console_error ("Error injecting favicon into " +:+ filePath +:+ ":") e in
       ret false).

(** The state in which one turn of the [for (const item of items)] loop
    of [injectDir] leaves the scan: the counters, and the error when the
    turn threw. *)
Definition turn : Type := InjectionStats * option error * world.

(** One turn of the loop; [recurse] is the recursive call of [injectDir],
    [None] when it does not return. *)
Definition scan_item (recurse : string -> world -> option (InjectionStats * world))
    (dirPath : string) (opts : options) (item : string)
    (stats : InjectionStats) (w : world) : option turn :=
  if Js.startsWith item "._" then Some (stats, None, w)
  else
    let itemPath := Path.join dirPath item in
    match stat itemPath w with
    | (Throw e, w) => Some (stats, Some e, w)
    | (Ok st, w) =>
        if isDirectory st then
          match recurse itemPath w with
          | None => None
          | Some (subStats, w) => Some (add_stats stats subStats, None, w)
          end
        else if isFile st && Js.endsWith (Js.toLowerCase itemPath) ".html" then
          let stats := incr_total stats in
          match injectFavicon itemPath opts w with
          | (Throw e, w) => Some (stats, Some e, w)
          | (Ok true, w) => Some (incr_injected stats, None, w)
          | (Ok false, w) =>
              match (let* html := readFile itemPath in load html) w with
              | (Throw e, w) => Some (stats, Some e, w)
              | (Ok doc, w) =>
                  if hasFavicon doc then Some (incr_skipped stats, None, w)
                  else Some (incr_failed stats, None, w)
              end
          end
        else Some (stats, None, w)
    end.

(** The loop: it is left at the first turn that throws. *)
Fixpoint scan_items (recurse : string -> world -> option (InjectionStats * world))
    (dirPath : string) (opts : options) (items : list string)
    (stats : InjectionStats) (w : world) : option turn :=
  match items with
  | [] => Some (stats, None, w)
  | item :: rest =>
      match scan_item recurse dirPath opts item stats w with
      | Some (stats, None, w) => scan_items recurse dirPath opts rest stats w
      | stopped => stopped
      end
  end.

(** The [catch] of [injectDir]: the error is logged and the counters
    reached so far are returned. *)
Definition injectDir_catch (dirPath : string) (stats : InjectionStats) (e : error)
    (w : world) : InjectionStats * world :=
  (stats, snd (console_error ("Error scanning directory " +:+ dirPath +:+ ":") e w)).

(** [injectDir]; the recursion on subdirectories is bounded by [fuel],
    and [None] is a call that has not returned within it. *)
Fixpoint injectDir (fuel : nat) (dirPath : string) (opts : options) (w : world)
    : option (InjectionStats * world) :=
  match fuel with
  | O => None
  | S fuel =>
      let stats := zero_stats in
      match pathExists dirPath w with
      | (Throw e, w) => Some (injectDir_catch dirPath stats e w)
      | (Ok false, w) =>
          Some (injectDir_catch dirPath stats
                  (JsError ("Directory " +:+ dirPath +:+ " does not exist")) w)
      | (Ok true, w) =>
          match readdir dirPath w with
          | (Throw e, w) => Some (injectDir_catch dirPath stats e w)
          | (Ok items, w) =>
              match scan_items (fun p => injectDir fuel p opts) dirPath opts items stats w with
              | None => None
              | Some (stats, None, w) => Some (stats, w)
              | Some (stats, Some e, w) => Some (injectDir_catch dirPath stats e w)
              end
          end
      end
  end.

End Injector.

(** ** The directory tree below a path *)

(** An entry name as a directory listing gives it: not empty, and without
    a separator. *)
Definition plain_name (item : string) : bool :=
negb (bool_decide (item = EmptyString)) &&
forallb (fun c => negb (bool_decide (c = Path.slash))) (Js.to_list item).

Definition is_html_name (item : string) : bool :=
Js.endsWith (Js.toLowerCase item) ".html".

Definition is_metadata_name (item : string) : bool :=
Js.startsWith item "._".

(** An upper bound on the length of the paths that name a node. *)
Definition depth_bound (m : gmap string fs_node) : nat :=
S (foldr (fun kv acc => Nat.max (Js.length kv.1) acc) O (map_to_list m)).

(** A scanning error logged after a file was counted and before it was
    classified: the re-read or the re-parse of [injectDir] threw. *)
Definition interrupted (e : event) : bool :=
match e with
| ConsoleError msg (FsError Open _) => Js.startsWith msg "Error scanning directory "
| ConsoleError msg ParseError => Js.startsWith msg "Error scanning directory "
| _ => false
end.

(** The element that the link tag denotes. *)
Definition link_element (fo : FaviconOptions) : dom_node :=
Element "link"
  ([("rel", Js.to_string (rel fo)); ("href", Js.to_string (path fo))]
   ++ (if Js.truthy (type fo) then [("type", Js.to_string (type fo))] else [])
   ++ (if Js.truthy (sizes fo) then [("sizes", Js.to_string (sizes fo))] else []))
  [].

(** A place in a document: the nodes before and after it at each level
    down from the root. *)
Inductive context :=
| Here (before after : list dom_node)
| Inside (before : list dom_node) (name : string) (attribs : list (string * string))
         (inner : context) (after : list dom_node).

Fixpoint fill (c : context) (n : dom_node) : document :=
match c with
| Here before after => before ++ n :: after
| Inside before name attribs inner after =>
    before ++ Element name attribs (fill inner n) :: after
end.

(** No element around or beside the place is named [tag]. *)
Fixpoint context_without (tag : string) (c : context) : Prop :=
match c with
| Here before after => select tag before = [] /\ select tag after = []
| Inside before name attribs inner after =>
    select tag before = [] /\ select tag after = [] /\ name <> tag
    /\ context_without tag inner
end.

Section Tree.

Context `{Cheerio}.

(** The presence check on the file at [p]. *)
Definition has_favicon_file (m : gmap string fs_node) (p : string) : bool :=
match m !! p with
| Some (File content _ _) =>
    match cheerio_load content with
    | Some doc => hasFavicon doc
    | None => false
    end
| _ => false
end.

(** The [.html] files that an entry of [dirPath] contributes; [skip] tells
    the entry names that are passed over. *)
Definition entry_files (skip : string -> bool) (inner : string -> list string)
    (m : gmap string fs_node) (dirPath item : string) : list string :=
if skip item then []
else
  let p := Path.join dirPath item in
  match m !! p with
  | Some (Dir _) => inner p
  | Some (File _ _ _) => if is_html_name item then [p] else []
  | _ => []
  end.

(** The regular files below [dirPath] whose names end in [.html], down to
    [fuel] levels. *)
Fixpoint html_files (skip : string -> bool) (fuel : nat) (m : gmap string fs_node)
    (dirPath : string) : list string :=
match fuel with
| O => []
| S fuel =>
    match m !! dirPath with
    | Some (Dir (Some items)) =>
        flat_map (entry_files skip (html_files skip fuel m) m dirPath) items
    | _ => []
    end
end.

(** Every file whose name ends in [.html], as the claim counts them. *)
Definition all_html_files := html_files (fun _ => false).

(** The files the walk reaches: entries named [._*] are passed over. *)
Definition reached_html_files := html_files is_metadata_name.

(** A [.html] file that is read, parsed and, where it lacks a favicon,
    given one without an error: its document has a head and the file can
    be written. *)
Definition file_ok (n : fs_node) : bool :=
match n with
| File content readable writable =>
    readable &&
    match cheerio_load content with
    | Some doc =>
        hasFavicon doc || (writable && negb (bool_decide (select "head" doc = [])))
    | None => false
    end
| _ => false
end.

Definition entry_ok (inner : string -> bool) (m : gmap string fs_node)
    (dirPath item : string) : bool :=
plain_name item &&
(if is_metadata_name item then true
 else
   let p := Path.join dirPath item in
   match m !! p with
   | Some (Dir _) => inner p
   | Some (File content readable writable) =>
       if is_html_name item then file_ok (File content readable writable) else true
   | Some Special => true
   | None => false
   end).

(** No call fails during the walk of [dirPath]: every directory reached
    can be listed, its listing holds plain names without repetition, every
    entry can be stat'ed and every [.html] file is [file_ok]. *)
Fixpoint error_free (fuel : nat) (m : gmap string fs_node) (dirPath : string) : bool :=
match fuel with
| O => false
| S fuel =>
    match m !! dirPath with
    | Some (Dir (Some items)) =>
        bool_decide (NoDup items) && forallb (entry_ok (error_free fuel m) m dirPath) items
    | _ => false
    end
end.

(** The counters that the claim gives for the files [files]: all of them
    counted, those with a favicon skipped and the others injected. *)
Definition expected_stats (m : gmap string fs_node) (files : list string) : InjectionStats :=
let N := Z.of_nat (length files) in
let k := Z.of_nat (length (filter (fun p => has_favicon_file m p = true) files)) in
{| total := N; injected := N - k; skipped := k; failed := 0 |}.

(** The options whose [path] is a string, absent or given. *)
Definition path_is_string (opts : options) : bool :=
match path (with_defaults (options_as_object opts)) with
| Js.Str _ => true
| _ => false
end.

End Tree.

(** ** What a scan may change *)

(** [q] lies below the directory [d]. *)
Definition below (d q : string) : Prop :=
exists r, q = d +:+ "/" +:+ r.

(** From [m] to [m'] nothing changed but the content of writable files
    below [d]. *)
Definition rewritten (d : string) (m m' : gmap string fs_node) : Prop :=
forall q,
  m' !! q = m !! q \/
  (below d q /\
   exists content content' readable,
     m !! q = Some (File content readable true) /\
     m' !! q = Some (File content' readable true)).

(** The counted files that are not classified. *)
Definition balance (s : InjectionStats) : Z :=
total s - (injected s + skipped s + failed s).

Definition nonneg (s : InjectionStats) : Prop :=
0 <= total s /\ 0 <= injected s /\ 0 <= skipped s /\ 0 <= failed s.

(** The errors of the re-read and of the re-parse. *)
Definition interrupting (e : option error) : bool :=
match e with
| Some (FsError Open _) => true
| Some ParseError => true
| _ => false
end.

(** What holds of a stretch of the scan that takes the counters from [st]
    to [st'] and the world from [w] to [w'], ending with the error [err]
    when it threw. *)
Definition scan_inv (d : string) (st : InjectionStats) (w : world)
    (st' : InjectionStats) (err : option error) (w' : world) : Prop :=
rewritten d (fs w) (fs w') /\
(nonneg st -> nonneg st') /\
balance st <= balance st' /\
exists added,
  log w' = added ++ log w /\
  (Forall (fun e => interrupted e = false) added -> interrupting err = false ->
   balance st' = balance st).

(** What holds of a call of [injectDir] on [d] that returns [st]. *)
Definition dir_inv (d : string) (w : world) (st : InjectionStats) (w' : world) : Prop :=
rewritten d (fs w) (fs w') /\
nonneg st /\
0 <= balance st /\
exists added,
  log w' = added ++ log w /\
  (Forall (fun e => interrupted e = false) added -> balance st = 0).

(** [q] is [d] or lies below it. *)
Definition within (d q : string) : Prop := q = d \/ below d q.

Definition no_slash (s : string) : Prop :=
Forall (fun c => c <> Path.slash) (Js.to_list s).

(** Every path that names a node is shorter than [B]. *)
Definition bounded (B : nat) (m : gmap string fs_node) : Prop :=
forall q, is_Some (m !! q) -> (Js.length q < B)%nat.

(** The world once [injectDir] has checked and listed [d]. *)
Definition after_listing (d : string) (w : world) : world :=
{| fs := fs w; log := FsCall Scandir d :: FsCall Access d :: log w |}.

(** ** The options that the interface accepts *)

(** An option field that is absent or a string. *)
Definition string_if_given (v : option Js.value) : Prop :=
match v with
| None => True
| Some (Js.Str _) => True
| Some _ => False
end.

(** A bare string, or an object of the shape of [FaviconOptions]: [path]
    and [rel] are strings when given, [type] and [sizes] are optional. *)
Definition accepted (opts : options) : Prop :=
match opts with
| Omitted => True
| Bare _ => True
| Object o => string_if_given (opt_path o) /\ string_if_given (opt_rel o)
end.

Definition nonempty_string (v : Js.value) : Prop :=
exists s, v = Js.Str s /\ s <> EmptyString.

(** An option field that, when given, is a string that is not empty. *)
Definition nonempty_if_given (v : option Js.value) : Prop :=
match v with
| None => True
| Some v => nonempty_string v
end.

(** ** A small parser and serializer

    An instance of the parser interface for the examples: it reads and
    writes the well-formed markup of double-quoted attributes, void [link]
    and [meta] elements and explicitly closed other elements, and rejects
    everything else. *)

Module Sample.

Definition lt : ascii := "<"%char.
Definition gt : ascii := ">"%char.
Definition space : ascii := " "%char.
Definition equals : ascii := "="%char.
Definition quote : ascii := ascii_of_N 34.

Definition is_void (name : string) : bool :=
bool_decide (name = "link") || bool_decide (name = "meta").

(** The characters up to the first one that satisfies [stop], and the rest. *)
Fixpoint span_until (stop : ascii -> bool) (cs : list ascii) : list ascii * list ascii :=
match cs with
| [] => ([], [])
| c :: rest =>
    if stop c then ([], cs)
    else let '(taken, remaining) := span_until stop rest in (c :: taken, remaining)
end.

(** The attributes of a start tag up to its [>]. *)
Fixpoint parse_attribs (fuel : nat) (cs : list ascii)
    : option (list (string * string) * list ascii) :=
match fuel with
| O => None
| S fuel =>
    match cs with
    | c :: rest =>
        if decide (c = gt) then Some ([], rest)
        else if decide (c = space) then
          let '(name, rest) := span_until (fun c => bool_decide (c = equals)) rest in
          match rest with
          | e :: q :: rest =>
              if decide (q = quote) then
                let '(value, rest) := span_until (fun c => bool_decide (c = quote)) rest in
                match rest with
                | _ :: rest =>
                    match parse_attribs fuel rest with
                    | Some (more, rest) =>
                        Some ((Js.of_list name, Js.of_list value) :: more, rest)
                    | None => None
                    end
                | [] => None
                end
              else None
          | _ => None
          end
        else None
    | [] => None
    end
end.

(** The closing tag [</name>] at the head of [cs]. *)
Definition parse_close (name : string) (cs : list ascii) : option (list ascii) :=
match cs with
| a :: b :: rest =>
    let '(found, rest) := span_until (fun c => bool_decide (c = gt)) rest in
    match rest with
    | _ :: rest =>
        if bool_decide (a = lt) && bool_decide (b = Path.slash)
           && bool_decide (Js.of_list found = name)
        then Some rest else None
    | [] => None
    end
| _ => None
end.

(** The nodes up to the end of the input or to the next closing tag. *)
Fixpoint parse_nodes (fuel : nat) (cs : list ascii) : option (list dom_node * list ascii) :=
match fuel with
| O => None
| S fuel =>
    match cs with
    | [] => Some ([], [])
    | c :: rest =>
        if decide (c = lt) then
          match rest with
          | c' :: _ =>
              if decide (c' = Path.slash) then Some ([], cs)
              else
                let '(name, rest) :=
                  span_until (fun c => bool_decide (c = gt) || bool_decide (c = space)) rest in
                match parse_attribs (S (List.length rest)) rest with
                | Some (attribs, rest) =>
                    if is_void (Js.of_list name) then
                      match parse_nodes fuel rest with
                      | Some (siblings, rest) =>
                          Some (Element (Js.of_list name) attribs [] :: siblings, rest)
                      | None => None
                      end
                    else
                      match parse_nodes fuel rest with
                      | Some (children, rest) =>
                          match parse_close (Js.of_list name) rest with
                          | Some rest =>
                              match parse_nodes fuel rest with
                              | Some (siblings, rest) =>
                                  Some (Element (Js.of_list name) attribs children :: siblings,
                                        rest)
                              | None => None
                              end
                          | None => None
                          end
                      | None => None
                      end
                | None => None
                end
          | [] => None
          end
        else
          let '(text, rest) := span_until (fun c => bool_decide (c = lt)) cs in
          match parse_nodes fuel rest with
          | Some (siblings, rest) => Some (Text (Js.of_list text) :: siblings, rest)
          | None => None
          end
    end
end.

Definition parse_all (markup : string) : option (list dom_node) :=
let cs := Js.to_list markup in
match parse_nodes (S (List.length cs)) cs with
| Some (nodes, []) => Some nodes
| _ => None
end.

Definition write_attrib (kv : string * string) : string :=
" " +:+ kv.1 +:+ "=" +:+ dquote +:+ kv.2 +:+ dquote.

Fixpoint concat_strings (l : list string) : string :=
match l with
| [] => EmptyString
| s :: rest => s +:+ concat_strings rest
end.

Fixpoint write_node (n : dom_node) : string :=
match n with
| Text data => data
| Element name attribs children =>
    "<" +:+ name +:+ concat_strings (map write_attrib attribs) +:+ ">" +:+
    (if is_void name then EmptyString
     else concat_strings (map write_node children) +:+ "</" +:+ name +:+ ">")
end.

#[local] Instance parser : Cheerio := {|
  cheerio_load := parse_all;
  cheerio_parse := fun markup => default [] (parse_all markup);
  cheerio_html := fun doc => concat_strings (map write_node doc)
|}.

Definition page_plain : string :=
"<html><head><title>Test</title></head><body></body></html>".

Definition page_with_icon : string :=
"<html><head><title>Test</title><link rel=" +:+ dquote +:+ "icon" +:+ dquote +:+
" href=" +:+ dquote +:+ "/existing.ico" +:+ dquote +:+ "></head><body></body></html>".

Definition doc_plain : document :=
[Element "html" []
   [Element "head" [] [Element "title" [] [Text "Test"]]; Element "body" [] []]].

(** A site: two pages of which one has a favicon, a metadata sidecar, a
    text file, and a subdirectory with a third page. *)
Definition site : gmap string fs_node :=
list_to_map
  [("/site", Dir (Some ["a.html"; "b.html"; "._c.html"; "notes.txt"; "sub"]));
   ("/site/a.html", File page_plain true true);
   ("/site/b.html", File page_with_icon true true);
   ("/site/._c.html", File page_plain true true);
   ("/site/notes.txt", File "notes" true true);
   ("/site/sub", Dir (Some ["d.HTML"]));
   ("/site/sub/d.HTML", File page_plain true true)].

Definition site_world : world := {| fs := site; log := [] |}.

(** The same site with a page that cannot be read. *)
Definition broken_site_world : world :=
{| fs := <["/site/a.html" := File page_plain false true]> site; log := [] |}.

End Sample.

(** ** Further notions about single calls *)

(** A filesystem call on [p] other than a listing or an existence check;
    console lines are let through. *)
Definition on_path (p : string) (e : event) : Prop :=
match e with
| FsCall call q => q = p /\ (call = Stat \/ call = Open \/ call = Write)
| _ => True
end.

(** ** Further notions about a scan *)



(** Two nodes that differ at most by the order of a listing. *)
Definition same_node (n1 n2 : fs_node) : Prop :=
match n1, n2 with
| Dir (Some l1), Dir (Some l2) => l1 ≡ₚ l2
| _, _ => n1 = n2
end.

(** Two filesystems that differ at most by the order in which their
    directories list their entries. *)
Definition reordered (m1 m2 : gmap string fs_node) : Prop :=
forall q,
  match m1 !! q, m2 !! q with
  | Some n1, Some n2 => same_node n1 n2
  | None, None => True
  | _, _ => False
  end.

(** ** The presence check of the tests *)

(** [a === b] on two values of the model *)
Definition same_value (a b : Js.value) : bool :=
match a, b with
| Js.Undefined, Js.Undefined => true
| Js.Null, Js.Null => true
| Js.Str s, Js.Str t => bool_decide (s = t)
| _, _ => false
end.

Module Tests.

(** The loop of the helper over [links[i], links[i+1], ...]. *)
Fixpoint hasFavicon_loop (links : list dom_node) (expectedFaviconPath : Js.value) : bool :=
match links with
| [] => false
| link :: rest =>
    let rel := attr "rel" link in
    if Js.truthy rel && (Js.strict_eq rel "icon" || Js.strict_eq rel "shortcut icon") then
      if Js.truthy expectedFaviconPath
      then same_value (attr "href" link) expectedFaviconPath
      else true
    else hasFavicon_loop rest expectedFaviconPath
end.

(** [hasFavicon(html, expectedFaviconPath)] of [injector.test.js]; [None]
    when [cheerio.load] throws. *)
Definition hasFavicon `{Cheerio} (html : string) (expectedFaviconPath : Js.value)
  : option bool :=
match cheerio_load html with
| Some doc => Some (hasFavicon_loop (select "link" doc) expectedFaviconPath)
| None => None
end.

End Tests.

(** ** The file that an injection leaves *)

(** The node that a successful pass of [injectFavicon] with the options
    [fo] leaves where [n] was: a readable and writable file whose document
    has a head and no favicon link holds that document with the tag
    appended; any other node is as before. *)
Definition injected_node `{Cheerio} (fo : FaviconOptions) (n : fs_node) : fs_node :=
match n with
| File content true true =>
    match cheerio_load content with
    | Some doc =>
        if hasFavicon doc || bool_decide (select "head" doc = []) then n
        else File (cheerio_html (append "head" (cheerio_parse (link_tag fo)) doc)) true true
    | None => n
    end
| _ => n
end.

(** ** Node's [path.join] with its normalisation *)

Module PosixPath.

(** The segments of a path: the runs of characters between separators,
    the empty ones included. *)
Fixpoint segments (p : string) : list string :=
match p with
| EmptyString => [EmptyString]
| String c rest =>
    if decide (c = Path.slash) then EmptyString :: segments rest
    else
      match segments rest with
      | segment :: others => String c segment :: others
      | [] => [String c EmptyString]
      end
end.

(** What [normalizeString] does with [res], the segments kept so far, when
    it meets the end of a segment: an empty segment and [.] are passed
    over; [..] takes away the last segment kept, unless there is none or it
    is [..] itself, and then [..] is kept when the path is relative; any
    other segment is kept. *)
Definition step (allowAboveRoot : bool) (res : list string) (segment : string)
  : list string :=
if decide (segment = EmptyString) then res
else if decide (segment = ".") then res
else if decide (segment = "..") then
  match last res with
  | Some kept =>
      if decide (kept = "..")
      then (if allowAboveRoot then res ++ [".."] else res)
      else removelast res
  | None => if allowAboveRoot then [".."] else []
  end
else res ++ [segment].

(** The segments kept, with a separator between two of them. *)
Definition render (res : list string) : string :=
match res with
| [] => EmptyString
| first :: others => fold_left (fun text segment => text +:+ "/" +:+ segment) others first
end.

Definition normalizeString (path : string) (allowAboveRoot : bool) : string :=
render (fold_left (step allowAboveRoot) (segments path) []).

Definition isAbsolute (path : string) : bool :=
match path with
| String c _ => bool_decide (c = Path.slash)
| EmptyString => false
end.

Definition trailingSeparator (path : string) : bool :=
bool_decide (last (Js.to_list path) = Some Path.slash).

(** [path.normalize(path)] *)
Definition normalize (path : string) : string :=
match path with
| EmptyString => "."
| _ =>
    let res := normalizeString path (negb (isAbsolute path)) in
    match res with
    | EmptyString =>
        if isAbsolute path then "/" else if trailingSeparator path then "./" else "."
    | _ =>
        let res := if trailingSeparator path then res +:+ "/" else res in
        if isAbsolute path then "/" +:+ res else res
    end
end.

(** [path.join(a, b)]: the arguments that are not empty are joined by a
    separator and the result is normalised. *)
Definition join (a b : string) : string :=
match a, b with
| EmptyString, EmptyString => "."
| EmptyString, _ => normalize b
| _, EmptyString => normalize a
| _, _ => normalize (a +:+ "/" +:+ b)
end.

End PosixPath.

(** A name that [readdir] can give: a plain name other than [.] and
    [..]. *)
Definition entry_name (item : string) : Prop :=
plain_name item = true /\ item <> "." /\ item <> "..".

(** A directory path as [path.normalize] leaves it, without a separator
    at its end and other than [.]. *)
Definition normalized (d : string) : Prop :=
PosixPath.normalize d = d /\ PosixPath.trailingSeparator d = false /\ d <> ".".

(** * Properties *)

#[local] Arguments String.append !s1 s2 / : simpl nomatch.

(** ** Strings and paths *)

Example extname_upper : Path.extname "icon.ICO" = ".ICO".
Proof. reflexivity. Qed.
Example extname_nested : Path.extname "/assets/img/pic.tar.png" = ".png".
Proof. reflexivity. Qed.
Example extname_none : Path.extname "/test-favicon-no-extension" = EmptyString.
Proof. reflexivity. Qed.
Example extname_dotfile : Path.extname "/.ico" = EmptyString.
Proof. reflexivity. Qed.
Example extname_dotdot : Path.extname "a/.." = EmptyString.
Proof. reflexivity. Qed.
Example extname_trailing : Path.extname "x.png//" = ".png".
Proof. reflexivity. Qed.
Example extname_dots : Path.extname "..." = ".".
Proof. reflexivity. Qed.
Example basename_plain : Path.basename "/site/pages/._index.html" = "._index.html".
Proof. reflexivity. Qed.
Example basename_trailing : Path.basename "/site/pages//" = "pages".
Proof. reflexivity. Qed.
Example endsWith_html : Js.endsWith (Js.toLowerCase "/site/A.HTML") ".html" = true.
Proof. reflexivity. Qed.

(** ** The presence check *)

Lemma is_favicon_rel_spec (v : Js.value) :
  is_favicon_rel v = true <->
  exists s, v = Js.Str s /\ (s = "icon" \/ s = "shortcut icon" \/ s = "apple-touch-icon").
Proof.
  unfold is_favicon_rel, Js.strict_eq. split.
  - destruct v as [| |s]; simpl; try discriminate.
    intros Hv. apply andb_true_iff in Hv as [_ Hv].
    exists s. split; [reflexivity|].
    repeat (apply orb_true_iff in Hv as [Hv|Hv]);
      apply bool_decide_eq_true in Hv; auto.
  - intros (s & -> & [->|[->| ->]]); reflexivity.
Qed.

Lemma hasFavicon_loop_find (links : list dom_node) (i : nat) :
  hasFavicon_loop links i =
  match list_find (fun link => is_favicon_rel (attr "rel" link) = true) links with
  | Some (k, _) => (true, (i + k)%nat)
  | None => (false, (i + length links)%nat)
  end.
Proof.
  revert i. induction links as [|link rest IH]; intros i; simpl.
  - f_equal. lia.
  - destruct (is_favicon_rel (attr "rel" link)) eqn:Hrel.
    + case_decide; [|done]. simpl. f_equal. lia.
    + case_decide; [done|].
      rewrite IH. destruct (list_find _ rest) as [[k x]|]; simpl; f_equal; lia.
Qed.

Lemma hasFavicon_exists (doc : document) :
  hasFavicon doc = true <->
  exists link s, link ∈ select "link" doc /\ attr "rel" link = Js.Str s /\
    (s = "icon" \/ s = "shortcut icon" \/ s = "apple-touch-icon").
Proof.
  unfold hasFavicon. rewrite hasFavicon_loop_find.
  destruct (list_find _ _) as [[k link]|] eqn:Hfind; simpl.
  - apply list_find_Some in Hfind as (Hk & Hrel & _).
    apply is_favicon_rel_spec in Hrel as (s & Hs & Hcases).
    split; [|done]. intros _. exists link, s. split; [|done].
    eapply list_elem_of_lookup_2; eauto.
  - split; [discriminate|]. intros (link & s & Hin & Hs & Hcases).
    apply list_find_None in Hfind. rewrite Forall_forall in Hfind.
    exfalso. apply (Hfind link Hin). apply is_favicon_rel_spec. eauto.
Qed.

(** C6. [hasFavicon] answers [true] exactly when some [link] element has a
    [rel] attribute equal, character for character, to ["icon"],
    ["shortcut icon"] or ["apple-touch-icon"]; and its loop is left at the
    first such element: the index reached is that of the first match, no
    later element being looked at, and the number of [link] elements when
    there is none. *)
Theorem hasFavicon_first_match (doc : document) :
  (hasFavicon doc = true <->
   exists link s, link ∈ select "link" doc /\ attr "rel" link = Js.Str s /\
     (s = "icon" \/ s = "shortcut icon" \/ s = "apple-touch-icon"))
  /\ hasFavicon_loop (select "link" doc) 0 =
     match list_find (fun link => is_favicon_rel (attr "rel" link) = true)
                     (select "link" doc) with
     | Some (k, _) => (true, k)
     | None => (false, length (select "link" doc))
     end.
Proof.
  split; [apply hasFavicon_exists|apply hasFavicon_loop_find].
Qed.

Example rel_is_case_sensitive :
  hasFavicon [Element "link" [("rel", "Icon"); ("href", "/f.ico")] []] = false
  /\ hasFavicon [Element "link" [("rel", "icon shortcut")] []] = false
  /\ hasFavicon [Element "link" [("href", "/f.ico")] []] = false
  /\ hasFavicon [Element "head" []
       [Element "link" [("rel", "stylesheet")] [];
        Element "link" [("rel", "apple-touch-icon")] []]] = true.
Proof. repeat split; reflexivity. Qed.

(** ** The link tag *)

Lemma append_assoc (a b c : string) : (a +:+ b) +:+ c = a +:+ (b +:+ c).
Proof. induction a as [|x a IH]; simpl; [reflexivity|]. by rewrite IH. Qed.

Lemma append_empty_r (a : string) : a +:+ EmptyString = a.
Proof. induction a as [|x a IH]; simpl; [reflexivity|]. by rewrite IH. Qed.

Lemma link_tag_shape (fo : FaviconOptions) :
  link_tag fo =
  "<link rel=" +:+ dquote +:+ Js.to_string (rel fo) +:+ dquote +:+
  " href=" +:+ dquote +:+ Js.to_string (path fo) +:+ dquote +:+
  attribute_text "type" (attribute_value (type fo)) +:+
  attribute_text "sizes" (attribute_value (sizes fo)) +:+ ">".
Proof.
  unfold link_tag, attribute_value, attribute_text.
  destruct (Js.truthy (type fo)), (Js.truthy (sizes fo));
    rewrite ?append_assoc; simpl; rewrite ?append_assoc; simpl;
    repeat (f_equal; rewrite ?append_assoc; simpl); rewrite ?append_empty_r; reflexivity.
Qed.

(** C7. With no [type] given, the detection succeeds and the [type]
    attribute of the tag is a function of the lower-cased extension of
    [path] alone: the five extensions of the table give their MIME type,
    any other extension (the empty one too) gives no attribute at all, and
    the tag carries the attribute accordingly between [href] and [sizes]. *)
Theorem type_detected_from_extension (fo : FaviconOptions) (p : string) (w : world) :
  Js.truthy (type fo) = false ->
  path fo = Js.Str p ->
  let ext := Js.toLowerCase (Path.extname p) in
  exists fo',
    detect_type fo w = (Ok fo', w)
    /\ path fo' = path fo /\ rel fo' = rel fo /\ sizes fo' = sizes fo
    /\ attribute_value (type fo') = mime_of_ext ext
    /\ (ext = ".ico" -> attribute_value (type fo') = Some "image/x-icon")
    /\ (ext = ".png" -> attribute_value (type fo') = Some "image/png")
    /\ (ext = ".svg" -> attribute_value (type fo') = Some "image/svg+xml")
    /\ (ext = ".jpg" \/ ext = ".jpeg" -> attribute_value (type fo') = Some "image/jpeg")
    /\ (ext ∉ [".ico"; ".png"; ".svg"; ".jpg"; ".jpeg"] -> attribute_value (type fo') = None)
    /\ link_tag fo' =
       "<link rel=" +:+ dquote +:+ Js.to_string (rel fo) +:+ dquote +:+
       " href=" +:+ dquote +:+ p +:+ dquote +:+
       attribute_text "type" (mime_of_ext ext) +:+
       attribute_text "sizes" (attribute_value (sizes fo)) +:+ ">".
Proof.
  intros Htype Hpath ext.
  assert (Hdetect : exists fo', detect_type fo w = (Ok fo', w)
            /\ path fo' = path fo /\ rel fo' = rel fo /\ sizes fo' = sizes fo
            /\ attribute_value (type fo') = mime_of_ext ext).
  { unfold detect_type. rewrite Htype, Hpath. simpl. fold ext.
    destruct (mime_of_ext ext) as [mime|] eqn:Hmime.
    - eexists. split; [reflexivity|]. simpl.
      split; [done|]. split; [done|]. split; [done|].
      unfold mime_of_ext in Hmime.
      repeat case_decide; inversion Hmime; reflexivity.
    - exists fo. split; [reflexivity|].
      split; [done|]. split; [done|]. split; [done|].
      unfold attribute_value. by rewrite Htype. }
  destruct Hdetect as (fo' & Hrun & Hp & Hr & Hs & Hattr).
  exists fo'. rewrite Hattr.
  split; [done|]. split; [done|]. split; [done|]. split; [done|]. split; [done|].
  split; [by intros ->|]. split; [by intros ->|]. split; [by intros ->|].
  split; [by intros [-> | ->]|].
  split.
  - intros Hnot. unfold mime_of_ext.
    repeat case_decide; try reflexivity; exfalso; apply Hnot; subst ext;
      match goal with H : _ = _ |- _ => rewrite H end; set_solver.
  - rewrite link_tag_shape, Hattr, Hr, Hs, Hp, Hpath. reflexivity.
Qed.

Lemma type_detected_from_extension_witness :
  exists fo',
    detect_type
      {| path := Js.Str "/img/Icon.PNG"; rel := Js.Str "icon"; type := Js.Null;
         sizes := Js.Null |} {| fs := ∅; log := [] |} = (Ok fo', {| fs := ∅; log := [] |})
    /\ attribute_value (type fo') = Some "image/png".
Proof.
  destruct (type_detected_from_extension
              {| path := Js.Str "/img/Icon.PNG"; rel := Js.Str "icon"; type := Js.Null;
                 sizes := Js.Null |} "/img/Icon.PNG" {| fs := ∅; log := [] |}
              eq_refl eq_refl) as (fo' & Hrun & _ & _ & _ & _ & _ & Hpng & _).
  exists fo'. split; [exact Hrun|]. apply Hpng. reflexivity.
Defined.

(** ** Options *)

(** C8, as stated, fails: the defaults replace absent fields only.  An
    empty bare string is kept as the [path], and an empty [rel] given in an
    object is kept as the [rel]; the tag then reads [<link rel="icon"
    href="">]. *)
Lemma empty_option_fields_are_kept :
  ~ (forall (opts : options) (w : world) (fo : FaviconOptions),
       accepted opts ->
       detect_type (with_defaults (options_as_object opts)) w = (Ok fo, w) ->
       nonempty_string (path fo) /\ nonempty_string (rel fo))
  /\ detect_type (with_defaults (options_as_object (Bare EmptyString)))
       {| fs := ∅; log := [] |}
     = (Ok {| path := Js.Str EmptyString; rel := Js.Str "icon"; type := Js.Null;
              sizes := Js.Null |}, {| fs := ∅; log := [] |})
  /\ link_tag {| path := Js.Str EmptyString; rel := Js.Str "icon"; type := Js.Null;
                 sizes := Js.Null |}
     = "<link rel=" +:+ dquote +:+ "icon" +:+ dquote +:+ " href=" +:+ dquote +:+ dquote +:+ ">"
  /\ rel (with_defaults (options_as_object
            (Object {| opt_path := None; opt_rel := Some (Js.Str EmptyString);
                       opt_type := None; opt_sizes := None |}))) = Js.Str EmptyString.
Proof.
  split; [|repeat split; reflexivity].
  intros Hclaim.
  destruct (Hclaim (Bare EmptyString) {| fs := ∅; log := [] |}
              {| path := Js.Str EmptyString; rel := Js.Str "icon"; type := Js.Null;
                 sizes := Js.Null |} I eq_refl) as [(s & Hs & Hne) _].
  simpl in Hs. inversion Hs. congruence.
Qed.

(** C8, amended.  For every accepted options value in which the [path] and
    the [rel] that are given are not empty, the options used for the tag
    have a [path] and a [rel] that are not empty; an absent [path] is
    ["/favicon.ico"] and an absent [rel] is ["icon"]. *)
Theorem given_or_default_path_and_rel (opts : options) (w : world) :
  accepted opts ->
  nonempty_if_given (opt_path (options_as_object opts)) ->
  nonempty_if_given (opt_rel (options_as_object opts)) ->
  exists fo,
    detect_type (with_defaults (options_as_object opts)) w = (Ok fo, w)
    /\ nonempty_string (path fo) /\ nonempty_string (rel fo)
    /\ (opts = Omitted \/ opt_path (options_as_object opts) = None ->
        path fo = Js.Str "/favicon.ico")
    /\ (opt_rel (options_as_object opts) = None -> rel fo = Js.Str "icon")
    /\ (forall v, opt_path (options_as_object opts) = Some v -> path fo = v)
    /\ (forall v, opt_rel (options_as_object opts) = Some v -> rel fo = v).
Proof.
  intros Hacc Hpath Hrel.
  set (fo0 := with_defaults (options_as_object opts)).
  assert (Hp0 : nonempty_string (path fo0)).
  { unfold fo0, with_defaults. simpl.
    destruct (opt_path (options_as_object opts)) as [v|]; simpl; [exact Hpath|].
    eexists. split; [reflexivity|discriminate]. }
  assert (Hr0 : nonempty_string (rel fo0)).
  { unfold fo0, with_defaults. simpl.
    destruct (opt_rel (options_as_object opts)) as [v|]; simpl; [exact Hrel|].
    eexists. split; [reflexivity|discriminate]. }
  assert (Hrun : exists fo, detect_type fo0 w = (Ok fo, w)
                   /\ path fo = path fo0 /\ rel fo = rel fo0).
  { unfold detect_type. destruct Hp0 as (p & Hp & _). rewrite Hp.
    destruct (negb (Js.truthy (type fo0))); [|by exists fo0].
    destruct (mime_of_ext _); eexists; (split; [reflexivity|]); simpl; by rewrite ?Hp. }
  destruct Hrun as (fo & Hrun & Hp & Hr).
  exists fo. rewrite Hp, Hr. split; [exact Hrun|]. split; [exact Hp0|]. split; [exact Hr0|].
  unfold fo0, with_defaults; simpl.
  split; [|split; [|split]].
  - intros [-> | ->]; reflexivity.
  - intros ->. reflexivity.
  - intros v ->. reflexivity.
  - intros v ->. reflexivity.
Qed.

Lemma given_or_default_path_and_rel_witness :
  exists fo,
    detect_type
      (with_defaults (options_as_object
         (Object {| opt_path := Some (Js.Str "/t.png"); opt_rel := None;
                    opt_type := None; opt_sizes := Some (Js.Str "180x180") |})))
      {| fs := ∅; log := [] |} = (Ok fo, {| fs := ∅; log := [] |})
    /\ nonempty_string (path fo) /\ rel fo = Js.Str "icon".
Proof.
  destruct (given_or_default_path_and_rel
              (Object {| opt_path := Some (Js.Str "/t.png"); opt_rel := None;
                         opt_type := None; opt_sizes := Some (Js.Str "180x180") |})
              {| fs := ∅; log := [] |})
    as (fo & Hrun & Hp & _ & _ & Hr & _).
  - simpl. done.
  - simpl. eexists. split; [reflexivity|discriminate].
  - simpl. done.
  - exists fo. split; [exact Hrun|]. split; [exact Hp|]. apply Hr. reflexivity.
Defined.

(** ** [injectFavicon] *)

Ltac run_monad :=
  unfold bind, ret, throw, emit, lookup_node, console_warn, console_error in *;
  simpl in *.

Lemma detect_type_world (fo : FaviconOptions) (w w' : world) (r : result FaviconOptions) :
  detect_type fo w = (r, w') -> w' = w.
Proof.
  unfold detect_type. repeat case_match; unfold ret, throw; congruence.
Qed.

Ltac detect_world :=
  repeat match goal with
    | H : detect_type _ _ = (_, ?w1) |- _ => apply detect_type_world in H; subst w1
    end.

Lemma injectFavicon_try_fs `{Cheerio} (filePath : string) (opts : options)
    (w w' : world) (r : result bool) :
  injectFavicon_try filePath opts w = (r, w') ->
  r = Ok true \/ fs w' = fs w.
Proof.
  unfold injectFavicon_try, stat, readFile, load, writeFile. run_monad.
  intros Hrun.
  repeat (case_match; simpl in *; simplify_eq; auto); detect_world; auto.
Qed.

(** What one call of [injectFavicon] does to the world. *)

Ltac log_added :=
  lazymatch goal with
  | |- ?l = ?added ++ ?old =>
      let rec strip l :=
        lazymatch l with
        | @cons _ ?x ?l' => let r := strip l' in constr:(@cons event x r)
        | _ => constr:(@nil event)
        end in
      let a := strip l in unify added a; reflexivity
  end.

Ltac not_interrupted :=
  repeat first [apply Forall_nil_2 | apply Forall_cons_2];
  try reflexivity;
  try match goal with
    | |- interrupted (ConsoleError _ ?e) = false => destruct e as [[]| | |]; reflexivity
    end.

Lemma injectFavicon_effect `{Cheerio} (filePath : string) (opts : options) (w : world) :
  exists (b : bool) (w' : world) (added : list event),
    injectFavicon filePath opts w = (Ok b, w')
    /\ log w' = added ++ log w
    /\ Forall (fun e => interrupted e = false) added
    /\ (fs w' = fs w \/
        (b = true /\ exists content readable data,
           fs w !! filePath = Some (File content readable true)
           /\ fs w' = <[filePath := File data readable true]> (fs w))).
Proof.
  unfold injectFavicon, try_catch, injectFavicon_try, stat, readFile, load, writeFile.
  run_monad.
  repeat (case_match; simpl in *; simplify_eq); detect_world; simpl in *;
    repeat match goal with
      | H1 : ?x = Some _, H2 : ?x = Some _ |- _ => rewrite H1 in H2; simplify_eq
      end.
  all: (do 3 eexists; split; [reflexivity|]; simpl; split; [log_added|];
     split; [not_interrupted|]);
    first [ left; reflexivity
          | right; split; [reflexivity|]; do 3 eexists;
            split; [first [eassumption|reflexivity|congruence]|reflexivity] ].
Qed.

(** ** What a scan changes *)

Lemma below_join (d item : string) : below d (Path.join d item).
Proof. by exists item. Qed.

Lemma below_trans (d item q : string) : below (Path.join d item) q -> below d q.
Proof.
  intros [r ->]. exists (item +:+ "/" +:+ r).
  unfold Path.join. by rewrite !append_assoc.
Qed.

Lemma rewritten_refl (d : string) (m : gmap string fs_node) : rewritten d m m.
Proof. intros q. by left. Qed.

Lemma rewritten_trans (d : string) (m1 m2 m3 : gmap string fs_node) :
  rewritten d m1 m2 -> rewritten d m2 m3 -> rewritten d m1 m3.
Proof.
  intros H12 H23 q.
  destruct (H12 q) as [E12|(Hb & c & c' & r & Hq1 & Hq2)],
           (H23 q) as [E23|(Hb' & c2 & c2' & r2 & Hq2' & Hq3)].
  - left. congruence.
  - right. split; [done|]. exists c2, c2', r2. split; congruence.
  - right. split; [done|]. exists c, c', r. split; congruence.
  - right. split; [done|]. rewrite Hq2 in Hq2'. simplify_eq.
    exists c, c2', r2. done.
Qed.

Lemma rewritten_below (d item : string) (m m' : gmap string fs_node) :
  rewritten (Path.join d item) m m' -> rewritten d m m'.
Proof.
  intros Hr q. destruct (Hr q) as [E|(Hb & Hq)]; [by left|right].
  split; [by eapply below_trans|done].
Qed.

Lemma rewritten_insert (d item : string) (m : gmap string fs_node)
    (content data : string) (readable : bool) :
  m !! Path.join d item = Some (File content readable true) ->
  rewritten d m (<[Path.join d item := File data readable true]> m).
Proof.
  intros Hp q. destruct (decide (q = Path.join d item)) as [->|Hne].
  - right. split; [apply below_join|]. exists content, data, readable.
    by rewrite lookup_insert_eq.
  - left. by rewrite lookup_insert_ne.
Qed.

Lemma scan_inv_refl (d : string) (st : InjectionStats) (w : world) :
  scan_inv d st w st None w.
Proof.
  split; [apply rewritten_refl|]. split; [done|]. split; [lia|].
  exists []. done.
Qed.

Lemma scan_inv_trans (d : string) (st1 st2 st3 : InjectionStats) (w1 w2 w3 : world)
    (err : option error) :
  scan_inv d st1 w1 st2 None w2 -> scan_inv d st2 w2 st3 err w3 ->
  scan_inv d st1 w1 st3 err w3.
Proof.
  intros (Hr1 & Hn1 & Hb1 & a1 & Hl1 & He1) (Hr2 & Hn2 & Hb2 & a2 & Hl2 & He2).
  split; [by eapply rewritten_trans|]. split; [auto|]. split; [lia|].
  exists (a2 ++ a1). split; [by rewrite Hl2, Hl1, app_assoc|].
  intros Hall Herr. apply Forall_app in Hall as [Ha2 Ha1].
  rewrite He2, He1; auto.
Qed.

(** A step that leaves the files as they are, or rewrites one below [d],
    logs nothing that counts as an interruption and moves the counters by
    [f]. *)
Lemma scan_inv_step (d : string) (st st' : InjectionStats) (w w' : world)
    (err : option error) (added : list event) :
  rewritten d (fs w) (fs w') ->
  log w' = added ++ log w ->
  (nonneg st -> nonneg st') ->
  balance st <= balance st' ->
  (interrupting err = false -> balance st' = balance st) ->
  scan_inv d st w st' err w'.
Proof.
  intros Hr Hl Hn Hb He. split; [done|]. split; [done|]. split; [done|].
  exists added. split; [done|]. auto.
Qed.

Lemma scan_item_inv `{Cheerio}
    (recurse : string -> world -> option (InjectionStats * world))
    (d : string) (opts : options) (item : string)
    (st st' : InjectionStats) (w w' : world) (err : option error) :
  (forall p w0 sub w1, recurse p w0 = Some (sub, w1) -> dir_inv p w0 sub w1) ->
  scan_item recurse d opts item st w = Some (st', err, w') ->
  scan_inv d st w st' err w'.
Proof.
  intros Hrec. unfold scan_item.
  destruct (Js.startsWith item "._"); [intros; simplify_eq; apply scan_inv_refl|].
  unfold stat. run_monad.
  destruct (fs w !! Path.join d item) as [node|] eqn:Hnode; simpl.
  2:{ intros; simplify_eq.
      eapply (scan_inv_step _ _ _ _ _ _ [_]); simpl; eauto using rewritten_refl; lia. }
  destruct (isDirectory node) eqn:Hdir.
  { destruct (recurse _ _) as [[sub w1]|] eqn:Hsub; [|discriminate].
    intros; simplify_eq. apply Hrec in Hsub as (Hr & Hn & Hb & a & Hl & He).
    simpl in *.
    split; [by apply rewritten_below in Hr|].
    split. { unfold nonneg in *. simpl. lia. }
    split. { unfold balance in *. simpl. lia. }
    exists (a ++ [FsCall Stat (Path.join d item)]).
    split; [by rewrite Hl, <- app_assoc|].
    intros Hall _. apply Forall_app in Hall as [Ha _].
    specialize (He Ha). unfold balance in *. simpl. lia. }
  destruct (isFile node && _) eqn:Hhtml.
  2:{ intros; simplify_eq.
      eapply (scan_inv_step _ _ _ _ _ _ [_]); simpl; eauto using rewritten_refl; lia. }
  set (w0 := {| fs := fs w; log := FsCall Stat (Path.join d item) :: log w |}).
  destruct (injectFavicon_effect (Path.join d item) opts w0)
    as (b & w1 & added & Hrun & Hlog & Hadded & Hfs).
  rewrite Hrun.
  assert (Hrw : rewritten d (fs w) (fs w1)).
  { destruct Hfs as [->|(_ & c & r & data & Hc & ->)]; [apply rewritten_refl|].
    by eapply rewritten_insert. }
  destruct b.
  { intros; simplify_eq.
    split; [done|].
    split. { unfold nonneg. simpl. lia. }
    split. { unfold balance. simpl. lia. }
    exists (added ++ [FsCall Stat (Path.join d item)]).
    split; [by rewrite Hlog, <- app_assoc|].
    intros _ _. unfold balance. simpl. lia. }
  unfold readFile, load. run_monad.
  intros Hres.
  assert (Hcases :
    exists st2 w2 added2, (st', err, w') = (st2, err, w2) /\ fs w2 = fs w1
      /\ log w2 = added2 ++ log w1
      /\ (st2 = incr_total st /\ interrupting err = true
          \/ err = None /\ (st2 = incr_skipped (incr_total st)
                           \/ st2 = incr_failed (incr_total st)))).
  { repeat (case_match; simpl in *; simplify_eq);
      (do 3 eexists; split; [reflexivity|]; simpl; split; [reflexivity|];
       split; [log_added|]); auto. }
  destruct Hcases as (st2 & w2 & added2 & ? & Hfs2 & Hlog2 & Hst); simplify_eq.
  split; [by rewrite Hfs2|].
  split. { unfold nonneg. destruct Hst as [[-> _]|[_ [-> | ->]]]; simpl; lia. }
  split. { unfold balance. destruct Hst as [[-> _]|[_ [-> | ->]]]; simpl; lia. }
  exists (added2 ++ added ++ [FsCall Stat (Path.join d item)]).
  split; [by rewrite Hlog2, Hlog, <- !app_assoc|].
  intros _ Herr.
  unfold balance. destruct Hst as [[-> ?]|[_ [-> | ->]]]; simpl; [congruence|lia|lia].
Qed.

Lemma scan_items_inv `{Cheerio}
    (recurse : string -> world -> option (InjectionStats * world))
    (d : string) (opts : options) (items : list string)
    (st st' : InjectionStats) (w w' : world) (err : option error) :
  (forall p w0 sub w1, recurse p w0 = Some (sub, w1) -> dir_inv p w0 sub w1) ->
  scan_items recurse d opts items st w = Some (st', err, w') ->
  scan_inv d st w st' err w'.
Proof.
  intros Hrec. revert st w.
  induction items as [|item rest IH]; intros st w; simpl.
  - intros; simplify_eq. apply scan_inv_refl.
  - destruct (scan_item recurse d opts item st w) as [[[st1 [e|]] w1]|] eqn:Hitem;
      [| |discriminate].
    + intros; simplify_eq. by eapply scan_item_inv.
    + intros Hrest. eapply scan_inv_trans; [by eapply scan_item_inv|by apply IH].
Qed.

Lemma injectDir_inv `{Cheerio} (fuel : nat) (d : string) (opts : options)
    (w w' : world) (st : InjectionStats) :
  injectDir fuel d opts w = Some (st, w') -> dir_inv d w st w'.
Proof.
  revert d w w' st. induction fuel as [|fuel IH]; intros d w w' st; [discriminate|].
  simpl. unfold pathExists, readdir, injectDir_catch. run_monad.
  destruct (bool_decide (is_Some (fs w !! d))).
  2:{ intros; simplify_eq. simpl.
      split; [apply rewritten_refl|]. split; [unfold nonneg; simpl; lia|].
      split; [unfold balance; simpl; lia|]. eexists [_; _]. split; [reflexivity|].
      intros _. reflexivity. }
  assert (Hzero : forall w1 e added, fs w1 = fs w -> log w1 = added ++ log w ->
            dir_inv d w zero_stats
              {| fs := fs w1;
                 log := ConsoleError ("Error scanning directory " +:+ d +:+ ":") e
                        :: log w1 |}).
  { intros w1 e added Hfs Hlog. split; [simpl; rewrite Hfs; apply rewritten_refl|].
    split; [unfold nonneg; simpl; lia|]. split; [unfold balance; simpl; lia|].
    exists (ConsoleError ("Error scanning directory " +:+ d +:+ ":") e :: added).
    simpl. split; [by rewrite Hlog|]. intros _. reflexivity. }
  destruct (fs w !! d) as [[| [items|] |]|] eqn:Hd; simpl;
    try (intros; simplify_eq; by eapply (Hzero {| fs := fs w; log := _ |} _ [_; _])).
  destruct (scan_items _ d opts items zero_stats _) as [[[st1 [e|]] w1]|] eqn:Hscan;
    [| |discriminate]; intros; simplify_eq;
    (apply scan_items_inv in Hscan as (Hr & Hn & Hb & added & Hlog & He);
     [|intros; by eapply IH]);
    simpl in *.
  - split; [done|]. split; [apply Hn; unfold nonneg; simpl; lia|].
    split; [unfold balance in *; simpl in *; lia|].
    exists (ConsoleError ("Error scanning directory " +:+ d +:+ ":") e :: added ++ 
            [FsCall Scandir d; FsCall Access d]).
    split; [rewrite Hlog; simpl; by rewrite <- app_assoc|].
    intros Hall. apply Forall_cons in Hall as [He1 Hall].
    apply Forall_app in Hall as [Hall _].
    rewrite He; [reflexivity|done|].
    destruct e as [[]| | |]; simpl in *; try reflexivity; try discriminate;
      destruct (d +:+ ":"); discriminate.
  - split; [done|]. split; [apply Hn; unfold nonneg; simpl; lia|].
    split; [unfold balance in *; simpl in *; lia|].
    exists (added ++ [FsCall Scandir d; FsCall Access d]).
    split; [by rewrite Hlog, <- app_assoc|].
    intros Hall. apply Forall_app in Hall as [Hall _].
    rewrite He; [reflexivity|done|done].
Qed.

(** ** [injectDir] returns *)

Lemma length_append (a b : string) :
  Js.length (a +:+ b) = (Js.length a + Js.length b)%nat.
Proof. induction a as [|x a IH]; simpl; [reflexivity|]. by rewrite IH. Qed.

Lemma length_join (d item : string) :
  (Js.length d < Js.length (Path.join d item))%nat.
Proof. unfold Path.join. rewrite !length_append. simpl. lia. Qed.

Lemma depth_bound_spec (m : gmap string fs_node) : bounded (depth_bound m) m.
Proof.
  intros q [n Hq]. unfold depth_bound.
  apply elem_of_map_to_list in Hq.
  induction (map_to_list m) as [|[k v] l IH]; [by apply elem_of_nil in Hq|].
  apply elem_of_cons in Hq as [Hq|Hq]; simpl in *.
  - inversion Hq; subst. lia.
  - specialize (IH Hq). lia.
Qed.

Lemma bounded_rewritten (B : nat) (d : string) (m m' : gmap string fs_node) :
  rewritten d m m' -> bounded B m -> bounded B m'.
Proof.
  intros Hr Hb q Hq. apply Hb.
  destruct (Hr q) as [E|(_ & c & c' & r & E & _)]; rewrite E in *; eauto.
Qed.

Lemma scan_item_total `{Cheerio}
    (recurse : string -> world -> option (InjectionStats * world))
    (d : string) (opts : options) (item : string) (st : InjectionStats) (w : world) :
  (is_Some (fs w !! Path.join d item) ->
   forall w0, fs w0 = fs w -> is_Some (recurse (Path.join d item) w0)) ->
  is_Some (scan_item recurse d opts item st w).
Proof.
  intros Hrec. unfold scan_item, stat, readFile, load. run_monad.
  destruct (Js.startsWith item "._"); [eauto|].
  destruct (fs w !! Path.join d item) as [node|] eqn:Hnode; simpl; [|eauto].
  destruct (isDirectory node).
  { destruct (Hrec (ltac:(eauto)) {| fs := fs w; log := FsCall Stat (Path.join d item) :: log w |}
                eq_refl) as [[sub w1] ->]. eauto. }
  destruct (isFile node && _); [|eauto].
  destruct (injectFavicon _ _ _) as [[[]|e] w1]; eauto.
  repeat (case_match; simpl in *; simplify_eq); eauto.
Qed.

Lemma scan_items_total `{Cheerio}
    (recurse : string -> world -> option (InjectionStats * world))
    (B : nat) (d : string) (opts : options) (items : list string)
    (st : InjectionStats) (w : world) :
  (forall p w0 sub w1, recurse p w0 = Some (sub, w1) -> dir_inv p w0 sub w1) ->
  (forall p w0, bounded B (fs w0) -> is_Some (fs w0 !! p) ->
     (Js.length d < Js.length p)%nat -> is_Some (recurse p w0)) ->
  bounded B (fs w) ->
  is_Some (scan_items recurse d opts items st w).
Proof.
  intros Hinv Hrec. revert st w.
  induction items as [|item rest IH]; intros st w Hb; simpl; [eauto|].
  destruct (scan_item_total recurse d opts item st w) as [[[st1 e] w1] Hitem].
  { intros Hsome w0 Hfs. apply Hrec; [by rewrite Hfs|by rewrite Hfs|apply length_join]. }
  rewrite Hitem. destruct e as [e|]; [eauto|].
  apply IH. apply scan_item_inv in Hitem as (Hr & _); [|done].
  by eapply bounded_rewritten.
Qed.

Lemma injectDir_total `{Cheerio} (fuel : nat) (B : nat) (d : string) (opts : options)
    (w : world) :
  bounded B (fs w) -> (B - Js.length d < fuel)%nat ->
  is_Some (injectDir fuel d opts w).
Proof.
  revert d w. induction fuel as [|fuel IH]; intros d w Hb Hfuel; [lia|].
  simpl. unfold pathExists, readdir, injectDir_catch. run_monad.
  destruct (bool_decide (is_Some (fs w !! d))); [|eauto].
  destruct (fs w !! d) as [[| [items|] |]|] eqn:Hd; simpl; eauto.
  destruct (scan_items_total (fun p => injectDir fuel p opts) B d opts items zero_stats
              {| fs := fs w; log := FsCall Scandir d :: FsCall Access d :: log w |})
    as [[[st1 e] w1] Hscan].
  - intros p w0 sub w1. apply injectDir_inv.
  - intros p w0 Hb0 Hp Hlen. apply IH; [done|]. specialize (Hb0 p Hp). lia.
  - done.
  - rewrite Hscan. destruct e; eauto.
Qed.

Lemma injectDir_returns `{Cheerio} (fuel : nat) (d : string) (opts : options) (w : world) :
  (depth_bound (fs w) < fuel)%nat ->
  exists st w', injectDir fuel d opts w = Some (st, w').
Proof.
  intros Hfuel.
  destruct (injectDir_total fuel (depth_bound (fs w)) d opts w) as [[st w'] Hrun];
    [apply depth_bound_spec|lia|eauto].
Qed.

(** More fuel does not change what a call returns. *)
Lemma scan_item_mono `{Cheerio}
    (rec1 rec2 : string -> world -> option (InjectionStats * world))
    (d : string) (opts : options) (item : string) (st : InjectionStats) (w : world)
    (t : turn) :
  (forall p w0 r, rec1 p w0 = Some r -> rec2 p w0 = Some r) ->
  scan_item rec1 d opts item st w = Some t ->
  scan_item rec2 d opts item st w = Some t.
Proof.
  intros Hmono. unfold scan_item.
  destruct (Js.startsWith item "._"); [done|].
  destruct (stat (Path.join d item) w) as [[node|e] w0]; [|done].
  destruct (isDirectory node); [|done].
  destruct (rec1 (Path.join d item) w0) as [[sub w1]|] eqn:Hrec; [|discriminate].
  by rewrite (Hmono _ _ _ Hrec).
Qed.

Lemma scan_items_mono `{Cheerio}
    (rec1 rec2 : string -> world -> option (InjectionStats * world))
    (d : string) (opts : options) (items : list string) (st : InjectionStats) (w : world)
    (t : turn) :
  (forall p w0 r, rec1 p w0 = Some r -> rec2 p w0 = Some r) ->
  scan_items rec1 d opts items st w = Some t ->
  scan_items rec2 d opts items st w = Some t.
Proof.
  intros Hmono. revert st w. induction items as [|item rest IH]; intros st w; simpl; [done|].
  destruct (scan_item rec1 d opts item st w) as [[[st1 e] w1]|] eqn:Hitem; [|discriminate].
  rewrite (scan_item_mono rec1 rec2 _ _ _ _ _ _ Hmono Hitem).
  destruct e; [done|apply IH].
Qed.

Lemma injectDir_unfold `{Cheerio} (fuel : nat) (d : string) (opts : options) (w : world) :
  injectDir (S fuel) d opts w =
  match pathExists d w with
  | (Throw e, w) => Some (injectDir_catch d zero_stats e w)
  | (Ok false, w) =>
      Some (injectDir_catch d zero_stats
              (JsError ("Directory " +:+ d +:+ " does not exist")) w)
  | (Ok true, w) =>
      match readdir d w with
      | (Throw e, w) => Some (injectDir_catch d zero_stats e w)
      | (Ok items, w) =>
          match scan_items (fun p => injectDir fuel p opts) d opts items zero_stats w with
          | None => None
          | Some (stats, None, w) => Some (stats, w)
          | Some (stats, Some e, w) => Some (injectDir_catch d stats e w)
          end
      end
  end.
Proof. reflexivity. Qed.

Lemma injectDir_more_fuel `{Cheerio} (fuel : nat) (d : string) (opts : options) (w : world)
    (r : InjectionStats * world) :
  injectDir fuel d opts w = Some r -> injectDir (S fuel) d opts w = Some r.
Proof.
  revert d w r. induction fuel as [|fuel IH]; intros d w r; [discriminate|].
  rewrite !injectDir_unfold.
  destruct (pathExists d w) as [[[]|e] w0]; try done.
  destruct (readdir d w0) as [[items|e] w1]; try done.
  destruct (scan_items (fun p => injectDir fuel p opts) d opts items zero_stats w1)
    as [t|] eqn:Hscan; [|discriminate].
  by rewrite (scan_items_mono _ (fun p => injectDir (S fuel) p opts) _ _ _ _ _ _
                (fun p w0 r => IH p w0 r) Hscan).
Qed.

Lemma injectDir_fuel_le `{Cheerio} (n m : nat) (d : string) (opts : options) (w : world)
    (r : InjectionStats * world) :
  (n <= m)%nat -> injectDir n d opts w = Some r -> injectDir m d opts w = Some r.
Proof.
  induction 1 as [|m Hle IH]; [done|]. intros Hrun. by apply injectDir_more_fuel, IH.
Qed.

(** C10. Once it has fuel beyond the depth of the tree, [injectDir]
    returns counters that are not negative and in which the injected, the
    skipped and the failed files together do not exceed the total, on the
    error path as on the normal one; and they add up to the total whenever
    the console shows no scanning error raised by the re-read or the
    re-parse of a counted file. *)
Theorem counters_add_up `{Cheerio} (fuel : nat) (d : string) (opts : options) (w : world) :
  (depth_bound (fs w) < fuel)%nat ->
  exists st w' added,
    injectDir fuel d opts w = Some (st, w')
    /\ log w' = added ++ log w
    /\ 0 <= total st /\ 0 <= injected st /\ 0 <= skipped st /\ 0 <= failed st
    /\ injected st + skipped st + failed st <= total st
    /\ (Forall (fun e => interrupted e = false) added ->
        injected st + skipped st + failed st = total st).
Proof.
  intros Hfuel. destruct (injectDir_returns fuel d opts w Hfuel) as (st & w' & Hrun).
  pose proof (injectDir_inv _ _ _ _ _ _ Hrun) as (_ & Hn & Hb & added & Hlog & He).
  exists st, w', added. unfold nonneg, balance in *.
  repeat (split; [first [done|lia]|]). intros Hall. specialize (He Hall). lia.
Qed.

(** ** The loop of [injectDir] *)




(** C9. An entry whose name begins with [._] takes a turn of the loop that
    changes nothing: not the counters, and not the world, whose log would
    show a [stat] or any call of a recursive scan.  The loop, and so
    [injectDir], gives what it gives on the listing without those
    entries, whatever they name. *)
Theorem metadata_entries_are_skipped `{Cheerio}
    (recurse : string -> world -> option (InjectionStats * world))
    (fuel : nat) (d : string) (opts : options) (items : list string)
    (st : InjectionStats) (w : world) :
  (forall item, Js.startsWith item "._" = true ->
     scan_item recurse d opts item st w = Some (st, None, w))
  /\ scan_items recurse d opts items st w
     = scan_items recurse d opts (filter (fun item => Js.startsWith item "._" = false) items)
         st w
  /\ (fs w !! d = Some (Dir (Some items)) ->
      injectDir (S fuel) d opts w =
      match scan_items (fun p => injectDir fuel p opts) d opts
              (filter (fun item => Js.startsWith item "._" = false) items)
              zero_stats (after_listing d w) with
      | None => None
      | Some (st', None, w') => Some (st', w')
      | Some (st', Some e, w') => Some (injectDir_catch d st' e w')
      end).
Proof.
  assert (Hturn : forall rec item st0 w0, Js.startsWith item "._" = true ->
            scan_item rec d opts item st0 w0 = Some (st0, None, w0)).
  { intros rec item st0 w0 Hmeta. unfold scan_item. by rewrite Hmeta. }
  assert (Hloop : forall rec st0 w0,
            scan_items rec d opts items st0 w0
            = scan_items rec d opts
                (filter (fun item => Js.startsWith item "._" = false) items) st0 w0).
  { intros rec. induction items as [|item rest IH]; intros st0 w0; [reflexivity|].
    rewrite filter_cons. destruct (Js.startsWith item "._") eqn:Hmeta.
    - rewrite decide_False by discriminate. simpl. rewrite Hturn by done. apply IH.
    - rewrite decide_True by done. simpl.
      destruct (scan_item rec d opts item st0 w0) as [[[st1 [e|]] w1]|]; auto. }
  split; [auto|]. split; [auto|].
  intros Hd. simpl. unfold pathExists, readdir. run_monad. rewrite Hd.
  rewrite bool_decide_eq_true_2 by eauto. simpl.
  rewrite Hloop. reflexivity.
Qed.

Lemma counters_add_up_witness :
  exists st w' added,
    @injectDir Sample.parser 20 "/site" Omitted Sample.broken_site_world = Some (st, w')
    /\ log w' = added ++ log Sample.broken_site_world
    /\ 0 <= total st /\ 0 <= injected st /\ 0 <= skipped st /\ 0 <= failed st
    /\ injected st + skipped st + failed st <= total st
    /\ (Forall (fun e => interrupted e = false) added ->
        injected st + skipped st + failed st = total st).
Proof.
  apply (@counters_add_up Sample.parser 20 "/site" Omitted Sample.broken_site_world).
  vm_compute. lia.
Defined.


Example scan_stops_at_unreadable_page :
  fst <$> @injectDir Sample.parser 20 "/site" Omitted Sample.broken_site_world
  = Some {| total := 1; injected := 0; skipped := 0; failed := 0 |}.
Proof. vm_compute. reflexivity. Qed.

Example scan_of_site :
  fst <$> @injectDir Sample.parser 20 "/site" Omitted Sample.site_world
  = Some {| total := 3; injected := 2; skipped := 1; failed := 0 |}.
Proof. vm_compute. reflexivity. Qed.

(** ** The tree of a document *)

Lemma dom_node_forall_ind (P : dom_node -> Prop) :
  (forall name attribs children, Forall P children -> P (Element name attribs children)) ->
  (forall data, P (Text data)) ->
  forall n, P n.
Proof.
  intros HE HT. fix IH 1. intros [name attribs children|data]; [|apply HT].
  apply HE. induction children as [|c cs IHcs]; constructor; [apply IH|apply IHcs].
Qed.

Lemma flat_map_nil {A B} (f : A -> list B) (l : list A) :
  flat_map f l = [] <-> Forall (fun x => f x = []) l.
Proof.
  induction l as [|x l IH]; simpl.
  - split; [constructor|done].
  - split.
    + intros Happ. apply app_eq_nil in Happ as [Hx Hl]. constructor; [done|by apply IH].
    + intros Hall. apply Forall_cons in Hall as [Hx Hl]. rewrite Hx. by apply IH.
Qed.

Lemma append_node_without (tag : string) (new : list dom_node) (n : dom_node) :
  select_node tag n = [] -> append_node tag new n = n.
Proof.
  induction n as [name attribs children IH|data] using dom_node_forall_ind;
    simpl; [|done].
  destruct (decide (name = tag)); [discriminate|]. simpl.
  intros Hsel. rewrite app_nil_r. f_equal.
  apply flat_map_nil in Hsel.
  induction children as [|c cs IHcs]; simpl; [done|].
  apply Forall_cons in IH as [Hc Hcs]. apply Forall_cons in Hsel as [Hsc Hscs].
  f_equal; auto.
Qed.

Lemma append_without (tag : string) (new : list dom_node) (l : list dom_node) :
  select tag l = [] -> append tag new l = l.
Proof.
  unfold select, append. intros Hsel. apply flat_map_nil in Hsel.
  induction l as [|n l IH]; simpl; [done|].
  apply Forall_cons in Hsel as [Hn Hl]. f_equal; [by apply append_node_without|auto].
Qed.

(** Appending to the one element named [tag] of a document leaves every
    node where it is and puts the new nodes after the children of that
    element. *)
Lemma append_fill (tag : string) (new : list dom_node) (c : context)
    (attribs : list (string * string)) (children : list dom_node) :
  context_without tag c ->
  select tag children = [] ->
  append tag new (fill c (Element tag attribs children))
  = fill c (Element tag attribs (children ++ new)).
Proof.
  intros Hc Hch.
  assert (Hnode : append_node tag new (Element tag attribs children)
                  = Element tag attribs (children ++ new)).
  { simpl. rewrite decide_True by done. f_equal. f_equal.
    by apply (append_without tag new children). }
  induction c as [before after|before name attrs inner IH after]; simpl in *.
  - destruct Hc as [Hb Ha]. unfold append. rewrite map_app. simpl.
    rewrite Hnode. f_equal; [by apply append_without|].
    f_equal. by apply append_without.
  - destruct Hc as (Hb & Ha & Hname & Hinner). unfold append. rewrite map_app. simpl.
    rewrite decide_False by done. rewrite app_nil_r.
    f_equal; [by apply append_without|]. f_equal; [|by apply append_without].
    f_equal. by apply IH.
Qed.

(** ** A successful injection *)

Lemma detect_type_any_world (fo : FaviconOptions) (w w' : world)
    (r : result FaviconOptions) :
  detect_type fo w = (r, w) -> detect_type fo w' = (r, w').
Proof.
  unfold detect_type. repeat case_match; unfold ret, throw; intros; simplify_eq; done.
Qed.

Lemma detect_type_string (fo : FaviconOptions) (p : string) (w : world) :
  path fo = Js.Str p ->
  exists fo', detect_type fo w = (Ok fo', w)
    /\ path fo' = path fo /\ rel fo' = rel fo /\ sizes fo' = sizes fo.
Proof.
  intros Hp. unfold detect_type. rewrite Hp.
  destruct (negb (Js.truthy (type fo))); [|by exists fo].
  destruct (mime_of_ext _); eexists; (split; [reflexivity|]); simpl; by rewrite ?Hp.
Qed.

Lemma accepted_path_is_string (opts : options) :
  accepted opts -> path_is_string opts = true.
Proof.
  unfold path_is_string. destruct opts as [|s|o]; simpl; try reflexivity.
  intros [Hp _]. destruct (opt_path o) as [[| |s]|]; simpl in *; done.
Qed.

Lemma injectFavicon_injects `{Cheerio} (p : string) (opts : options) (w : world)
    (content : string) (readable : bool) (doc : document) (fo : FaviconOptions) :
  fs w !! p = Some (File content true true) ->
  Js.startsWith (Path.basename p) "._" = false ->
  detect_type (with_defaults (options_as_object opts)) w = (Ok fo, w) ->
  cheerio_load content = Some doc ->
  hasFavicon doc = false ->
  select "head" doc <> [] ->
  exists w',
    injectFavicon p opts w = (Ok true, w')
    /\ fs w' = <[p := File (cheerio_html (append "head" (cheerio_parse (link_tag fo)) doc))
                     true true]> (fs w).
Proof.
  intros Hfile Hname Hdetect Hload Hfav Hhead.
  unfold injectFavicon, try_catch, injectFavicon_try, stat, readFile, load, writeFile.
  run_monad. rewrite Hfile. simpl. rewrite Hname.
  rewrite (detect_type_any_world _ _ _ _ Hdetect). simpl.
  rewrite Hfile, Hload. simpl. rewrite Hfav.
  destruct (decide _) as [Hlen|_]; [by destruct (select "head" doc)|].
  simpl. rewrite Hfile. simpl. eexists. split; reflexivity.
Qed.

Lemma injectFavicon_skips `{Cheerio} (p : string) (opts : options) (w : world)
    (content : string) (writable : bool) (doc : document) (fo : FaviconOptions) :
  fs w !! p = Some (File content true writable) ->
  Js.startsWith (Path.basename p) "._" = false ->
  detect_type (with_defaults (options_as_object opts)) w = (Ok fo, w) ->
  cheerio_load content = Some doc ->
  hasFavicon doc = true ->
  exists w', injectFavicon p opts w = (Ok false, w') /\ fs w' = fs w.
Proof.
  intros Hfile Hname Hdetect Hload Hfav.
  unfold injectFavicon, try_catch, injectFavicon_try, stat, readFile, load.
  run_monad. rewrite Hfile. simpl. rewrite Hname.
  rewrite (detect_type_any_world _ _ _ _ Hdetect). simpl.
  rewrite Hfile, Hload. simpl. rewrite Hfav. eexists. split; reflexivity.
Qed.

Ltac run_injectFavicon :=
  unfold injectFavicon, try_catch, injectFavicon_try, stat, readFile, load, writeFile;
  run_monad.

Lemma injectFavicon_true_inv `{Cheerio} (filePath : string) (opts : options)
    (w w' : world) :
  injectFavicon filePath opts w = (Ok true, w') ->
  exists content doc fo,
    fs w !! filePath = Some (File content true true)
    /\ Js.startsWith (Path.basename filePath) "._" = false
    /\ detect_type (with_defaults (options_as_object opts)) w = (Ok fo, w)
    /\ cheerio_load content = Some doc
    /\ hasFavicon doc = false
    /\ select "head" doc <> []
    /\ w' = {| fs := <[filePath :=
                        File (cheerio_html
                                (append "head" (cheerio_parse (link_tag fo)) doc))
                             true true]> (fs w);
               log := FsCall Write filePath :: FsCall Open filePath
                      :: FsCall Stat filePath :: log w |}.
Proof.
  run_injectFavicon.
  destruct (fs w !! filePath) as [node|] eqn:Hnode; simpl; [|discriminate].
  destruct (negb (isFile node)) eqn:Hfile; [discriminate|].
  destruct (Js.startsWith (Path.basename filePath) "._") eqn:Hname; [discriminate|].
  destruct (detect_type _ _) as [[fo|e] w0] eqn:Hdetect; simpl; [|discriminate].
  pose proof (detect_type_world _ _ _ _ Hdetect) as ->. simpl.
  rewrite Hnode.
  destruct node as [content [] writable| |]; simpl; try discriminate.
  destruct (cheerio_load content) as [doc|] eqn:Hload; simpl; [|discriminate].
  destruct (hasFavicon doc) eqn:Hfav; [discriminate|].
  destruct (decide _) as [Hlen|Hlen]; [discriminate|].
  simpl. rewrite Hnode. destruct writable; simpl; [|discriminate].
  intros Hrun. inversion Hrun. exists content, doc, fo.
  split; [done|]. split; [done|].
  split; [by apply (detect_type_any_world _ _ w) in Hdetect|].
  split; [done|]. split; [done|]. split; [|done].
  intros Hsel. by rewrite Hsel in Hlen.
Qed.

(** C3. [injectFavicon] always returns a boolean, whatever the path, the
    options and the state of the filesystem: no error leaves it.  An error
    thrown in the [try] block is caught, logged with the path and turned
    into [false]; so the answer is [false] when the path cannot be
    [stat]ed, and when the file cannot be read, parsed or written.  When
    the answer is [false] no file has changed. *)
Theorem injectFavicon_never_throws `{Cheerio} (filePath : string) (opts : options)
    (w : world) :
  exists (b : bool) (w' : world),
    injectFavicon filePath opts w = (Ok b, w')
    /\ (b = false -> fs w' = fs w)
    /\ (forall e w1,
          injectFavicon_try filePath opts w = (Throw e, w1) ->
          b = false
          /\ w' = {| fs := fs w;
                     log := ConsoleError ("Error injecting favicon into " +:+ filePath +:+ ":") e
                            :: log w1 |})
    /\ (fs w !! filePath = None -> b = false)
    /\ (forall content readable writable,
          fs w !! filePath = Some (File content readable writable) ->
          readable = false \/ cheerio_load content = None \/ writable = false ->
          b = false).
Proof.
  destruct (injectFavicon filePath opts w) as [r w'] eqn:Hrun.
  assert (Hok : exists b, r = Ok b).
  { revert Hrun. unfold injectFavicon, try_catch.
    destruct (injectFavicon_try filePath opts w) as [[b|e] w1]; run_monad;
      intros; simplify_eq; eauto. }
  destruct Hok as [b ->]. exists b, w'. split; [reflexivity|].
  split; [|split; [|split]].
  - intros ->. revert Hrun. unfold injectFavicon, try_catch.
    destruct (injectFavicon_try filePath opts w) as [[b|e] w1] eqn:Htry; run_monad;
      intros; simplify_eq; simpl;
      apply injectFavicon_try_fs in Htry as [Hr|Hfs]; done.
  - intros e w1 Htry. revert Hrun. unfold injectFavicon, try_catch. rewrite Htry.
    run_monad. intros; simplify_eq. split; [reflexivity|]. f_equal.
    apply injectFavicon_try_fs in Htry as [Hr|Hfs]; done.
  - intros Hnone. destruct b; [|reflexivity].
    apply injectFavicon_true_inv in Hrun as (content & doc & fo & Hnode & _).
    congruence.
  - intros content readable writable Hfile Hcases. destruct b; [|reflexivity].
    apply injectFavicon_true_inv in Hrun
      as (content' & doc & fo & Hnode & _ & _ & Hload & _).
    rewrite Hfile in Hnode. simplify_eq. destruct Hcases as [?|[?|?]]; congruence.
Qed.

Lemma injectFavicon_never_throws_witness :
  exists w',
    @injectFavicon Sample.parser "/site/a.html" Omitted Sample.broken_site_world
    = (Ok false, w')
    /\ fs w' = fs Sample.broken_site_world
    /\ log w' = [ConsoleError "Error injecting favicon into /site/a.html:"
                   (FsError Open "/site/a.html");
                 FsCall Open "/site/a.html"; FsCall Stat "/site/a.html"].
Proof.
  destruct (@injectFavicon_never_throws Sample.parser "/site/a.html" Omitted
              Sample.broken_site_world) as (b & w' & Hrun & Hfs & Hcatch & _).
  destruct (Hcatch (FsError Open "/site/a.html")
              {| fs := fs Sample.broken_site_world;
                 log := [FsCall Open "/site/a.html"; FsCall Stat "/site/a.html"] |})
    as [-> ->]; [vm_compute; reflexivity|].
  exists {| fs := fs Sample.broken_site_world;
            log := [ConsoleError "Error injecting favicon into /site/a.html:"
                      (FsError Open "/site/a.html");
                    FsCall Open "/site/a.html"; FsCall Stat "/site/a.html"] |}.
  split; [exact Hrun|]. split; reflexivity.
Defined.

Lemma accepted_rel_is_string (opts : options) :
  accepted opts -> exists r, rel (with_defaults (options_as_object opts)) = Js.Str r.
Proof.
  destruct opts as [|s|o]; simpl; eauto.
  intros [_ Hr]. destruct (opt_rel o) as [[| |r]|]; simpl in *; try done; eauto.
Qed.

Lemma link_element_attrs (fo : FaviconOptions) :
  attr "rel" (link_element fo) = Js.Str (Js.to_string (rel fo))
  /\ attr "href" (link_element fo) = Js.Str (Js.to_string (path fo))
  /\ attr "type" (link_element fo)
     = from_option Js.Str Js.Undefined (attribute_value (type fo))
  /\ attr "sizes" (link_element fo)
     = from_option Js.Str Js.Undefined (attribute_value (sizes fo)).
Proof.
  unfold link_element, attribute_value.
  destruct (Js.truthy (type fo)), (Js.truthy (sizes fo)); simpl; done.
Qed.

(** The elements named [tag] are counted place by place: exchanging the
    node at one place changes the count by the difference of the two
    nodes. *)
Lemma select_fill_length (tag : string) (c : context) (n n' : dom_node) :
  (length (select tag (fill c n)) + length (select_node tag n')
   = length (select tag (fill c n')) + length (select_node tag n))%nat.
Proof.
  unfold select. induction c as [before after|before name attribs inner IH after]; simpl.
  - rewrite !flat_map_app. simpl. rewrite !length_app. lia.
  - rewrite !flat_map_app. simpl. rewrite !length_app.
    destruct (decide (name = tag)); simpl; rewrite ?length_app; lia.
Qed.

(** C2, as stated, fails: the values of the options go into the markup as
    they are.  With a [path] that holds a double quote the markup of the
    tag is that of two [link] elements, and the head receives both. *)
Lemma quoted_path_appends_two_links :
  let opts := Bare ("/a.png" +:+ dquote +:+ "><link rel=" +:+ dquote +:+ "alternate") in
  accepted opts
  /\ @cheerio_load Sample.parser Sample.page_plain = Some Sample.doc_plain
  /\ hasFavicon Sample.doc_plain = false
  /\ select "head" Sample.doc_plain <> []
  /\ select "link" Sample.doc_plain = []
  /\ exists w' content' doc',
       @injectFavicon Sample.parser "/site/a.html" opts Sample.site_world = (Ok true, w')
       /\ fs w' !! "/site/a.html" = Some (File content' true true)
       /\ content'
          = "<html><head><title>Test</title>" +:+
            "<link rel=" +:+ dquote +:+ "icon" +:+ dquote +:+
            " href=" +:+ dquote +:+ "/a.png" +:+ dquote +:+ ">" +:+
            "<link rel=" +:+ dquote +:+ "alternate" +:+ dquote +:+ ">" +:+
            "</head><body></body></html>"
       /\ @cheerio_load Sample.parser content' = Some doc'
       /\ doc'
          = [Element "html" []
               [Element "head" []
                  [Element "title" [] [Text "Test"];
                   Element "link" [("rel", "icon"); ("href", "/a.png")] [];
                   Element "link" [("rel", "alternate")] []];
                Element "body" [] []]]
       /\ select "link" doc'
          = [Element "link" [("rel", "icon"); ("href", "/a.png")] [];
             Element "link" [("rel", "alternate")] []].
Proof.
  intros opts. split; [exact I|]. split; [vm_compute; reflexivity|].
  split; [vm_compute; reflexivity|]. split; [vm_compute; discriminate|].
  split; [reflexivity|].
  destruct (@injectFavicon Sample.parser "/site/a.html" opts Sample.site_world)
    as [r w'] eqn:Hrun.
  vm_compute in Hrun. inversion Hrun; subst r w'. clear Hrun.
  eexists _, _, _. split; [reflexivity|]. split; [vm_compute; reflexivity|].
  split; [vm_compute; reflexivity|]. split; [vm_compute; reflexivity|].
  split; reflexivity.
Qed.

(** C2, amended.  On a readable and writable regular file whose name is
    not a metadata name and whose document has a head element and no
    favicon link, with accepted options whose tag, as the parser reads its
    markup, is the one [link] element that it denotes, [injectFavicon]
    returns [true] and writes back the document in which that element has
    been appended to the head.  The markup is [<link rel=".." href=".."],
    then [type] and [sizes] in that order, each only when it has a value,
    then [>]; the element carries the configured [rel] and [path] and the
    same [type] and [sizes]; the one head keeps its children in their
    order before the new element, every other node stays as it is, and the
    document has exactly one [link] element more. *)
Theorem injectFavicon_appends_link `{Cheerio} (p : string) (opts : options) (w : world)
    (content : string) (doc : document) (fo : FaviconOptions) :
  fs w !! p = Some (File content true true) ->
  Js.startsWith (Path.basename p) "._" = false ->
  accepted opts ->
  detect_type (with_defaults (options_as_object opts)) w = (Ok fo, w) ->
  cheerio_load content = Some doc ->
  hasFavicon doc = false ->
  select "head" doc <> [] ->
  cheerio_parse (link_tag fo) = [link_element fo] ->
  exists w',
    injectFavicon p opts w = (Ok true, w')
    /\ fs w' = <[p := File (cheerio_html (append "head" [link_element fo] doc)) true true]>
                 (fs w)
    /\ link_tag fo =
       "<link rel=" +:+ dquote +:+
         Js.to_string (rel (with_defaults (options_as_object opts))) +:+ dquote +:+
       " href=" +:+ dquote +:+
         Js.to_string (path (with_defaults (options_as_object opts))) +:+ dquote +:+
       attribute_text "type" (attribute_value (type fo)) +:+
       attribute_text "sizes"
         (attribute_value (sizes (with_defaults (options_as_object opts)))) +:+ ">"
    /\ attr "rel" (link_element fo) = rel (with_defaults (options_as_object opts))
    /\ attr "href" (link_element fo) = path (with_defaults (options_as_object opts))
    /\ attr "type" (link_element fo)
       = from_option Js.Str Js.Undefined (attribute_value (type fo))
    /\ attr "sizes" (link_element fo)
       = from_option Js.Str Js.Undefined
           (attribute_value (sizes (with_defaults (options_as_object opts))))
    /\ (forall c attribs children,
          doc = fill c (Element "head" attribs children) ->
          context_without "head" c ->
          select "head" children = [] ->
          append "head" [link_element fo] doc
          = fill c (Element "head" attribs (children ++ [link_element fo]))
          /\ length (select "link" (append "head" [link_element fo] doc))
             = S (length (select "link" doc))).
Proof.
  intros Hfile Hname Hopts Hdetect Hload Hfav Hhead Hparse.
  destruct (accepted_rel_is_string opts Hopts) as (r & Hrel).
  pose proof (accepted_path_is_string opts Hopts) as Hpath. unfold path_is_string in Hpath.
  destruct (path (with_defaults (options_as_object opts))) as [| |s] eqn:Hs; try discriminate.
  destruct (detect_type_string _ s w Hs) as (fo' & Hdetect' & Hp & Hr & Hsz).
  rewrite Hdetect in Hdetect'. injection Hdetect' as <-.
  destruct (injectFavicon_injects p opts w content true doc fo) as (w' & Hrun & Hfs);
    try done.
  rewrite Hparse in Hfs.
  destruct (link_element_attrs fo) as (Hattr_rel & Hattr_href & Hattr_type & Hattr_sizes).
  exists w'. split; [done|]. split; [done|].
  split; [by rewrite link_tag_shape, Hp, Hr, Hsz, Hs|].
  split; [by rewrite Hattr_rel, Hr, Hrel|].
  split; [by rewrite Hattr_href, Hp, Hs|].
  split; [done|]. split; [by rewrite Hattr_sizes, Hsz|].
  intros c attribs children -> Hc Hch.
  rewrite (append_fill "head" [link_element fo] c attribs children Hc Hch).
  split; [reflexivity|].
  pose proof (select_fill_length "link" c
                (Element "head" attribs (children ++ [link_element fo]))
                (Element "head" attribs children)) as Hlen.
  simpl in Hlen. rewrite !flat_map_app, !length_app in Hlen. simpl in Hlen. lia.
Qed.

Lemma injectFavicon_appends_link_witness :
  exists w',
    @injectFavicon Sample.parser "/site/a.html" Omitted Sample.site_world = (Ok true, w')
    /\ fs w' !! "/site/a.html"
       = Some (File
           ("<html><head><title>Test</title>" +:+
            "<link rel=" +:+ dquote +:+ "icon" +:+ dquote +:+
            " href=" +:+ dquote +:+ "/favicon.ico" +:+ dquote +:+
            " type=" +:+ dquote +:+ "image/x-icon" +:+ dquote +:+ ">" +:+
            "</head><body></body></html>") true true)
    /\ append "head"
         [Element "link" [("rel", "icon"); ("href", "/favicon.ico");
                          ("type", "image/x-icon")] []] Sample.doc_plain
       = [Element "html" []
            [Element "head" []
               [Element "title" [] [Text "Test"];
                Element "link" [("rel", "icon"); ("href", "/favicon.ico");
                                ("type", "image/x-icon")] []];
             Element "body" [] []]].
Proof.
  destruct (@injectFavicon_appends_link Sample.parser "/site/a.html" Omitted
              Sample.site_world Sample.page_plain Sample.doc_plain
              {| path := Js.Str "/favicon.ico"; rel := Js.Str "icon";
                 type := Js.Str "image/x-icon"; sizes := Js.Null |})
    as (w' & Hrun & Hfs & Htag & _ & _ & _ & _ & Hhead).
  - vm_compute. reflexivity.
  - vm_compute. reflexivity.
  - exact I.
  - vm_compute. reflexivity.
  - vm_compute. reflexivity.
  - vm_compute. reflexivity.
  - vm_compute. discriminate.
  - vm_compute. reflexivity.
  - exists w'. split; [exact Hrun|]. split; [rewrite Hfs; vm_compute; reflexivity|].
    destruct (Hhead (Inside [] "html" [] (Here [] [Element "body" [] []]) [])
                [] [Element "title" [] [Text "Test"]]) as [Happ _].
    + reflexivity.
    + simpl. repeat split; try reflexivity; discriminate.
    + reflexivity.
    + exact Happ.
Defined.

(** ** The second call *)

Lemma select_link_appended (new : list dom_node) (x : dom_node) (n : dom_node) :
  select_node "head" n <> [] ->
  x ∈ select "link" new ->
  x ∈ select_node "link" (append_node "head" new n).
Proof.
  intros Hhead Hx. revert Hhead.
  induction n as [name attribs children IH|data] using dom_node_forall_ind;
    simpl; [|done].
  intros Hhead. apply elem_of_app. right.
  destruct (decide (name = "head")) as [->|Hname].
  - rewrite flat_map_app. apply elem_of_app. right. exact Hx.
  - simpl in Hhead. rewrite app_nil_r.
    induction children as [|c cs IHcs]; simpl in *; [done|].
    apply Forall_cons in IH as [Hc Hcs]. apply elem_of_app.
    destruct (select_node "head" c) eqn:Hsel; [right; by apply IHcs|left].
    apply Hc. done.
Qed.

Lemma select_link_append (new : list dom_node) (x : dom_node) (doc : document) :
  select "head" doc <> [] ->
  x ∈ select "link" new ->
  x ∈ select "link" (append "head" new doc).
Proof.
  unfold select at 1 3, append. intros Hhead Hx.
  induction doc as [|n doc IH]; simpl in *; [done|].
  apply elem_of_app.
  destruct (select_node "head" n) eqn:Hsel; [right; by apply IH|left].
  apply select_link_appended; [by rewrite Hsel|done].
Qed.

Lemma select_appended_inv (tag : string) (new : list dom_node) (n : dom_node) :
  Forall (fun l => l ∈ select tag new
                   \/ exists l0, l0 ∈ select_node tag n /\ forall a, attr a l = attr a l0)
         (select_node tag (append_node "head" new n)).
Proof.
  induction n as [name attribs children IH|data] using dom_node_forall_ind;
    simpl; [|constructor].
  assert (Hchildren :
    Forall (fun l => l ∈ select tag new
                     \/ exists l0, l0 ∈ flat_map (select_node tag) children
                                   /\ forall a, attr a l = attr a l0)
           (flat_map (select_node tag) (map (append_node "head" new) children))).
  { induction children as [|c cs IHcs]; simpl; [constructor|].
    apply Forall_cons in IH as [Hc Hcs]. apply Forall_app. split.
    - eapply Forall_impl; [exact Hc|]. intros l [Hl|(l0 & Hin & Hl)]; [by left|right].
      exists l0. split; [|done]. apply elem_of_app. by left.
    - eapply Forall_impl; [exact (IHcs Hcs)|].
      intros l [Hl|(l0 & Hin & Hl)]; [by left|right].
      exists l0. split; [|done]. apply elem_of_app. by right. }
  apply Forall_app. split.
  - destruct (decide (name = tag)); [|constructor].
    apply Forall_cons_2; [|constructor]. right.
    eexists. split; [apply elem_of_app; left; apply list_elem_of_here|]. done.
  - rewrite flat_map_app. apply Forall_app. split.
    + eapply Forall_impl; [exact Hchildren|].
      intros l [Hl|(l0 & Hin & Hl)]; [by left|right].
      exists l0. split; [|done]. apply elem_of_app. by right.
    + destruct (decide (name = "head")); [|constructor].
      apply Forall_forall. intros l Hl. by left.
Qed.

Lemma select_append_inv (tag : string) (new : list dom_node) (doc : document) :
  Forall (fun l => l ∈ select tag new
                   \/ exists l0, l0 ∈ select tag doc /\ forall a, attr a l = attr a l0)
         (select tag (append "head" new doc)).
Proof.
  unfold select at 2 3, append. induction doc as [|n doc IH]; simpl; [constructor|].
  apply Forall_app. split.
  - eapply Forall_impl; [apply select_appended_inv|].
    intros l [Hl|(l0 & Hin & Hl)]; [by left|right].
    exists l0. split; [|done]. apply elem_of_app. by left.
  - eapply Forall_impl; [exact IH|].
    intros l [Hl|(l0 & Hin & Hl)]; [by left|right].
    exists l0. split; [|done]. apply elem_of_app. by right.
Qed.

(** C5, as stated, fails: the presence check knows three [rel] values and
    the tag carries whatever [rel] the options give.  With
    [rel: "mask-icon"] the second call on the same file does not find the
    tag of the first and injects again. *)
Lemma second_call_injects_again :
  let opts := Object {| opt_path := None; opt_rel := Some (Js.Str "mask-icon");
                        opt_type := None; opt_sizes := None |} in
  let w := {| fs := {["/a.html" := File Sample.page_plain true true]}; log := [] |} in
  @cheerio_load Sample.parser Sample.page_plain = Some Sample.doc_plain
  /\ hasFavicon Sample.doc_plain = false
  /\ select "head" Sample.doc_plain <> []
  /\ exists w1 w2,
       @injectFavicon Sample.parser "/a.html" opts w = (Ok true, w1)
       /\ @injectFavicon Sample.parser "/a.html" opts w1 = (Ok true, w2)
       /\ fs w2 !! "/a.html" =
          Some (File
            ("<html><head><title>Test</title>" +:+
             "<link rel=" +:+ dquote +:+ "mask-icon" +:+ dquote +:+
             " href=" +:+ dquote +:+ "/favicon.ico" +:+ dquote +:+
             " type=" +:+ dquote +:+ "image/x-icon" +:+ dquote +:+ ">" +:+
             "<link rel=" +:+ dquote +:+ "mask-icon" +:+ dquote +:+
             " href=" +:+ dquote +:+ "/favicon.ico" +:+ dquote +:+
             " type=" +:+ dquote +:+ "image/x-icon" +:+ dquote +:+ ">" +:+
             "</head><body></body></html>") true true).
Proof.
  intros opts w.
  split; [vm_compute; reflexivity|]. split; [vm_compute; reflexivity|].
  split; [vm_compute; discriminate|].
  destruct (@injectFavicon Sample.parser "/a.html" opts w) as [r1 w1] eqn:H1.
  destruct (@injectFavicon Sample.parser "/a.html" opts w1) as [r2 w2] eqn:H2.
  exists w1, w2.
  vm_compute in H1. inversion H1; subst r1 w1. clear H1.
  vm_compute in H2. inversion H2; subst r2 w2. clear H2.
  split; [reflexivity|]. split; [reflexivity|]. vm_compute. reflexivity.
Qed.

Lemma hasFavicon_append `{Cheerio} (doc : document) (new : list dom_node) (r : Js.value) :
  hasFavicon doc = false ->
  select "head" doc <> [] ->
  select "link" new <> [] ->
  Forall (fun link => attr "rel" link = r) (select "link" new) ->
  forall doc', select "link" doc' = select "link" (append "head" new doc) ->
  hasFavicon doc' = is_favicon_rel r.
Proof.
  intros Hfav Hhead Hsome Hall doc' Hlinks.
  destruct (is_favicon_rel r) eqn:Hrel.
  - apply hasFavicon_exists. apply is_favicon_rel_spec in Hrel as (s & Hs & Hcases).
    destruct (select "link" new) as [|link rest] eqn:Hsel; [done|].
    apply Forall_cons in Hall as [Hlink _].
    exists link, s. rewrite Hlinks, Hlink. split; [|done].
    apply select_link_append; [done|]. rewrite Hsel. apply list_elem_of_here.
  - apply not_true_is_false. intros Hyes.
    apply hasFavicon_exists in Hyes as (link & s & Hin & Hs & Hcases).
    rewrite Hlinks in Hin.
    pose proof (select_append_inv "link" new doc) as Hinv.
    rewrite Forall_forall in Hinv, Hall.
    destruct (Hinv link Hin) as [Hnew|(l0 & Hl0 & Hsame)].
    + rewrite (Hall link Hnew) in Hs. subst r.
      assert (is_favicon_rel (Js.Str s) = true) by (apply is_favicon_rel_spec; eauto).
      congruence.
    + assert (hasFavicon doc = true); [|congruence].
      apply hasFavicon_exists. exists l0, s. by rewrite <- (Hsame "rel").
Qed.

(** C5, amended.  On a readable and writable regular file whose name is not
    a metadata name and whose document has a head element and no favicon
    link, the first of two calls in succession returns [true].  When the
    markup of the tag parses to at least one [link] element, every such
    element carries the configured [rel], and the document written by the
    first call is read back with the same [link] elements, the second call
    returns [false] and leaves the file as the first wrote it if the
    configured [rel] is one of the three values of the presence check; if
    it is none of them and the document read back has a head element, the
    second call returns [true] and appends the tag once more. *)
Theorem second_call_finds_the_tag `{Cheerio} (p : string) (opts : options) (w : world)
    (content : string) (doc doc' : document) (fo : FaviconOptions) :
  fs w !! p = Some (File content true true) ->
  Js.startsWith (Path.basename p) "._" = false ->
  detect_type (with_defaults (options_as_object opts)) w = (Ok fo, w) ->
  cheerio_load content = Some doc ->
  hasFavicon doc = false ->
  select "head" doc <> [] ->
  select "link" (cheerio_parse (link_tag fo)) <> [] ->
  Forall (fun link => attr "rel" link = rel fo) (select "link" (cheerio_parse (link_tag fo))) ->
  cheerio_load (cheerio_html (append "head" (cheerio_parse (link_tag fo)) doc)) = Some doc' ->
  select "link" doc' = select "link" (append "head" (cheerio_parse (link_tag fo)) doc) ->
  exists w1,
    injectFavicon p opts w = (Ok true, w1)
    /\ (is_favicon_rel (rel fo) = true ->
        exists w2, injectFavicon p opts w1 = (Ok false, w2) /\ fs w2 = fs w1)
    /\ (is_favicon_rel (rel fo) = false ->
        select "head" doc' <> [] ->
        exists w2,
          injectFavicon p opts w1 = (Ok true, w2)
          /\ fs w2 = <[p := File (cheerio_html
                                    (append "head" (cheerio_parse (link_tag fo)) doc'))
                                 true true]> (fs w1)).
Proof.
  intros Hfile Hname Hdetect Hload Hfav Hhead Hsome Hall Hback Hlinks.
  destruct (injectFavicon_injects p opts w content true doc fo) as (w1 & Hrun1 & Hfs1);
    try done.
  pose proof (hasFavicon_append doc (cheerio_parse (link_tag fo)) (rel fo)
                Hfav Hhead Hsome Hall doc' Hlinks) as Hfav'.
  assert (Hfile1 : fs w1 !! p
                   = Some (File (cheerio_html
                                   (append "head" (cheerio_parse (link_tag fo)) doc))
                                true true)).
  { rewrite Hfs1. apply lookup_insert_eq. }
  exists w1. split; [exact Hrun1|]. split.
  - intros Hrel. rewrite Hrel in Hfav'.
    apply (injectFavicon_skips p opts w1
             (cheerio_html (append "head" (cheerio_parse (link_tag fo)) doc))
             true doc' fo); try done.
    by apply (detect_type_any_world _ w).
  - intros Hrel Hhead'. rewrite Hrel in Hfav'.
    apply (injectFavicon_injects p opts w1
             (cheerio_html (append "head" (cheerio_parse (link_tag fo)) doc))
             true doc' fo); try done.
    by apply (detect_type_any_world _ w).
Qed.

Lemma second_call_finds_the_tag_witness :
  exists w1 w2,
    @injectFavicon Sample.parser "/site/a.html" Omitted Sample.site_world = (Ok true, w1)
    /\ @injectFavicon Sample.parser "/site/a.html" Omitted w1 = (Ok false, w2)
    /\ fs w2 = fs w1.
Proof.
  destruct (@second_call_finds_the_tag Sample.parser "/site/a.html" Omitted
              Sample.site_world Sample.page_plain Sample.doc_plain
              (append "head"
                 [Element "link" [("rel", "icon"); ("href", "/favicon.ico");
                                  ("type", "image/x-icon")] []] Sample.doc_plain)
              {| path := Js.Str "/favicon.ico"; rel := Js.Str "icon";
                 type := Js.Str "image/x-icon"; sizes := Js.Null |})
    as (w1 & Hrun1 & Hfound & _).
  - vm_compute. reflexivity.
  - vm_compute. reflexivity.
  - vm_compute. reflexivity.
  - vm_compute. reflexivity.
  - vm_compute. reflexivity.
  - vm_compute. discriminate.
  - vm_compute. discriminate.
  - vm_compute. apply Forall_cons_2; [reflexivity|apply Forall_nil_2].
  - vm_compute. reflexivity.
  - vm_compute. reflexivity.
  - destruct Hfound as (w2 & Hrun2 & Hfs2); [reflexivity|].
    exists w1, w2. split; [exact Hrun1|]. split; [exact Hrun2|exact Hfs2].
Defined.

(** ** Entry names and paths *)

Lemma to_list_append (a b : string) :
  Js.to_list (a +:+ b) = Js.to_list a ++ Js.to_list b.
Proof. induction a as [|x a IH]; simpl; [reflexivity|]. by rewrite IH. Qed.

Lemma of_to_list (s : string) : Js.of_list (Js.to_list s) = s.
Proof. induction s as [|x s IH]; simpl; [reflexivity|]. by rewrite IH. Qed.

Lemma plain_name_spec (item : string) :
  plain_name item = true -> item <> EmptyString /\ no_slash item.
Proof.
  unfold plain_name, no_slash. intros Hp. apply andb_true_iff in Hp as [Hne Hns].
  split.
  - intros ->. discriminate.
  - pose proof (proj1 (forallb_forall _ _) Hns) as Hall.
    apply Forall_forall. intros c Hc.
    apply list_elem_of_In in Hc. specialize (Hall c Hc).
    apply negb_true_iff, bool_decide_eq_false in Hall. done.
Qed.

Lemma take_component_app (l rest : list ascii) :
  Forall (fun c => c <> Path.slash) l ->
  Path.take_component (l ++ Path.slash :: rest) = l.
Proof.
  induction 1 as [|c l Hc Hl IH]; simpl.
  - reflexivity.
  - rewrite decide_False by done. by rewrite IH.
Qed.

Lemma drop_slashes_first (c : ascii) (l : list ascii) :
  c <> Path.slash -> Path.drop_slashes (c :: l) = c :: l.
Proof. intros Hc. simpl. by rewrite decide_False. Qed.

Lemma basename_join (d item : string) :
  plain_name item = true -> Path.basename (Path.join d item) = item.
Proof.
  intros Hp. apply plain_name_spec in Hp as [Hne Hns].
  unfold Path.basename, Path.join. rewrite !to_list_append. simpl.
  rewrite rev_app_distr. simpl. rewrite <- app_assoc. simpl.
  assert (Hrev : Forall (fun c => c <> Path.slash) (rev (Js.to_list item))).
  { apply Forall_forall. intros c Hc. apply list_elem_of_In, in_rev, list_elem_of_In in Hc.
    unfold no_slash in Hns. rewrite Forall_forall in Hns. by apply Hns. }
  destruct (rev (Js.to_list item)) as [|c l] eqn:Hl.
  { destruct item; [done|]. simpl in Hl. by destruct (rev (Js.to_list item)). }
  rewrite <- app_comm_cons, drop_slashes_first by (by inversion Hrev).
  rewrite app_comm_cons, (take_component_app (c :: l)) by done.
  rewrite <- Hl, rev_involutive. apply of_to_list.
Qed.

Lemma startsWith_empty (s : string) : Js.startsWith s EmptyString = true.
Proof. by destruct s. Qed.

Lemma startsWith_before_slash (x y pre : string) :
  no_slash pre ->
  Js.startsWith (x +:+ String Path.slash y) pre = Js.startsWith x pre.
Proof.
  revert pre. induction x as [|c x IH]; intros pre Hpre.
  - destruct pre as [|a pre]; [reflexivity|]. simpl.
    apply Forall_cons in Hpre as [Ha _]. by rewrite decide_False.
  - destruct pre as [|a pre]; [reflexivity|]. simpl.
    apply Forall_cons in Hpre as [_ Hpre]. destruct (decide (a = c)); [by apply IH|done].
Qed.

Lemma rev_append_spec (s acc : string) :
  Js.rev_append s acc = Js.reverse s +:+ acc.
Proof.
  unfold Js.reverse. revert acc. induction s as [|c s IH]; intros acc; simpl; [done|].
  rewrite IH, (IH (String c EmptyString)), append_assoc. reflexivity.
Qed.

Lemma rev_append_append (a b acc : string) :
  Js.rev_append (a +:+ b) acc = Js.rev_append b (Js.rev_append a acc).
Proof. revert acc. induction a as [|c a IH]; intros acc; simpl; [reflexivity|apply IH]. Qed.

Lemma reverse_append (a b : string) :
  Js.reverse (a +:+ b) = Js.reverse b +:+ Js.reverse a.
Proof.
  unfold Js.reverse at 1. rewrite rev_append_append, rev_append_spec. reflexivity.
Qed.

Lemma toLowerCase_append (a b : string) :
  Js.toLowerCase (a +:+ b) = Js.toLowerCase a +:+ Js.toLowerCase b.
Proof. induction a as [|c a IH]; simpl; [reflexivity|]. by rewrite IH. Qed.

Lemma is_html_join (d item : string) :
  Js.endsWith (Js.toLowerCase (Path.join d item)) ".html" = is_html_name item.
Proof.
  unfold is_html_name, Js.endsWith, Path.join.
  rewrite !toLowerCase_append, !reverse_append.
  change (Js.reverse (Js.toLowerCase "/")) with (String Path.slash EmptyString).
  rewrite append_assoc. simpl.
  apply startsWith_before_slash.
  unfold no_slash. simpl. repeat constructor; discriminate.
Qed.

Lemma append_inv_head (a b c : string) : a +:+ b = a +:+ c -> b = c.
Proof. induction a as [|x a IH]; simpl; [done|]. intros Heq. inversion Heq. auto. Qed.

Lemma name_before_slash (i1 i2 r1 r2 : string) :
  no_slash i1 -> no_slash i2 ->
  (r1 = EmptyString \/ exists r, r1 = String Path.slash r) ->
  (r2 = EmptyString \/ exists r, r2 = String Path.slash r) ->
  i1 +:+ r1 = i2 +:+ r2 -> i1 = i2.
Proof.
  revert i2. induction i1 as [|c i1 IH]; intros i2 H1 H2 Hr1 Hr2 Heq.
  - destruct i2 as [|c i2]; [done|]. simpl in Heq.
    apply Forall_cons in H2 as [Hc _].
    destruct Hr1 as [->|[r ->]]; [discriminate|]. inversion Heq. congruence.
  - apply Forall_cons in H1 as [Hc H1].
    destruct i2 as [|c' i2]; simpl in Heq.
    + destruct Hr2 as [->|[r ->]]; [discriminate|]. inversion Heq. congruence.
    + apply Forall_cons in H2 as [_ H2]. inversion Heq. f_equal. eapply IH; eauto.
Qed.

Lemma within_join (d item q : string) :
  within (Path.join d item) q ->
  exists r, q = d +:+ "/" +:+ item +:+ r /\ (r = EmptyString \/ exists r', r = String Path.slash r').
Proof.
  unfold Path.join. intros [->|[r ->]].
  - exists EmptyString. rewrite append_empty_r. auto.
  - exists (String Path.slash r). rewrite !append_assoc. split; [reflexivity|eauto].
Qed.

(** Two entries of a directory have no path in common. *)
Lemma within_disjoint (d i1 i2 q : string) :
  plain_name i1 = true -> plain_name i2 = true ->
  within (Path.join d i1) q -> within (Path.join d i2) q -> i1 = i2.
Proof.
  intros H1 H2 Hq1 Hq2.
  apply plain_name_spec in H1 as [_ H1]. apply plain_name_spec in H2 as [_ H2].
  apply within_join in Hq1 as (r1 & -> & Hr1). apply within_join in Hq2 as (r2 & Heq & Hr2).
  apply append_inv_head in Heq. simpl in Heq. inversion Heq as [Hnames].
  exact (name_before_slash i1 i2 r1 r2 H1 H2 Hr1 Hr2 Hnames).
Qed.

Lemma within_below (d item q : string) : within (Path.join d item) q -> below d q.
Proof.
  intros [->|Hb]; [apply below_join|by eapply below_trans].
Qed.

(** ** The files of a tree *)

Lemma within_trans (d item q : string) : within (Path.join d item) q -> within d q.
Proof. intros Hq. right. by eapply within_below. Qed.

Lemma flat_map_ext_in {A B} (f g : A -> list B) (l : list A) :
  (forall x, x ∈ l -> f x = g x) -> flat_map f l = flat_map g l.
Proof.
  induction l as [|x l IH]; intros Hfg; simpl; [reflexivity|].
  rewrite Hfg by apply list_elem_of_here. f_equal. apply IH.
  intros y Hy. apply Hfg. by apply list_elem_of_further.
Qed.

Lemma forallb_ext_in {A} (f g : A -> bool) (l : list A) :
  (forall x, x ∈ l -> f x = g x) -> forallb f l = forallb g l.
Proof.
  induction l as [|x l IH]; intros Hfg; simpl; [reflexivity|].
  rewrite Hfg by apply list_elem_of_here. f_equal. apply IH.
  intros y Hy. apply Hfg. by apply list_elem_of_further.
Qed.

Lemma entry_files_agree (skip : string -> bool) (rec1 rec2 : string -> list string)
    (m1 m2 : gmap string fs_node) (d item : string) :
  m1 !! Path.join d item = m2 !! Path.join d item ->
  rec1 (Path.join d item) = rec2 (Path.join d item) ->
  entry_files skip rec1 m1 d item = entry_files skip rec2 m2 d item.
Proof. unfold entry_files. intros -> ->. reflexivity. Qed.

Lemma html_files_agree (skip : string -> bool) (fuel : nat) (m1 m2 : gmap string fs_node)
    (d : string) :
  (forall q, within d q -> m1 !! q = m2 !! q) ->
  html_files skip fuel m1 d = html_files skip fuel m2 d.
Proof.
  revert d. induction fuel as [|fuel IH]; intros d Hagree; simpl; [reflexivity|].
  rewrite (Hagree d) by (by left).
  destruct (m2 !! d) as [[| [items|] |]|]; try reflexivity.
  apply flat_map_ext_in. intros item _. apply entry_files_agree.
  - apply Hagree. right. apply below_join.
  - apply IH. intros q Hq. apply Hagree. by eapply within_trans.
Qed.

Lemma entry_ok_agree `{Cheerio} (ok1 ok2 : string -> bool) (m1 m2 : gmap string fs_node)
    (d item : string) :
  m1 !! Path.join d item = m2 !! Path.join d item ->
  ok1 (Path.join d item) = ok2 (Path.join d item) ->
  entry_ok ok1 m1 d item = entry_ok ok2 m2 d item.
Proof. unfold entry_ok. intros -> ->. reflexivity. Qed.

Lemma error_free_agree `{Cheerio} (fuel : nat) (m1 m2 : gmap string fs_node) (d : string) :
  (forall q, within d q -> m1 !! q = m2 !! q) ->
  error_free fuel m1 d = error_free fuel m2 d.
Proof.
  revert d. induction fuel as [|fuel IH]; intros d Hagree; simpl; [reflexivity|].
  rewrite (Hagree d) by (by left).
  destruct (m2 !! d) as [[| [items|] |]|]; try reflexivity.
  f_equal. apply forallb_ext_in. intros item _. apply entry_ok_agree.
  - apply Hagree. right. apply below_join.
  - apply IH. intros q Hq. apply Hagree. by eapply within_trans.
Qed.

Lemma html_files_below (skip : string -> bool) (fuel : nat) (m : gmap string fs_node)
    (d q : string) :
  q ∈ html_files skip fuel m d -> below d q.
Proof.
  revert d. induction fuel as [|fuel IH]; intros d; simpl; [by intros ?%elem_of_nil|].
  destruct (m !! d) as [[| [items|] |]|]; try (by intros ?%elem_of_nil).
  intros Hq. apply list_elem_of_In, in_flat_map in Hq as (item & _ & Hq).
  apply list_elem_of_In in Hq. unfold entry_files in Hq.
  destruct (skip item); [by apply elem_of_nil in Hq|].
  destruct (m !! Path.join d item) as [[| |]|]; try (by apply elem_of_nil in Hq).
  - destruct (is_html_name item); [|by apply elem_of_nil in Hq].
    apply list_elem_of_singleton in Hq as ->. apply below_join.
  - eapply below_trans. by apply IH.
Qed.

Lemma entry_files_within (skip : string -> bool) (fuel : nat) (m : gmap string fs_node)
    (d item q : string) :
  q ∈ entry_files skip (html_files skip fuel m) m d item -> within (Path.join d item) q.
Proof.
  unfold entry_files. destruct (skip item); [by intros ?%elem_of_nil|].
  destruct (m !! Path.join d item) as [[| |]|]; try (by intros ?%elem_of_nil).
  - destruct (is_html_name item); [|by intros ?%elem_of_nil].
    intros ->%list_elem_of_singleton. by left.
  - intros Hq. right. by eapply html_files_below.
Qed.

(** ** The counters of a clean scan *)

Lemma stats_eq (a b : InjectionStats) :
  total a = total b -> injected a = injected b -> skipped a = skipped b ->
  failed a = failed b -> a = b.
Proof. destruct a, b; simpl; congruence. Qed.

Lemma add_stats_assoc (a b c : InjectionStats) :
  add_stats (add_stats a b) c = add_stats a (add_stats b c).
Proof. apply stats_eq; simpl; lia. Qed.

Lemma add_stats_zero_r (a : InjectionStats) : add_stats a zero_stats = a.
Proof. apply stats_eq; simpl; lia. Qed.

Lemma add_stats_zero_l (a : InjectionStats) : add_stats zero_stats a = a.
Proof. apply stats_eq; simpl; lia. Qed.

Lemma expected_stats_app `{Cheerio} (m : gmap string fs_node) (l1 l2 : list string) :
  expected_stats m (l1 ++ l2) = add_stats (expected_stats m l1) (expected_stats m l2).
Proof.
  unfold expected_stats. rewrite filter_app, !length_app, !Nat2Z.inj_add.
  apply stats_eq; simpl; lia.
Qed.

Lemma has_favicon_file_agree `{Cheerio} (m1 m2 : gmap string fs_node) (q : string) :
  m1 !! q = m2 !! q -> has_favicon_file m1 q = has_favicon_file m2 q.
Proof. unfold has_favicon_file. by intros ->. Qed.

Lemma expected_stats_agree `{Cheerio} (m1 m2 : gmap string fs_node) (l : list string) :
  (forall q, q ∈ l -> m1 !! q = m2 !! q) ->
  expected_stats m1 l = expected_stats m2 l.
Proof.
  intros Hagree. unfold expected_stats.
  assert (Hfilter : filter (fun p => has_favicon_file m1 p = true) l
                    = filter (fun p => has_favicon_file m2 p = true) l).
  { induction l as [|q l IH]; [reflexivity|].
    rewrite !filter_cons.
    rewrite (has_favicon_file_agree m1 m2 q) by (apply Hagree, list_elem_of_here).
    rewrite IH; [reflexivity|]. intros q' Hq'. apply Hagree. by apply list_elem_of_further. }
  by rewrite Hfilter.
Qed.

Lemma expected_stats_nil `{Cheerio} (m : gmap string fs_node) :
  expected_stats m [] = zero_stats.
Proof. reflexivity. Qed.

Lemma expected_stats_singleton `{Cheerio} (m : gmap string fs_node) (p : string) :
  expected_stats m [p] =
  if has_favicon_file m p
  then {| total := 1; injected := 0; skipped := 1; failed := 0 |}
  else {| total := 1; injected := 1; skipped := 0; failed := 0 |}.
Proof.
  unfold expected_stats. rewrite filter_cons.
  destruct (has_favicon_file m p); [rewrite decide_True by done|rewrite decide_False by done];
    reflexivity.
Qed.

Lemma scan_item_counts `{Cheerio} (fuel : nat) (d : string) (opts : options)
    (item : string) (st : InjectionStats) (w : world) :
  path_is_string opts = true ->
  (forall p w0, error_free fuel (fs w0) p = true ->
     exists w1, injectDir fuel p opts w0
                = Some (expected_stats (fs w0) (reached_html_files fuel (fs w0) p), w1)) ->
  entry_ok (error_free fuel (fs w)) (fs w) d item = true ->
  exists w1,
    scan_item (fun p => injectDir fuel p opts) d opts item st w
    = Some (add_stats st
              (expected_stats (fs w)
                 (entry_files is_metadata_name (reached_html_files fuel (fs w)) (fs w) d item)),
            None, w1)
    /\ forall q, ~ within (Path.join d item) q -> fs w1 !! q = fs w !! q.
Proof.
  intros Hopts IHf Hok. unfold entry_ok in Hok.
  apply andb_true_iff in Hok as [Hplain Hok].
  unfold scan_item, entry_files. unfold is_metadata_name in *.
  destruct (Js.startsWith item "._") eqn:Hmeta.
  { exists w. rewrite expected_stats_nil, add_stats_zero_r. done. }
  unfold stat. run_monad.
  set (p := Path.join d item) in *.
  set (w0 := {| fs := fs w; log := FsCall Stat p :: log w |}).
  destruct (fs w !! p) as [[content readable writable|entries|]|] eqn:Hnode;
    simpl; [| | |discriminate].
  - (* a regular file *)
    unfold p at 1. rewrite is_html_join. fold p.
    destruct (is_html_name item) eqn:Hhtml.
    2:{ exists w0. rewrite expected_stats_nil, add_stats_zero_r. done. }
    simpl in Hok. apply andb_true_iff in Hok as [-> Hok].
    destruct (cheerio_load content) as [doc|] eqn:Hload; [|discriminate].
    assert (Hname : Js.startsWith (Path.basename p) "._" = false).
    { unfold p. by rewrite basename_join. }
    unfold path_is_string in Hopts.
    destruct (path (with_defaults (options_as_object opts))) as [| |s] eqn:Hs;
      try discriminate.
    destruct (detect_type_string _ s w0 Hs) as (fo & Hdetect & _).
    destruct (hasFavicon doc) eqn:Hfav.
    + destruct (injectFavicon_skips p opts w0 content writable doc fo)
        as (w1 & Hrun & Hfs1); try done.
      rewrite Hrun. unfold readFile, load. run_monad.
      rewrite Hfs1. simpl. rewrite Hnode. simpl. rewrite Hload. simpl. rewrite Hfav.
      eexists. split.
      { f_equal. apply pair_equal_spec. split; [|reflexivity]. f_equal.
        rewrite expected_stats_singleton.
        unfold has_favicon_file. rewrite Hnode, Hload, Hfav.
        apply stats_eq; simpl; lia. }
      done.
    + simpl in Hok. apply andb_true_iff in Hok as [-> Hhead].
      apply negb_true_iff, bool_decide_eq_false in Hhead.
      destruct (injectFavicon_injects p opts w0 content true doc fo)
        as (w1 & Hrun & Hfs1); try done.
      rewrite Hrun. exists w1. split.
      * f_equal. f_equal. f_equal. rewrite expected_stats_singleton.
        unfold has_favicon_file. rewrite Hnode, Hload, Hfav.
        apply stats_eq; simpl; lia.
      * intros q Hq. rewrite Hfs1. simpl. apply lookup_insert_ne.
        intros <-. apply Hq. by left.
  - (* a directory *)
    destruct (IHf p w0 Hok) as (w1 & Hrun). rewrite Hrun. exists w1. split; [reflexivity|].
    intros q Hq. apply injectDir_inv in Hrun as (Hr & _).
    destruct (Hr q) as [E|(Hb & _)]; [exact E|]. exfalso. apply Hq. by right.
  - (* neither *)
    exists w0. rewrite expected_stats_nil, add_stats_zero_r. done.
Qed.

Lemma scan_items_counts `{Cheerio} (fuel : nat) (d : string) (opts : options)
    (items : list string) (st : InjectionStats) (w : world) :
  path_is_string opts = true ->
  (forall p w0, error_free fuel (fs w0) p = true ->
     exists w1, injectDir fuel p opts w0
                = Some (expected_stats (fs w0) (reached_html_files fuel (fs w0) p), w1)) ->
  NoDup items ->
  (forall item, item ∈ items -> entry_ok (error_free fuel (fs w)) (fs w) d item = true) ->
  exists w',
    scan_items (fun p => injectDir fuel p opts) d opts items st w
    = Some (add_stats st
              (expected_stats (fs w)
                 (flat_map
                    (entry_files is_metadata_name (reached_html_files fuel (fs w)) (fs w) d)
                    items)),
            None, w').
Proof.
  intros Hopts IHf. revert st w.
  induction items as [|item rest IH]; intros st w Hnodup Hok; simpl.
  { exists w. by rewrite expected_stats_nil, add_stats_zero_r. }
  apply NoDup_cons in Hnodup as [Hfresh Hnodup].
  destruct (scan_item_counts fuel d opts item st w Hopts IHf) as (w1 & Hitem & Hframe).
  { apply Hok, list_elem_of_here. }
  rewrite Hitem.
  assert (Hagree : forall item' q, item' ∈ rest -> within (Path.join d item') q ->
                     fs w1 !! q = fs w !! q).
  { intros item' q Hin Hq. apply Hframe. intros Hq'.
    assert (Hp : plain_name item = true).
    { specialize (Hok item (list_elem_of_here _ _)). unfold entry_ok in Hok.
      by apply andb_true_iff in Hok as [? _]. }
    assert (Hp' : plain_name item' = true).
    { specialize (Hok item' (list_elem_of_further _ _ _ Hin)). unfold entry_ok in Hok.
      by apply andb_true_iff in Hok as [? _]. }
    apply Hfresh. by rewrite (within_disjoint d item item' q). }
  destruct (IH (add_stats st
                  (expected_stats (fs w)
                     (entry_files is_metadata_name (reached_html_files fuel (fs w))
                        (fs w) d item))) w1 Hnodup) as (w' & Hrest).
  { intros item' Hin.
    rewrite <- (Hok item' (list_elem_of_further _ _ _ Hin)).
    apply entry_ok_agree; [apply (Hagree item'); [done|by left]|].
    apply error_free_agree. intros q Hq. by apply (Hagree item'). }
  exists w'. rewrite Hrest. f_equal. f_equal. f_equal.
  rewrite add_stats_assoc, expected_stats_app. f_equal. f_equal.
  assert (Hfiles :
    flat_map (entry_files is_metadata_name (reached_html_files fuel (fs w1)) (fs w1) d) rest
    = flat_map (entry_files is_metadata_name (reached_html_files fuel (fs w)) (fs w) d) rest).
  { apply flat_map_ext_in. intros item' Hin. apply entry_files_agree.
    - apply (Hagree item'); [done|by left].
    - apply html_files_agree. intros q Hq. by apply (Hagree item'). }
  rewrite Hfiles. apply expected_stats_agree.
  intros q Hq. apply list_elem_of_In, in_flat_map in Hq as (item' & Hin & Hq).
  apply list_elem_of_In in Hin, Hq. apply (Hagree item'); [done|].
  by eapply entry_files_within.
Qed.

Lemma injectDir_counts `{Cheerio} (opts : options) (fuel : nat) (d : string) (w : world) :
  path_is_string opts = true ->
  error_free fuel (fs w) d = true ->
  exists w',
    injectDir fuel d opts w
    = Some (expected_stats (fs w) (reached_html_files fuel (fs w) d), w').
Proof.
  intros Hopts. revert d w. induction fuel as [|fuel IH]; intros d w Hok; [discriminate|].
  simpl in Hok. unfold reached_html_files. simpl.
  unfold pathExists, readdir. run_monad.
  destruct (fs w !! d) as [[| [items|] |]|] eqn:Hd; try discriminate.
  rewrite bool_decide_eq_true_2 by eauto. simpl.
  apply andb_true_iff in Hok as [Hnodup Hok]. apply bool_decide_eq_true in Hnodup.
  destruct (scan_items_counts fuel d opts items zero_stats
              {| fs := fs w; log := FsCall Scandir d :: FsCall Access d :: log w |}
              Hopts IH Hnodup) as (w' & Hscan).
  { intros item Hin. simpl.
    pose proof (proj1 (forallb_forall _ _) Hok item) as Hitem.
    apply Hitem. by apply list_elem_of_In. }
  rewrite Hscan. simpl. rewrite add_stats_zero_l. eauto.
Qed.

(** C1, as stated, fails: a file named [._c.html] is one of the files whose
    names end in [.html], and the walk passes it over.  On a site of four
    such files, one of which has a favicon, where no call fails, the
    counters are 3, 2, 1, 0 and not 4, 3, 1, 0. *)
Lemma metadata_pages_are_not_counted :
  @error_free Sample.parser 20 Sample.site "/site" = true
  /\ all_html_files 20 Sample.site "/site"
     = ["/site/a.html"; "/site/b.html"; "/site/._c.html"; "/site/sub/d.HTML"]
  /\ filter (fun p => @has_favicon_file Sample.parser Sample.site p = true)
        (all_html_files 20 Sample.site "/site") = ["/site/b.html"]
  /\ @expected_stats Sample.parser Sample.site (all_html_files 20 Sample.site "/site")
     = {| total := 4; injected := 3; skipped := 1; failed := 0 |}
  /\ exists w',
       @injectDir Sample.parser 20 "/site" Omitted Sample.site_world
       = Some ({| total := 3; injected := 2; skipped := 1; failed := 0 |}, w')
       /\ forallb (fun e => match e with FsCall _ _ => true | _ => false end) (log w') = true.
Proof.
  split; [vm_compute; reflexivity|]. split; [vm_compute; reflexivity|].
  split; [vm_compute; reflexivity|]. split; [vm_compute; reflexivity|].
  destruct (@injectDir Sample.parser 20 "/site" Omitted Sample.site_world)
    as [[st w']|] eqn:Hrun; vm_compute in Hrun; [|discriminate].
  inversion Hrun; subst st w'. clear Hrun.
  eexists. split; [reflexivity|]. vm_compute. reflexivity.
Qed.

(** C1, amended.  On a tree where no call fails and every document has a
    head element, with any accepted options, [injectDir] returns
    [total = N], [injected = N - k], [skipped = k] and [failed = 0], where
    [N] counts the regular files whose names end in [.html] that are
    neither named [._*] nor below a directory so named, and [k] those of
    them in which the presence check finds a favicon link. *)
Theorem clean_scan_counts `{Cheerio} (fuel : nat) (d : string) (opts : options)
    (w : world) :
  accepted opts ->
  error_free fuel (fs w) d = true ->
  let files := reached_html_files fuel (fs w) d in
  let N := Z.of_nat (length files) in
  let k := Z.of_nat (length (filter (fun p => has_favicon_file (fs w) p = true) files)) in
  exists w',
    injectDir fuel d opts w
    = Some ({| total := N; injected := N - k; skipped := k; failed := 0 |}, w').
Proof.
  intros Hopts Hok.
  exact (injectDir_counts opts fuel d w (accepted_path_is_string opts Hopts) Hok).
Qed.

Lemma clean_scan_counts_witness :
  exists w',
    @injectDir Sample.parser 20 "/site" Omitted Sample.site_world
    = Some ({| total := 3; injected := 2; skipped := 1; failed := 0 |}, w').
Proof.
  destruct (@clean_scan_counts Sample.parser 20 "/site" Omitted Sample.site_world)
    as (w' & Hrun).
  - exact I.
  - vm_compute. reflexivity.
  - exists w'. rewrite Hrun. vm_compute. reflexivity.
Defined.

(** ** The scenarios of the specification *)

Example touch_icon_tag :
  fst (detect_type
         (with_defaults (options_as_object
            (Object {| opt_path := Some (Js.Str "/t.png");
                       opt_rel := Some (Js.Str "apple-touch-icon");
                       opt_type := None; opt_sizes := Some (Js.Str "180x180") |})))
         {| fs := ∅; log := [] |})
  = Ok {| path := Js.Str "/t.png"; rel := Js.Str "apple-touch-icon";
          type := Js.Str "image/png"; sizes := Js.Str "180x180" |}
  /\ link_tag {| path := Js.Str "/t.png"; rel := Js.Str "apple-touch-icon";
                 type := Js.Str "image/png"; sizes := Js.Str "180x180" |}
     = "<link rel=" +:+ dquote +:+ "apple-touch-icon" +:+ dquote +:+
       " href=" +:+ dquote +:+ "/t.png" +:+ dquote +:+
       " type=" +:+ dquote +:+ "image/png" +:+ dquote +:+
       " sizes=" +:+ dquote +:+ "180x180" +:+ dquote +:+ ">".
Proof. split; vm_compute; reflexivity. Qed.

Example two_pages :
  let w := {| fs := list_to_map
                      [("/www", Dir (Some ["a.html"; "b.html"]));
                       ("/www/a.html", File Sample.page_plain true true);
                       ("/www/b.html", File Sample.page_with_icon true true)];
              log := [] |} in
  match @injectDir Sample.parser 3 "/www" Omitted w with
  | Some (st, w') =>
      st = {| total := 2; injected := 1; skipped := 1; failed := 0 |}
      /\ fs w' !! "/www/b.html" = Some (File Sample.page_with_icon true true)
      /\ fs w' !! "/www/a.html"
         = Some (File ("<html><head><title>Test</title><link rel=" +:+ dquote +:+ "icon"
                       +:+ dquote +:+ " href=" +:+ dquote +:+ "/favicon.ico" +:+ dquote
                       +:+ " type=" +:+ dquote +:+ "image/x-icon" +:+ dquote
                       +:+ "></head><body></body></html>") true true)
  | None => False
  end.
Proof. vm_compute. repeat split; reflexivity. Qed.

Example unwritable_page_fails :
  let w := {| fs := list_to_map
                      [("/www", Dir (Some ["n.html"]));
                       ("/www/n.html", File Sample.page_plain true false)];
              log := [] |} in
  fst (@injectFavicon Sample.parser "/www/n.html" Omitted w) = Ok false
  /\ fst <$> @injectDir Sample.parser 3 "/www" Omitted w
     = Some {| total := 1; injected := 0; skipped := 0; failed := 1 |}.
Proof. split; vm_compute; reflexivity. Qed.

Example missing_directory :
  fst <$> @injectDir Sample.parser 1 "/nowhere" (Bare "/f.ico") {| fs := ∅; log := [] |}
  = Some zero_stats.
Proof. vm_compute. reflexivity. Qed.

(** * Further properties *)

(** ** The short-circuits of [injectFavicon] *)

Lemma injectFavicon_calls `{Cheerio} (filePath : string) (opts : options) (w : world) :
  exists (b : bool) (w' : world) (added : list event),
    injectFavicon filePath opts w = (Ok b, w')
    /\ log w' = added ++ log w
    /\ Forall (on_path filePath) added
    /\ forall q, q <> filePath -> fs w' !! q = fs w !! q.
Proof.
  run_injectFavicon.
  repeat (case_match; simpl in *; simplify_eq); detect_world; simpl in *;
    (do 3 eexists; split; [reflexivity|]; simpl; split; [log_added|];
     split; [repeat first [apply Forall_nil_2 | apply Forall_cons_2]; simpl; auto|]);
    intros q Hq; rewrite ?lookup_insert_ne by done; reflexivity.
Qed.

(** X1. [injectFavicon] keeps to its file: the calls it makes on the
    filesystem are [stat], [readFile] and [writeFile] on [filePath], and no
    other path changes. *)
Theorem injectFavicon_keeps_to_its_file `{Cheerio} (filePath : string) (opts : options)
    (w : world) :
  exists (b : bool) (w' : world) (added : list event),
    injectFavicon filePath opts w = (Ok b, w')
    /\ log w' = added ++ log w
    /\ Forall (on_path filePath) added
    /\ forall q, q <> filePath -> fs w' !! q = fs w !! q.
Proof. apply injectFavicon_calls. Qed.

(** X2. A path that names a directory or another node that is not a
    regular file is refused after the [stat]: the answer is [false], the
    warning names the path, and nothing is read or written. *)
Theorem injectFavicon_refuses_non_file `{Cheerio} (filePath : string) (opts : options)
    (w : world) (node : fs_node) :
  fs w !! filePath = Some node ->
  isFile node = false ->
  injectFavicon filePath opts w
  = (Ok false,
     {| fs := fs w;
        log := ConsoleWarn ("Path is not a file: " +:+ filePath)
               :: FsCall Stat filePath :: log w |}).
Proof.
  intros Hnode Hfile. run_injectFavicon. rewrite Hnode. simpl. rewrite Hfile. reflexivity.
Qed.

Lemma injectFavicon_refuses_non_file_witness :
  @injectFavicon Sample.parser "/site/sub" Omitted Sample.site_world
  = (Ok false,
     {| fs := fs Sample.site_world;
        log := ConsoleWarn "Path is not a file: /site/sub"
               :: FsCall Stat "/site/sub" :: log Sample.site_world |}).
Proof.
  apply (@injectFavicon_refuses_non_file Sample.parser "/site/sub" Omitted Sample.site_world
           (Dir (Some ["d.HTML"]))).
  - vm_compute. reflexivity.
  - reflexivity.
Defined.

(** X3. A path that names nothing makes the [stat] fail: the error is
    caught and logged with the path, the answer is [false] and the
    filesystem is as before. *)
Theorem injectFavicon_missing_file `{Cheerio} (filePath : string) (opts : options)
    (w : world) :
  fs w !! filePath = None ->
  injectFavicon filePath opts w
  = (Ok false,
     {| fs := fs w;
        log := ConsoleError ("Error injecting favicon into " +:+ filePath +:+ ":")
                 (FsError Stat filePath)
               :: FsCall Stat filePath :: log w |}).
Proof.
  intros Hnode. run_injectFavicon. rewrite Hnode. reflexivity.
Qed.

Lemma injectFavicon_missing_file_witness :
  fst (@injectFavicon Sample.parser "/site/non-existent.html" Omitted Sample.site_world)
  = Ok false.
Proof.
  rewrite (@injectFavicon_missing_file Sample.parser "/site/non-existent.html" Omitted
             Sample.site_world); [reflexivity|].
  vm_compute. reflexivity.
Defined.

(** X4. A regular file whose base name begins with [._] is refused before
    it is opened, readable or not and whatever it holds: the answer is
    [false] with the metadata warning, and the only call made is the
    [stat]. *)
Theorem injectFavicon_refuses_metadata_file `{Cheerio} (filePath : string) (opts : options)
    (w : world) (content : string) (readable writable : bool) :
  fs w !! filePath = Some (File content readable writable) ->
  Js.startsWith (Path.basename filePath) "._" = true ->
  injectFavicon filePath opts w
  = (Ok false,
     {| fs := fs w;
        log := ConsoleWarn ("Skipping macOS metadata file: " +:+ filePath)
               :: FsCall Stat filePath :: log w |}).
Proof.
  intros Hnode Hname. run_injectFavicon. rewrite Hnode. simpl. rewrite Hname. reflexivity.
Qed.

Lemma injectFavicon_refuses_metadata_file_witness :
  fst (@injectFavicon Sample.parser "/site/._c.html" Omitted Sample.site_world) = Ok false.
Proof.
  rewrite (@injectFavicon_refuses_metadata_file Sample.parser "/site/._c.html" Omitted
             Sample.site_world Sample.page_plain true true); [reflexivity| |].
  - vm_compute. reflexivity.
  - vm_compute. reflexivity.
Defined.

(** X5. On a file that already has a favicon link the call is silent: it
    answers [false] after one [stat] and one read, prints nothing on the
    console and does not call [writeFile], so that a file that cannot be
    written is no obstacle. *)
Theorem injectFavicon_existing_favicon `{Cheerio} (filePath : string) (opts : options)
    (w : world) (content : string) (writable : bool) (doc : document) :
  fs w !! filePath = Some (File content true writable) ->
  Js.startsWith (Path.basename filePath) "._" = false ->
  accepted opts ->
  cheerio_load content = Some doc ->
  hasFavicon doc = true ->
  injectFavicon filePath opts w
  = (Ok false,
     {| fs := fs w; log := FsCall Open filePath :: FsCall Stat filePath :: log w |}).
Proof.
  intros Hnode Hname Hopts Hload Hfav.
  apply accepted_path_is_string in Hopts. unfold path_is_string in Hopts.
  destruct (path (with_defaults (options_as_object opts))) as [| |s] eqn:Hs; try discriminate.
  destruct (detect_type_string _ s {| fs := fs w; log := FsCall Stat filePath :: log w |} Hs)
    as (fo & Hdetect & _).
  run_injectFavicon. rewrite Hnode. simpl. rewrite Hname, Hdetect. simpl.
  rewrite Hnode, Hload. simpl. rewrite Hfav. reflexivity.
Qed.

Lemma injectFavicon_existing_favicon_witness :
  @injectFavicon Sample.parser "/site/b.html" (Bare "/other.png") Sample.site_world
  = (Ok false,
     {| fs := fs Sample.site_world;
        log := FsCall Open "/site/b.html" :: FsCall Stat "/site/b.html"
               :: log Sample.site_world |}).
Proof.
  apply (@injectFavicon_existing_favicon Sample.parser "/site/b.html" (Bare "/other.png")
           Sample.site_world Sample.page_with_icon true
           [Element "html" []
              [Element "head" []
                 [Element "title" [] [Text "Test"];
                  Element "link" [("rel", "icon"); ("href", "/existing.ico")] []];
               Element "body" [] []]]).
  - vm_compute. reflexivity.
  - vm_compute. reflexivity.
  - exact I.
  - vm_compute. reflexivity.
  - vm_compute. reflexivity.
Defined.

(** X7. When the file cannot be written the rejection of [writeFile] is
    caught: the answer is [false], the error is logged with the path, and
    the content of the file is as before. *)
Theorem injectFavicon_unwritable_file `{Cheerio} (filePath : string) (opts : options)
    (w : world) (content : string) (doc : document) :
  fs w !! filePath = Some (File content true false) ->
  Js.startsWith (Path.basename filePath) "._" = false ->
  accepted opts ->
  cheerio_load content = Some doc ->
  hasFavicon doc = false ->
  select "head" doc <> [] ->
  injectFavicon filePath opts w
  = (Ok false,
     {| fs := fs w;
        log := ConsoleError ("Error injecting favicon into " +:+ filePath +:+ ":")
                 (FsError Write filePath)
               :: FsCall Write filePath :: FsCall Open filePath
               :: FsCall Stat filePath :: log w |}).
Proof.
  intros Hnode Hname Hopts Hload Hfav Hhead.
  apply accepted_path_is_string in Hopts. unfold path_is_string in Hopts.
  destruct (path (with_defaults (options_as_object opts))) as [| |s] eqn:Hs; try discriminate.
  destruct (detect_type_string _ s {| fs := fs w; log := FsCall Stat filePath :: log w |} Hs)
    as (fo & Hdetect & _).
  run_injectFavicon. rewrite Hnode. simpl. rewrite Hname, Hdetect. simpl.
  rewrite Hnode, Hload. simpl. rewrite Hfav.
  destruct (decide _) as [Hlen|_]; [by destruct (select "head" doc)|].
  simpl. rewrite Hnode. reflexivity.
Qed.

Lemma injectFavicon_unwritable_file_witness :
  fst (@injectFavicon Sample.parser "/a.html" Omitted
         {| fs := {["/a.html" := File Sample.page_plain true false]}; log := [] |})
  = Ok false.
Proof.
  rewrite (@injectFavicon_unwritable_file Sample.parser "/a.html" Omitted
             {| fs := {["/a.html" := File Sample.page_plain true false]}; log := [] |}
             Sample.page_plain Sample.doc_plain);
    [reflexivity| | |exact I| | |].
  - vm_compute. reflexivity.
  - vm_compute. reflexivity.
  - vm_compute. reflexivity.
  - vm_compute. reflexivity.
  - vm_compute. discriminate.
Defined.

(** ** When [injectFavicon] answers [true] *)

Lemma injectFavicon_writes `{Cheerio} (filePath : string) (opts : options) (w : world)
    (content : string) (doc : document) (fo : FaviconOptions) :
  fs w !! filePath = Some (File content true true) ->
  Js.startsWith (Path.basename filePath) "._" = false ->
  detect_type (with_defaults (options_as_object opts)) w = (Ok fo, w) ->
  cheerio_load content = Some doc ->
  hasFavicon doc = false ->
  select "head" doc <> [] ->
  injectFavicon filePath opts w
  = (Ok true,
     {| fs := <[filePath :=
                  File (cheerio_html (append "head" (cheerio_parse (link_tag fo)) doc))
                       true true]> (fs w);
        log := FsCall Write filePath :: FsCall Open filePath
               :: FsCall Stat filePath :: log w |}).
Proof.
  intros Hnode Hname Hdetect Hload Hfav Hhead.
  run_injectFavicon. rewrite Hnode. simpl. rewrite Hname.
  rewrite (detect_type_any_world _ _ {| fs := fs w; log := FsCall Stat filePath :: log w |}
             _ Hdetect). simpl.
  rewrite Hnode, Hload. simpl. rewrite Hfav.
  destruct (decide _) as [Hlen|_]; [by destruct (select "head" doc)|].
  simpl. rewrite Hnode. reflexivity.
Qed.

(** X8. [injectFavicon] answers [true] in one case only: the path names a
    readable and writable regular file whose base name does not begin with
    [._], the type detection does not throw, the document read has no
    favicon link and has a [head] element; the file then holds the
    serialization of the document with the tag appended, after exactly one
    [stat], one read and one write. *)
Theorem injectFavicon_true_iff `{Cheerio} (filePath : string) (opts : options)
    (w w' : world) :
  injectFavicon filePath opts w = (Ok true, w') <->
  exists content doc fo,
    fs w !! filePath = Some (File content true true)
    /\ Js.startsWith (Path.basename filePath) "._" = false
    /\ detect_type (with_defaults (options_as_object opts)) w = (Ok fo, w)
    /\ cheerio_load content = Some doc
    /\ hasFavicon doc = false
    /\ select "head" doc <> []
    /\ w' = {| fs := <[filePath :=
                        File (cheerio_html
                                (append "head" (cheerio_parse (link_tag fo)) doc))
                             true true]> (fs w);
               log := FsCall Write filePath :: FsCall Open filePath
                      :: FsCall Stat filePath :: log w |}.
Proof.
  split.
  - apply injectFavicon_true_inv.
  - intros (content & doc & fo & Hnode & Hname & Hdetect & Hload & Hfav & Hhead & ->).
    by apply injectFavicon_writes with content.
Qed.

(** X9. A [path] option that is given as [undefined] or [null], with no
    [type] to go by, makes the type detection throw a [TypeError] before
    the file is opened: the answer is [false], the error is logged and the
    file is neither read nor written. *)
Theorem injectFavicon_path_not_a_string `{Cheerio} (filePath : string) (opts : options)
    (w : world) (content : string) (readable writable : bool) :
  fs w !! filePath = Some (File content readable writable) ->
  Js.startsWith (Path.basename filePath) "._" = false ->
  path_is_string opts = false ->
  Js.truthy (type (with_defaults (options_as_object opts))) = false ->
  injectFavicon filePath opts w
  = (Ok false,
     {| fs := fs w;
        log := ConsoleError ("Error injecting favicon into " +:+ filePath +:+ ":")
                 (TypeError "The path argument must be of type string")
               :: FsCall Stat filePath :: log w |}).
Proof.
  intros Hnode Hname Hpath Htype. unfold path_is_string in Hpath.
  assert (Hdetect : detect_type (with_defaults (options_as_object opts))
                      {| fs := fs w; log := FsCall Stat filePath :: log w |}
                    = (Throw (TypeError "The path argument must be of type string"),
                       {| fs := fs w; log := FsCall Stat filePath :: log w |})).
  { unfold detect_type. rewrite Htype.
    destruct (path (with_defaults (options_as_object opts))); try discriminate; reflexivity. }
  run_injectFavicon. rewrite Hnode. simpl. rewrite Hname, Hdetect. reflexivity.
Qed.

Lemma injectFavicon_path_not_a_string_witness :
  fst (@injectFavicon Sample.parser "/site/a.html"
         (Object {| opt_path := Some Js.Undefined; opt_rel := None; opt_type := None;
                    opt_sizes := None |}) Sample.site_world)
  = Ok false.
Proof.
  rewrite (@injectFavicon_path_not_a_string Sample.parser "/site/a.html"
             (Object {| opt_path := Some Js.Undefined; opt_rel := None; opt_type := None;
                        opt_sizes := None |}) Sample.site_world Sample.page_plain true true);
    [reflexivity| | | |].
  - vm_compute. reflexivity.
  - vm_compute. reflexivity.
  - reflexivity.
  - reflexivity.
Defined.

(** X10. With a [type] given the extension plays no part and the [path] is
    not examined: the tag is built from the options as they stand after the
    defaults, so that a [path] given as [undefined] is written out as the
    text [undefined] and the call succeeds. *)
Theorem injectFavicon_given_type `{Cheerio} (filePath : string) (opts : options)
    (w : world) (content : string) (doc : document) :
  fs w !! filePath = Some (File content true true) ->
  Js.startsWith (Path.basename filePath) "._" = false ->
  Js.truthy (type (with_defaults (options_as_object opts))) = true ->
  cheerio_load content = Some doc ->
  hasFavicon doc = false ->
  select "head" doc <> [] ->
  let fo := with_defaults (options_as_object opts) in
  injectFavicon filePath opts w
  = (Ok true,
     {| fs := <[filePath :=
                  File (cheerio_html (append "head" (cheerio_parse (link_tag fo)) doc))
                       true true]> (fs w);
        log := FsCall Write filePath :: FsCall Open filePath
               :: FsCall Stat filePath :: log w |})
  /\ link_tag fo =
     "<link rel=" +:+ dquote +:+ Js.to_string (rel fo) +:+ dquote +:+
     " href=" +:+ dquote +:+ Js.to_string (path fo) +:+ dquote +:+
     " type=" +:+ dquote +:+ Js.to_string (type fo) +:+ dquote +:+
     attribute_text "sizes" (attribute_value (sizes fo)) +:+ ">".
Proof.
  intros Hnode Hname Htype Hload Hfav Hhead fo. split.
  - apply injectFavicon_writes with content; try done.
    unfold detect_type. by rewrite Htype.
  - rewrite link_tag_shape. unfold attribute_value at 1. fold fo in Htype. rewrite Htype.
    unfold attribute_text at 1. rewrite ?append_assoc. simpl. rewrite ?append_assoc.
    reflexivity.
Qed.

Lemma injectFavicon_given_type_witness :
  exists w',
    @injectFavicon Sample.parser "/a.html"
      (Object {| opt_path := Some Js.Undefined; opt_rel := None;
                 opt_type := Some (Js.Str "image/png"); opt_sizes := None |})
      {| fs := {["/a.html" := File Sample.page_plain true true]}; log := [] |}
    = (Ok true, w')
    /\ fs w' !! "/a.html"
       = Some (File ("<html><head><title>Test</title><link rel=" +:+ dquote +:+ "icon"
                     +:+ dquote +:+ " href=" +:+ dquote +:+ "undefined" +:+ dquote
                     +:+ " type=" +:+ dquote +:+ "image/png" +:+ dquote
                     +:+ "></head><body></body></html>") true true).
Proof.
  destruct (@injectFavicon_given_type Sample.parser "/a.html"
              (Object {| opt_path := Some Js.Undefined; opt_rel := None;
                         opt_type := Some (Js.Str "image/png"); opt_sizes := None |})
              {| fs := {["/a.html" := File Sample.page_plain true true]}; log := [] |}
              Sample.page_plain Sample.doc_plain) as [Hrun _].
  - vm_compute. reflexivity.
  - vm_compute. reflexivity.
  - reflexivity.
  - vm_compute. reflexivity.
  - vm_compute. reflexivity.
  - vm_compute. discriminate.
  - eexists. split; [exact Hrun|]. vm_compute. reflexivity.
Defined.

(** ** The case of the favicon path *)

Lemma lower_char_slash (c : ascii) : Js.lower_char c = Path.slash <-> c = Path.slash.
Proof.
  destruct c as [[] [] [] [] [] [] [] []]; vm_compute; split; intros Heq;
    first [reflexivity | discriminate Heq].
Qed.

Lemma lower_char_dot (c : ascii) : Js.lower_char c = Path.dot <-> c = Path.dot.
Proof.
  destruct c as [[] [] [] [] [] [] [] []]; vm_compute; split; intros Heq;
    first [reflexivity | discriminate Heq].
Qed.

Lemma ext_loop_lower (cs : list ascii) (i : nat) (st : Path.ext_state) :
  Path.ext_loop (map Js.lower_char cs) i st = Path.ext_loop cs i st.
Proof.
  revert i st. induction cs as [|c cs IH]; intros i st; [reflexivity|].
  cbn [map Path.ext_loop].
  destruct (decide (Js.lower_char c = Path.slash)) as [Hs|Hs],
           (decide (c = Path.slash)) as [Hs'|Hs'];
    try (exfalso; exact (Hs' (proj1 (lower_char_slash c) Hs)));
    try (exfalso; exact (Hs (proj2 (lower_char_slash c) Hs'))).
  - destruct (negb (Path.matchedSlash st)); [reflexivity|apply IH].
  - destruct (decide (Js.lower_char c = Path.dot)) as [Hd|Hd],
             (decide (c = Path.dot)) as [Hd'|Hd'];
      try (exfalso; exact (Hd' (proj1 (lower_char_dot c) Hd)));
      try (exfalso; exact (Hd (proj2 (lower_char_dot c) Hd')));
      apply IH.
Qed.

Lemma to_list_lower (s : string) :
  Js.to_list (Js.toLowerCase s) = map Js.lower_char (Js.to_list s).
Proof. induction s as [|c s IH]; simpl; [reflexivity|]. by rewrite IH. Qed.

Lemma of_list_lower (l : list ascii) :
  Js.of_list (map Js.lower_char l) = Js.toLowerCase (Js.of_list l).
Proof. induction l as [|c l IH]; simpl; [reflexivity|]. by rewrite IH. Qed.

Lemma slice_lower (s : string) (from to : nat) :
  Js.slice (Js.toLowerCase s) from to = Js.toLowerCase (Js.slice s from to).
Proof.
  unfold Js.slice. by rewrite to_list_lower, skipn_map, firstn_map, of_list_lower.
Qed.

Lemma extname_lower (p : string) :
  Path.extname (Js.toLowerCase p) = Js.toLowerCase (Path.extname p).
Proof.
  unfold Path.extname. rewrite to_list_lower, <- map_rev, length_map, ext_loop_lower.
  destruct (Path.startDot _) as [sd|]; [|reflexivity].
  destruct (Path.end_ _) as [e|]; [|reflexivity].
  destruct (decide _); [reflexivity|].
  destruct (_ && _); [reflexivity|apply slice_lower].
Qed.

(** X11. The detected type does not depend on the case of any letter of
    the favicon path, in the extension or before it: two paths that are
    equal up to the case of their ASCII letters are given the same
    [type]. *)
Theorem detected_type_ignores_case (fo1 fo2 : FaviconOptions) (p q : string) (w : world) :
  path fo1 = Js.Str p ->
  path fo2 = Js.Str q ->
  type fo1 = type fo2 ->
  Js.toLowerCase p = Js.toLowerCase q ->
  exists fo1' fo2',
    detect_type fo1 w = (Ok fo1', w)
    /\ detect_type fo2 w = (Ok fo2', w)
    /\ type fo1' = type fo2'.
Proof.
  intros Hp Hq Htype Hcase.
  assert (Hext : Js.toLowerCase (Path.extname p) = Js.toLowerCase (Path.extname q)).
  { by rewrite <- !extname_lower, Hcase. }
  unfold detect_type. rewrite Hp, Hq, <- Htype, Hext.
  destruct (negb (Js.truthy (type fo1))).
  - destruct (mime_of_ext _); eexists _, _; (split; [reflexivity|]);
      (split; [reflexivity|]); [reflexivity|exact Htype].
  - eexists _, _. split; [reflexivity|]. split; [reflexivity|]. exact Htype.
Qed.

Lemma detected_type_ignores_case_witness :
  exists fo1' fo2',
    detect_type {| path := Js.Str "/Assets/Icon.PNG"; rel := Js.Str "icon";
                   type := Js.Null; sizes := Js.Null |} {| fs := ∅; log := [] |}
    = (Ok fo1', {| fs := ∅; log := [] |})
    /\ detect_type {| path := Js.Str "/assets/icon.png"; rel := Js.Str "icon";
                      type := Js.Null; sizes := Js.Null |} {| fs := ∅; log := [] |}
       = (Ok fo2', {| fs := ∅; log := [] |})
    /\ type fo1' = type fo2'.
Proof.
  apply (detected_type_ignores_case _ _ "/Assets/Icon.PNG" "/assets/icon.png");
    reflexivity.
Defined.

(** ** What a scan leaves alone *)

(** X12. A scan changes nothing but the content of writable regular files
    below the directory it is given: every other path, the directory
    itself, its subdirectories and their listings, and the permissions of
    every file are as before. *)
Theorem injectDir_rewrites_files_only `{Cheerio} (fuel : nat) (d : string) (opts : options)
    (w : world) :
  (depth_bound (fs w) < fuel)%nat ->
  exists st w',
    injectDir fuel d opts w = Some (st, w')
    /\ forall q,
         fs w' !! q = fs w !! q
         \/ (below d q
             /\ exists content content' readable,
                  fs w !! q = Some (File content readable true)
                  /\ fs w' !! q = Some (File content' readable true)).
Proof.
  intros Hfuel. destruct (injectDir_returns fuel d opts w Hfuel) as (st & w' & Hrun).
  exists st, w'. split; [exact Hrun|].
  apply injectDir_inv in Hrun as (Hr & _). exact Hr.
Qed.

Lemma injectDir_rewrites_files_only_witness :
  exists st w',
    @injectDir Sample.parser 20 "/site/sub" Omitted Sample.site_world = Some (st, w')
    /\ fs w' !! "/site/a.html" = fs Sample.site_world !! "/site/a.html".
Proof.
  destruct (@injectDir_rewrites_files_only Sample.parser 20 "/site/sub" Omitted
              Sample.site_world) as (st & w' & Hrun & Hframe).
  - vm_compute. lia.
  - exists st, w'. split; [exact Hrun|].
    destruct (Hframe "/site/a.html") as [Heq|([r Hr] & _)]; [exact Heq|].
    vm_compute in Hr. discriminate Hr.
Defined.

(** X13. An entry that is not a directory and is not a regular file with a
    name ending in [.html] takes a turn that only [stat]s it: it is not
    counted, not opened and not changed. *)
Theorem scan_ignores_other_entries `{Cheerio}
    (recurse : string -> world -> option (InjectionStats * world))
    (d : string) (opts : options) (item : string) (st : InjectionStats) (w : world)
    (node : fs_node) :
  Js.startsWith item "._" = false ->
  fs w !! Path.join d item = Some node ->
  isDirectory node = false ->
  isFile node = false \/ Js.endsWith (Js.toLowerCase item) ".html" = false ->
  scan_item recurse d opts item st w
  = Some (st, None, {| fs := fs w; log := FsCall Stat (Path.join d item) :: log w |}).
Proof.
  intros Hmeta Hnode Hdir Hother. unfold scan_item, stat. run_monad.
  rewrite Hmeta, Hnode. simpl. rewrite Hdir, is_html_join. unfold is_html_name.
  destruct Hother as [-> | ->]; [reflexivity|]. by rewrite andb_false_r.
Qed.

Lemma scan_ignores_other_entries_witness :
  @scan_item Sample.parser (fun _ _ => None) "/site" Omitted "notes.txt" zero_stats
    Sample.site_world
  = Some (zero_stats, None,
          {| fs := fs Sample.site_world;
             log := FsCall Stat "/site/notes.txt" :: log Sample.site_world |}).
Proof.
  apply (@scan_ignores_other_entries Sample.parser (fun _ _ => None) "/site" Omitted
           "notes.txt" zero_stats Sample.site_world (File "notes" true true)).
  - reflexivity.
  - vm_compute. reflexivity.
  - reflexivity.
  - right. reflexivity.
Defined.

(** ** The path that [path.join] returns *)

Example join_dotdot : PosixPath.join "/x/y.html/z" ".." = "/x/y.html".
Proof. reflexivity. Qed.
Example join_dot : PosixPath.join "/x/._b" "." = "/x/._b".
Proof. reflexivity. Qed.
Example join_relative : PosixPath.join "./public" "a.html" = "public/a.html".
Proof. reflexivity. Qed.
Example join_root : PosixPath.join "/" "a" = "/a".
Proof. reflexivity. Qed.
Example join_repeated : PosixPath.join "a//b/" "c" = "a/b/c".
Proof. reflexivity. Qed.
Example normalize_above : PosixPath.normalize "../../a/./b/../c/" = "../../a/c/".
Proof. reflexivity. Qed.
Example normalize_root : PosixPath.normalize "/../a" = "/a".
Proof. reflexivity. Qed.
Example normalize_up : PosixPath.normalize "a/../.." = "..".
Proof. reflexivity. Qed.
Example normalize_dots : PosixPath.normalize "a/.../b" = "a/.../b".
Proof. reflexivity. Qed.
Example normalize_here : PosixPath.normalize "./" = "./".
Proof. reflexivity. Qed.

Lemma segments_cons (p : string) : exists segment others, PosixPath.segments p = segment :: others.
Proof.
  induction p as [|c p (segment & others & IH)]; simpl; [eauto|].
  destruct (decide (c = Path.slash)); [eauto|]. rewrite IH. eauto.
Qed.

Lemma segments_name (item : string) :
  no_slash item -> PosixPath.segments item = [item].
Proof.
  unfold no_slash. induction item as [|c item IH]; simpl; [reflexivity|].
  intros [Hc Hitem]%Forall_cons. rewrite decide_False by done. by rewrite IH.
Qed.

Lemma segments_join (d item : string) :
  no_slash item ->
  PosixPath.segments (d +:+ "/" +:+ item) = PosixPath.segments d ++ [item].
Proof.
  intros Hitem. change ("/" +:+ item) with (String Path.slash item).
  induction d as [|c d IH]; simpl.
  - rewrite ?decide_True by done. by rewrite segments_name.
  - destruct (decide (c = Path.slash)); [by rewrite IH|].
    rewrite IH. destruct (segments_cons d) as (segment & others & ->). reflexivity.
Qed.

Lemma step_name (allowAboveRoot : bool) (res : list string) (item : string) :
  item <> EmptyString -> item <> "." -> item <> ".." ->
  PosixPath.step allowAboveRoot res item = res ++ [item].
Proof.
  intros H0 H1 H2. unfold PosixPath.step. by rewrite !decide_False.
Qed.

Lemma render_snoc (res : list string) (item : string) :
  PosixPath.render (res ++ [item])
  = match res with
    | [] => item
    | _ => PosixPath.render res +:+ "/" +:+ item
    end.
Proof.
  destruct res as [|first others]; simpl; [reflexivity|]. by rewrite fold_left_app.
Qed.

Lemma render_empty (res : list string) :
  Forall (fun segment => segment <> EmptyString) res ->
  PosixPath.render res = EmptyString -> res = [].
Proof.
  destruct res as [|first others]; [done|]. simpl.
  intros [Hfirst _]%Forall_cons Hrender. exfalso. revert first Hfirst Hrender.
  induction others as [|segment others IH]; intros first Hfirst; simpl; [done|].
  apply IH. by destruct first.
Qed.

Lemma step_kept (allowAboveRoot : bool) (res : list string) (segment : string) :
  Forall (fun s => s <> EmptyString) res ->
  Forall (fun s => s <> EmptyString) (PosixPath.step allowAboveRoot res segment).
Proof.
  intros Hres. unfold PosixPath.step.
  destruct (decide (segment = EmptyString)); [done|].
  destruct (decide (segment = ".")); [done|].
  destruct (decide (segment = "..")) as [->|].
  - destruct (last res) as [kept|] eqn:Hlast.
    + destruct (decide (kept = "..")).
      * destruct allowAboveRoot; [|done]. apply Forall_app. split; [done|].
        by apply Forall_cons_2; [|apply Forall_nil_2].
      * apply last_Some in Hlast as (res' & ->). rewrite removelast_last.
        by apply Forall_app in Hres as [? _].
    + destruct allowAboveRoot; [|apply Forall_nil_2].
      by apply Forall_cons_2; [|apply Forall_nil_2].
  - apply Forall_app. split; [done|]. by apply Forall_cons_2; [|apply Forall_nil_2].
Qed.

Lemma fold_step_kept (allowAboveRoot : bool) (l : list string) (res : list string) :
  Forall (fun s => s <> EmptyString) res ->
  Forall (fun s => s <> EmptyString) (fold_left (PosixPath.step allowAboveRoot) l res).
Proof.
  revert res. induction l as [|segment l IH]; intros res Hres; simpl; [done|].
  apply IH. by apply step_kept.
Qed.

Lemma trailingSeparator_join (d item : string) :
  item <> EmptyString -> no_slash item ->
  PosixPath.trailingSeparator (d +:+ item) = false.
Proof.
  intros Hne Hns. unfold PosixPath.trailingSeparator. apply bool_decide_eq_false.
  rewrite to_list_append, last_app.
  destruct (last (Js.to_list item)) as [c|] eqn:Hlast.
  - intros [= ->]. apply last_Some in Hlast as (l & Hl).
    unfold no_slash in Hns. rewrite Hl in Hns.
    apply Forall_app in Hns as [_ Hc]. by apply Forall_cons in Hc as [Hc _].
  - apply last_None in Hlast. by destruct item.
Qed.

Lemma isAbsolute_append (d rest : string) :
  d <> EmptyString -> PosixPath.isAbsolute (d +:+ rest) = PosixPath.isAbsolute d.
Proof. by destruct d. Qed.

Lemma entry_name_spec (item : string) :
  entry_name item ->
  item <> EmptyString /\ no_slash item /\ item <> "." /\ item <> "..".
Proof.
  intros (Hplain & H1 & H2). apply plain_name_spec in Hplain as [H0 Hns]. done.
Qed.

Lemma join_nonempty (a b : string) :
  a <> EmptyString -> b <> EmptyString ->
  PosixPath.join a b = PosixPath.normalize (a +:+ "/" +:+ b).
Proof. by destruct a, b. Qed.

Lemma normalize_nonempty (p : string) :
  p <> EmptyString ->
  PosixPath.normalize p
  = match PosixPath.normalizeString p (negb (PosixPath.isAbsolute p)) with
    | EmptyString =>
        if PosixPath.isAbsolute p then "/"
        else if PosixPath.trailingSeparator p then "./" else "."
    | String r text =>
        let res := if PosixPath.trailingSeparator p
                   then String r text +:+ "/" else String r text in
        if PosixPath.isAbsolute p then "/" +:+ res else res
    end.
Proof.
  destruct p as [|c p]; [done|]. intros _. unfold PosixPath.normalize.
  by destruct (PosixPath.normalizeString _ _).
Qed.

Lemma append_nonempty (a b : string) : b <> EmptyString -> a +:+ b <> EmptyString.
Proof. destruct a; [done|]. discriminate. Qed.

Lemma kept_name (allowAboveRoot : bool) (l : list string) (item : string) :
  item <> EmptyString ->
  PosixPath.render (fold_left (PosixPath.step allowAboveRoot) l [] ++ [item])
  <> EmptyString.
Proof.
  intros H0 Hrender. apply render_empty in Hrender.
  - by destruct (fold_left _ l []).
  - apply Forall_app. split; [apply fold_step_kept, Forall_nil_2|].
    by apply Forall_cons_2; [|apply Forall_nil_2].
Qed.

(** The text that [path.join] returns for a directory and an entry name:
    the segments that normalisation keeps of the directory, then the name. *)
Lemma join_entry (d item : string) :
  entry_name item ->
  d <> EmptyString ->
  PosixPath.join d item
  = (if PosixPath.isAbsolute d then "/" else EmptyString) +:+
    PosixPath.render
      (fold_left (PosixPath.step (negb (PosixPath.isAbsolute d))) (PosixPath.segments d) []
       ++ [item]).
Proof.
  intros (H0 & Hns & H1 & H2)%entry_name_spec Hd.
  rewrite join_nonempty, normalize_nonempty by (try apply append_nonempty; done).
  unfold PosixPath.normalizeString.
  rewrite (isAbsolute_append d) by done.
  rewrite segments_join, fold_left_app by done.
  cbn [fold_left]. rewrite step_name by done.
  rewrite <- append_assoc, trailingSeparator_join by done.
  pose proof (kept_name (negb (PosixPath.isAbsolute d)) (PosixPath.segments d) item H0)
    as Hkept.
  destruct (PosixPath.render _) as [|r text]; [done|].
  destruct (PosixPath.isAbsolute d); reflexivity.
Qed.

Lemma join_entry_forms (d item : string) :
  entry_name item ->
  PosixPath.join d item = item \/ exists P, PosixPath.join d item = Path.join P item.
Proof.
  intros Hitem. destruct (decide (d = EmptyString)) as [->|Hd].
  - left. apply entry_name_spec in Hitem as (H0 & Hns & H1 & H2).
    assert (Hjoin : PosixPath.join EmptyString item = PosixPath.normalize item)
      by (by destruct item).
    rewrite Hjoin, normalize_nonempty by done.
    unfold PosixPath.normalizeString. rewrite segments_name by done.
    cbn [fold_left]. rewrite step_name by done. simpl.
    assert (Habs : PosixPath.isAbsolute item = false).
    { destruct item as [|i item]; [done|]. simpl. apply bool_decide_eq_false.
      unfold no_slash in Hns. simpl in Hns. by apply Forall_cons in Hns as [? _]. }
    rewrite Habs.
    assert (Htrail : PosixPath.trailingSeparator item = false)
      by (by apply (trailingSeparator_join EmptyString)).
    rewrite Htrail. by destruct item.
  - rewrite join_entry by done. rewrite render_snoc.
    unfold Path.join.
    destruct (fold_left _ _ _) as [|first others].
    + destruct (PosixPath.isAbsolute d); [right; by exists EmptyString|by left].
    + right. destruct (PosixPath.isAbsolute d).
      * exists ("/" +:+ PosixPath.render (first :: others)). by rewrite !append_assoc.
      * by eexists.
Qed.

Lemma take_component_name (l : list ascii) :
  Forall (fun c => c <> Path.slash) l -> Path.take_component l = l.
Proof.
  induction 1 as [|c l Hc Hl IH]; simpl; [reflexivity|].
  rewrite decide_False by done. by rewrite IH.
Qed.

Lemma basename_name (item : string) :
  no_slash item -> Path.basename item = item.
Proof.
  intros Hns. unfold Path.basename.
  assert (Hrev : Forall (fun c => c <> Path.slash) (rev (Js.to_list item))).
  { apply Forall_forall. intros c Hc. apply list_elem_of_In, in_rev, list_elem_of_In in Hc.
    unfold no_slash in Hns. rewrite Forall_forall in Hns. by apply Hns. }
  assert (Hdrop : Path.drop_slashes (rev (Js.to_list item)) = rev (Js.to_list item)).
  { destruct (rev (Js.to_list item)) as [|c l]; [reflexivity|].
    apply drop_slashes_first. by apply Forall_cons in Hrev as [? _]. }
  rewrite Hdrop, take_component_name, rev_involutive by done. apply of_to_list.
Qed.

(** X14. Although the suffix test is made on the path that [path.join]
    returns, only the name of the entry decides: for a name that a listing
    can give, the joined and normalised path ends in [.html] up to case
    exactly when the name does, whatever the directory is called. *)
Theorem html_suffix_of_the_entry_name (d item : string) :
  entry_name item ->
  Js.endsWith (Js.toLowerCase (PosixPath.join d item)) ".html"
  = Js.endsWith (Js.toLowerCase item) ".html".
Proof.
  intros Hitem. destruct (join_entry_forms d item Hitem) as [->|(P & ->)]; [reflexivity|].
  apply is_html_join.
Qed.

Lemma html_suffix_of_the_entry_name_witness :
  PosixPath.join "./site/old.html/" "index.HTML" = "site/old.html/index.HTML"
  /\ Js.endsWith (Js.toLowerCase (PosixPath.join "./site/old.html/" "index.HTML")) ".html"
     = Js.endsWith (Js.toLowerCase "index.HTML") ".html".
Proof.
  split; [reflexivity|].
  apply (html_suffix_of_the_entry_name "./site/old.html/" "index.HTML").
  split; [reflexivity|]. split; discriminate.
Defined.

(** X15. For a name that a listing can give, the base name of the path
    that [path.join] returns is the name itself, so that the metadata test
    of [injectFavicon] on the path agrees with the test that [injectDir]
    has made on the name. *)
Theorem metadata_tests_agree (d item : string) :
  entry_name item ->
  Path.basename (PosixPath.join d item) = item
  /\ Js.startsWith (Path.basename (PosixPath.join d item)) "._"
     = Js.startsWith item "._".
Proof.
  intros Hitem.
  assert (Hbase : Path.basename (PosixPath.join d item) = item).
  { destruct (join_entry_forms d item Hitem) as [->|(P & ->)].
    - apply basename_name. by apply entry_name_spec in Hitem as (_ & ? & _).
    - apply basename_join. by destruct Hitem. }
  by rewrite Hbase.
Qed.

Lemma metadata_tests_agree_witness :
  PosixPath.join "../pages//" "._index.html" = "../pages/._index.html"
  /\ Path.basename (PosixPath.join "../pages//" "._index.html") = "._index.html"
  /\ Js.startsWith (Path.basename (PosixPath.join "../pages//" "._index.html")) "._"
     = Js.startsWith "._index.html" "._".
Proof.
  split; [reflexivity|].
  apply (metadata_tests_agree "../pages//" "._index.html").
  split; [reflexivity|]. split; discriminate.
Defined.

(** ** How a page is counted *)

Lemma injectFavicon_false_fs `{Cheerio} (filePath : string) (opts : options)
    (w w' : world) :
  injectFavicon filePath opts w = (Ok false, w') -> fs w' = fs w.
Proof.
  intros Hrun.
  destruct (injectFavicon_effect filePath opts w) as (b & w1 & added & Hrun' & _ & _ & Hfs).
  rewrite Hrun in Hrun'. inversion Hrun'; subst.
  by destruct Hfs as [Hfs|[? _]].
Qed.

(** X16. A readable page whose content parses is counted and put in
    exactly one class by its turn, which never throws: skipped when the
    document has a favicon link, the file being left as it is; injected
    when it has none and [injectFavicon] has written the file; failed when
    it has none and the file is left as it is. *)
Theorem scan_classifies_page `{Cheerio}
    (recurse : string -> world -> option (InjectionStats * world))
    (d : string) (opts : options) (item : string) (st : InjectionStats) (w : world)
    (content : string) (writable : bool) (doc : document) :
  Js.startsWith item "._" = false ->
  fs w !! Path.join d item = Some (File content true writable) ->
  Js.endsWith (Js.toLowerCase item) ".html" = true ->
  cheerio_load content = Some doc ->
  exists st' w',
    scan_item recurse d opts item st w = Some (st', None, w')
    /\ ((hasFavicon doc = true /\ st' = incr_skipped (incr_total st) /\ fs w' = fs w)
        \/ (hasFavicon doc = false /\ st' = incr_injected (incr_total st)
            /\ exists data, fs w' = <[Path.join d item := File data true true]> (fs w))
        \/ (hasFavicon doc = false /\ st' = incr_failed (incr_total st) /\ fs w' = fs w)).
Proof.
  intros Hmeta Hnode Hhtml Hload. unfold scan_item, stat. run_monad.
  rewrite Hmeta, Hnode. simpl. rewrite is_html_join. unfold is_html_name. rewrite Hhtml.
  simpl.
  set (p := Path.join d item) in *.
  set (w0 := {| fs := fs w; log := FsCall Stat p :: log w |}).
  destruct (injectFavicon p opts w0) as [[[]|e] w1] eqn:Hrun.
  - apply injectFavicon_true_inv in Hrun
      as (content' & doc' & fo & Hnode' & _ & _ & Hload' & Hfav & _ & ->).
    simpl in Hnode'. rewrite Hnode in Hnode'. inversion Hnode'; subst content' writable.
    rewrite Hload in Hload'. inversion Hload'; subst doc'.
    eexists _, _. split; [reflexivity|]. right. left. simpl. eauto.
  - pose proof (injectFavicon_false_fs _ _ _ _ Hrun) as Hfs. simpl in Hfs.
    unfold readFile, load. run_monad. rewrite Hfs, Hnode. simpl. rewrite Hload. simpl.
    destruct (hasFavicon doc) eqn:Hfav; eexists _, _; (split; [reflexivity|]); simpl.
    + left. done.
    + right. right. done.
  - exfalso. destruct (injectFavicon_effect p opts w0) as (b & w2 & ? & Hrun' & _).
    rewrite Hrun in Hrun'. discriminate.
Qed.

Lemma scan_classifies_page_witness :
  exists st' w',
    @scan_item Sample.parser (fun _ _ => None) "/site" Omitted "b.html" zero_stats
      Sample.site_world = Some (st', None, w')
    /\ st' = {| total := 1; injected := 0; skipped := 1; failed := 0 |}.
Proof.
  destruct (@scan_classifies_page Sample.parser (fun _ _ => None) "/site" Omitted "b.html"
              zero_stats Sample.site_world Sample.page_with_icon true
              [Element "html" []
                 [Element "head" []
                    [Element "title" [] [Text "Test"];
                     Element "link" [("rel", "icon"); ("href", "/existing.ico")] []];
                  Element "body" [] []]])
    as (st' & w' & Hrun & Hclass).
  - reflexivity.
  - vm_compute. reflexivity.
  - reflexivity.
  - vm_compute. reflexivity.
  - exists st', w'. split; [exact Hrun|].
    destruct Hclass as [(_ & -> & _)|[(Hfav & _)|(Hfav & _)]];
      [reflexivity|vm_compute in Hfav; discriminate Hfav
      |vm_compute in Hfav; discriminate Hfav].
Defined.

(** X17. A page that cannot be read is counted and then stops the scan of
    its directory: [injectFavicon] answers [false], the read that should
    tell a skipped file from a failed one throws, and the loop is left with
    the total raised by one, no class given to the file, the entries after
    it untouched and the files as they were. *)
Theorem scan_stops_at_unreadable `{Cheerio}
    (recurse : string -> world -> option (InjectionStats * world))
    (d : string) (opts : options) (item : string) (rest : list string)
    (st : InjectionStats) (w : world) (content : string) (writable : bool) :
  Js.startsWith item "._" = false ->
  fs w !! Path.join d item = Some (File content false writable) ->
  Js.endsWith (Js.toLowerCase item) ".html" = true ->
  exists w',
    scan_items recurse d opts (item :: rest) st w
    = Some (incr_total st, Some (FsError Open (Path.join d item)), w')
    /\ fs w' = fs w.
Proof.
  intros Hmeta Hnode Hhtml. simpl. unfold scan_item, stat. run_monad.
  rewrite Hmeta, Hnode. simpl. rewrite is_html_join. unfold is_html_name. rewrite Hhtml.
  simpl.
  set (p := Path.join d item) in *.
  set (w0 := {| fs := fs w; log := FsCall Stat p :: log w |}).
  destruct (injectFavicon p opts w0) as [[[]|e] w1] eqn:Hrun.
  - apply injectFavicon_true_inv in Hrun as (content' & ? & ? & Hnode' & _).
    simpl in Hnode'. rewrite Hnode in Hnode'. discriminate.
  - pose proof (injectFavicon_false_fs _ _ _ _ Hrun) as Hfs. simpl in Hfs.
    unfold readFile. run_monad. rewrite Hfs, Hnode. simpl.
    eexists. split; reflexivity.
  - exfalso. destruct (injectFavicon_effect p opts w0) as (b & w2 & ? & Hrun' & _).
    rewrite Hrun in Hrun'. discriminate.
Qed.

Lemma scan_stops_at_unreadable_witness :
  exists w',
    @scan_items Sample.parser (fun _ _ => None) "/site" Omitted ["a.html"; "b.html"]
      zero_stats Sample.broken_site_world
    = Some (incr_total zero_stats, Some (FsError Open "/site/a.html"), w')
    /\ fs w' = fs Sample.broken_site_world.
Proof.
  apply (@scan_stops_at_unreadable Sample.parser (fun _ _ => None) "/site" Omitted "a.html"
           ["b.html"] zero_stats Sample.broken_site_world Sample.page_plain true).
  - reflexivity.
  - vm_compute. reflexivity.
  - reflexivity.
Defined.

(** X18. An entry that cannot be [stat]ed stops the scan of its directory
    before anything is counted for it: the loop is left with the counters
    as they were and the entries after it are not looked at. *)
Theorem scan_stops_at_broken_entry `{Cheerio}
    (recurse : string -> world -> option (InjectionStats * world))
    (d : string) (opts : options) (item : string) (rest : list string)
    (st : InjectionStats) (w : world) :
  Js.startsWith item "._" = false ->
  fs w !! Path.join d item = None ->
  scan_items recurse d opts (item :: rest) st w
  = Some (st, Some (FsError Stat (Path.join d item)),
          {| fs := fs w; log := FsCall Stat (Path.join d item) :: log w |}).
Proof.
  intros Hmeta Hnode. simpl. unfold scan_item, stat. run_monad.
  by rewrite Hmeta, Hnode.
Qed.

Lemma scan_stops_at_broken_entry_witness :
  @scan_items Sample.parser (fun _ _ => None) "/site" Omitted ["gone.html"; "a.html"]
    zero_stats Sample.site_world
  = Some (zero_stats, Some (FsError Stat "/site/gone.html"),
          {| fs := fs Sample.site_world;
             log := FsCall Stat "/site/gone.html" :: log Sample.site_world |}).
Proof.
  apply (@scan_stops_at_broken_entry Sample.parser (fun _ _ => None) "/site" Omitted
           "gone.html" ["a.html"] zero_stats Sample.site_world).
  - reflexivity.
  - vm_compute. reflexivity.
Defined.

(** X19. A subdirectory that cannot be listed does not stop the scan of
    its parent: the recursive call catches the error, logs it and returns
    zeros, and the turn of the parent ends normally with the counters as
    they were. *)
Theorem scan_passes_unlistable_subdirectory `{Cheerio} (fuel : nat) (d : string)
    (opts : options) (item : string) (st : InjectionStats) (w : world) :
  Js.startsWith item "._" = false ->
  fs w !! Path.join d item = Some (Dir None) ->
  scan_item (fun p => injectDir (S fuel) p opts) d opts item st w
  = Some (st, None,
          {| fs := fs w;
             log := ConsoleError ("Error scanning directory " +:+ Path.join d item +:+ ":")
                      (FsError Scandir (Path.join d item))
                    :: FsCall Scandir (Path.join d item)
                    :: FsCall Access (Path.join d item)
                    :: FsCall Stat (Path.join d item) :: log w |}).
Proof.
  intros Hmeta Hnode. unfold scan_item, stat. run_monad.
  rewrite Hmeta, Hnode. simpl. unfold pathExists, readdir, injectDir_catch. run_monad.
  rewrite Hnode. rewrite bool_decide_eq_true_2 by eauto. simpl.
  by rewrite add_stats_zero_r.
Qed.

Lemma scan_passes_unlistable_subdirectory_witness :
  fst <$> @injectDir Sample.parser 3 "/www" Omitted
            {| fs := list_to_map
                       [("/www", Dir (Some ["locked"; "a.html"]));
                        ("/www/locked", Dir None);
                        ("/www/a.html", File Sample.page_plain true true)];
               log := [] |}
  = Some {| total := 1; injected := 1; skipped := 0; failed := 0 |}
  /\ exists w',
       @scan_item Sample.parser (fun p => @injectDir Sample.parser 2 p Omitted) "/www"
         Omitted "locked"
         zero_stats
         {| fs := list_to_map
                    [("/www", Dir (Some ["locked"; "a.html"]));
                     ("/www/locked", Dir None);
                     ("/www/a.html", File Sample.page_plain true true)];
            log := [] |} = Some (zero_stats, None, w').
Proof.
  split; [vm_compute; reflexivity|].
  eexists.
  apply (@scan_passes_unlistable_subdirectory Sample.parser 1 "/www" Omitted "locked").
  - reflexivity.
  - vm_compute. reflexivity.
Defined.

(** ** Written files are counted *)

Lemma scan_item_writes `{Cheerio}
    (recurse : string -> world -> option (InjectionStats * world))
    (d : string) (opts : options) (item : string)
    (st st' : InjectionStats) (w w' : world) (err : option error) :
  (forall p w0 sub w1, recurse p w0 = Some (sub, w1) ->
     0 <= injected sub /\ (fs w1 = fs w0 \/ 0 < injected sub)) ->
  scan_item recurse d opts item st w = Some (st', err, w') ->
  injected st <= injected st' /\ (fs w' = fs w \/ injected st < injected st').
Proof.
  intros Hrec. unfold scan_item.
  destruct (Js.startsWith item "._"); [intros; simplify_eq; split; [lia|by left]|].
  unfold stat. run_monad.
  destruct (fs w !! Path.join d item) as [node|] eqn:Hnode; simpl;
    [|intros; simplify_eq; split; [lia|by left]].
  destruct (isDirectory node).
  { destruct (recurse _ _) as [[sub w1]|] eqn:Hsub; [|discriminate].
    intros; simplify_eq. apply Hrec in Hsub as [Hge Hfs]. simpl in *.
    split; [lia|]. destruct Hfs as [Hfs|Hlt]; [by left|right; lia]. }
  destruct (isFile node && _); [|intros; simplify_eq; split; [lia|by left]].
  set (w0 := {| fs := fs w; log := FsCall Stat (Path.join d item) :: log w |}).
  destruct (injectFavicon_effect (Path.join d item) opts w0)
    as (b & w1 & added & Hrun & _ & _ & Hfs).
  rewrite Hrun. destruct b.
  { intros; simplify_eq. simpl. split; [lia|right; lia]. }
  assert (Hfs1 : fs w1 = fs w) by (by destruct Hfs as [Hfs|[? _]]).
  unfold readFile, load. run_monad.
  repeat (case_match; simpl in *; simplify_eq); intros; simplify_eq; simpl;
    (split; [lia|by left]).
Qed.

Lemma scan_items_writes `{Cheerio}
    (recurse : string -> world -> option (InjectionStats * world))
    (d : string) (opts : options) (items : list string)
    (st st' : InjectionStats) (w w' : world) (err : option error) :
  (forall p w0 sub w1, recurse p w0 = Some (sub, w1) ->
     0 <= injected sub /\ (fs w1 = fs w0 \/ 0 < injected sub)) ->
  scan_items recurse d opts items st w = Some (st', err, w') ->
  injected st <= injected st' /\ (fs w' = fs w \/ injected st < injected st').
Proof.
  intros Hrec. revert st w. induction items as [|item rest IH]; intros st w; simpl.
  - intros; simplify_eq. split; [lia|by left].
  - destruct (scan_item recurse d opts item st w) as [[[st1 [e|]] w1]|] eqn:Hitem;
      [| |discriminate].
    + intros; simplify_eq. by eapply scan_item_writes.
    + intros Hrest. apply scan_item_writes in Hitem as [Hle1 Hfs1]; [|done].
      apply IH in Hrest as [Hle2 Hfs2]. split; [lia|].
      destruct Hfs1 as [Hfs1|Hlt1]; [|right; lia].
      destruct Hfs2 as [Hfs2|Hlt2]; [left; congruence|right; lia].
Qed.

Lemma injectDir_writes `{Cheerio} (fuel : nat) (d : string) (opts : options)
    (w w' : world) (st : InjectionStats) :
  injectDir fuel d opts w = Some (st, w') ->
  0 <= injected st /\ (fs w' = fs w \/ 0 < injected st).
Proof.
  revert d w w' st. induction fuel as [|fuel IH]; intros d w w' st; [discriminate|].
  rewrite injectDir_unfold. unfold pathExists, readdir, injectDir_catch. run_monad.
  destruct (bool_decide (is_Some (fs w !! d)));
    [|intros; simplify_eq; simpl; split; [lia|by left]].
  destruct (fs w !! d) as [[| [items|] |]|]; simpl;
    try (intros; simplify_eq; simpl; split; [lia|by left]).
  destruct (scan_items _ d opts items zero_stats _) as [[[st1 [e|]] w1]|] eqn:Hscan;
    [| |discriminate]; intros; simplify_eq;
    (apply scan_items_writes in Hscan as [Hle Hfs]; [|intros; by eapply IH]);
    simpl in *; (split; [lia|]); (destruct Hfs as [Hfs|Hlt]; [by left|right; lia]).
Qed.

(** X20. The counter of injected files accounts for every change: when a
    scan answers that it has injected no file, the filesystem is as it was
    before the scan. *)
Theorem nothing_injected_nothing_changed `{Cheerio} (fuel : nat) (d : string)
    (opts : options) (w : world) :
  (depth_bound (fs w) < fuel)%nat ->
  exists st w',
    injectDir fuel d opts w = Some (st, w')
    /\ 0 <= injected st
    /\ (injected st = 0 -> fs w' = fs w).
Proof.
  intros Hfuel. destruct (injectDir_returns fuel d opts w Hfuel) as (st & w' & Hrun).
  exists st, w'. split; [exact Hrun|].
  apply injectDir_writes in Hrun as [Hge Hfs]. split; [exact Hge|].
  intros Hzero. destruct Hfs as [Hfs|Hlt]; [exact Hfs|lia].
Qed.

Lemma nothing_injected_nothing_changed_witness :
  exists st w',
    @injectDir Sample.parser 20 "/site" Omitted Sample.broken_site_world = Some (st, w')
    /\ fs w' = fs Sample.broken_site_world.
Proof.
  destruct (@nothing_injected_nothing_changed Sample.parser 20 "/site" Omitted
              Sample.broken_site_world) as (st & w' & Hrun & _ & Hsame).
  - vm_compute. lia.
  - exists st, w'. split; [exact Hrun|]. apply Hsame.
    vm_compute in Hrun. inversion Hrun. reflexivity.
Defined.

Lemma filter_all {A} (P : A -> Prop) `{forall x, Decision (P x)} (l : list A) :
  Forall P l -> filter P l = l.
Proof.
  induction 1 as [|x l Hx Hl IH]; [reflexivity|].
  by rewrite filter_cons, decide_True, IH.
Qed.

(** X21. A tree in which every page reached already has a favicon link is
    left untouched by a scan on which no call fails: every page is counted
    as skipped, none as injected or failed, and no file is changed. *)
Theorem scan_of_finished_tree `{Cheerio} (fuel : nat) (d : string) (opts : options)
    (w : world) :
  accepted opts ->
  error_free fuel (fs w) d = true ->
  Forall (fun p => has_favicon_file (fs w) p = true) (reached_html_files fuel (fs w) d) ->
  let N := Z.of_nat (length (reached_html_files fuel (fs w) d)) in
  exists w',
    injectDir fuel d opts w
    = Some ({| total := N; injected := 0; skipped := N; failed := 0 |}, w')
    /\ fs w' = fs w.
Proof.
  intros Hopts Hok Hall N.
  destruct (injectDir_counts opts fuel d w (accepted_path_is_string opts Hopts) Hok)
    as (w' & Hrun).
  unfold expected_stats in Hrun. rewrite (filter_all _ _ Hall) in Hrun. fold N in Hrun.
  replace (N - N) with 0 in Hrun by lia.
  exists w'. split; [exact Hrun|].
  apply injectDir_writes in Hrun as [_ [Hfs|Hlt]]; [exact Hfs|simpl in Hlt; lia].
Qed.

Lemma scan_of_finished_tree_witness :
  exists w',
    @injectDir Sample.parser 3 "/www" Omitted
      {| fs := list_to_map
                 [("/www", Dir (Some ["b.html"; "._b.html"]));
                  ("/www/b.html", File Sample.page_with_icon true false);
                  ("/www/._b.html", File "Mac OS X" true true)];
         log := [] |}
    = Some ({| total := 1; injected := 0; skipped := 1; failed := 0 |}, w')
    /\ fs w' = list_to_map
                 [("/www", Dir (Some ["b.html"; "._b.html"]));
                  ("/www/b.html", File Sample.page_with_icon true false);
                  ("/www/._b.html", File "Mac OS X" true true)].
Proof.
  destruct (@scan_of_finished_tree Sample.parser 3 "/www" Omitted
              {| fs := list_to_map
                         [("/www", Dir (Some ["b.html"; "._b.html"]));
                          ("/www/b.html", File Sample.page_with_icon true false);
                          ("/www/._b.html", File "Mac OS X" true true)];
                 log := [] |}) as (w' & Hrun & Hfs).
  - exact I.
  - vm_compute. reflexivity.
  - vm_compute. repeat constructor.
  - exists w'. split; [rewrite Hrun; vm_compute; reflexivity|exact Hfs].
Defined.

(** ** Where a scan goes *)









(** ** The order of a listing *)

Lemma reordered_cases (m1 m2 : gmap string fs_node) (q : string) :
  reordered m1 m2 ->
  m1 !! q = m2 !! q
  \/ exists l1 l2, m1 !! q = Some (Dir (Some l1)) /\ m2 !! q = Some (Dir (Some l2))
                   /\ l1 ≡ₚ l2.
Proof.
  intros Hr. specialize (Hr q).
  destruct (m1 !! q) as [n1|], (m2 !! q) as [n2|]; try done; [|by left].
  destruct n1 as [| [l1|] |], n2 as [| [l2|] |]; simpl in Hr; try (left; congruence).
  right. by exists l1, l2.
Qed.

Lemma flat_map_perm {A B} (f g : A -> list B) (l1 l2 : list A) :
  l1 ≡ₚ l2 -> (forall x, f x ≡ₚ g x) -> flat_map f l1 ≡ₚ flat_map g l2.
Proof.
  intros Hperm Hfg. induction Hperm as [|x l1 l2 Hp IH|x y l|l1 l2 l3 H12 IH12 H23 IH23];
    simpl.
  - reflexivity.
  - by rewrite (Hfg x), IH.
  - rewrite (Hfg x), (Hfg y), !app_assoc.
    assert (Hl : flat_map f l ≡ₚ flat_map g l).
    { clear -Hfg. induction l as [|z l IH]; simpl; [reflexivity|]. by rewrite (Hfg z), IH. }
    rewrite Hl. f_equiv. apply Permutation_app_comm.
  - etransitivity; [exact IH12|].
    assert (Hl : flat_map g l2 ≡ₚ flat_map f l2).
    { clear -Hfg. induction l2 as [|z l IH]; simpl; [reflexivity|]. by rewrite (Hfg z), IH. }
    etransitivity; [exact Hl|exact IH23].
Qed.

Lemma forallb_perm {A} (f : A -> bool) (l1 l2 : list A) :
  l1 ≡ₚ l2 -> forallb f l1 = forallb f l2.
Proof.
  induction 1 as [|x l1 l2 Hp IH|x y l|l1 l2 l3 H12 IH12 H23 IH23]; simpl.
  - reflexivity.
  - by rewrite IH.
  - destruct (f x), (f y); reflexivity.
  - congruence.
Qed.

Lemma html_files_reordered (skip : string -> bool) (fuel : nat)
    (m1 m2 : gmap string fs_node) (d : string) :
  reordered m1 m2 -> html_files skip fuel m1 d ≡ₚ html_files skip fuel m2 d.
Proof.
  intros Hr. revert d. induction fuel as [|fuel IH]; intros d; simpl; [reflexivity|].
  assert (Hentry : forall item,
            entry_files skip (html_files skip fuel m1) m1 d item
            ≡ₚ entry_files skip (html_files skip fuel m2) m2 d item).
  { intros item. unfold entry_files. destruct (skip item); [reflexivity|].
    destruct (reordered_cases m1 m2 (Path.join d item) Hr)
      as [Heq|(l1 & l2 & -> & -> & _)]; [|apply IH].
    rewrite Heq. destruct (m2 !! Path.join d item) as [[| |]|]; try reflexivity.
    apply IH. }
  destruct (reordered_cases m1 m2 d Hr) as [Heq|(l1 & l2 & -> & -> & Hperm)].
  - rewrite Heq. destruct (m2 !! d) as [[| [items|] |]|]; try reflexivity.
    by apply flat_map_perm.
  - by apply flat_map_perm.
Qed.

Lemma error_free_reordered `{Cheerio} (fuel : nat) (m1 m2 : gmap string fs_node)
    (d : string) :
  reordered m1 m2 -> error_free fuel m1 d = error_free fuel m2 d.
Proof.
  intros Hr. revert d. induction fuel as [|fuel IH]; intros d; simpl; [reflexivity|].
  assert (Hentry : forall item,
            entry_ok (error_free fuel m1) m1 d item
            = entry_ok (error_free fuel m2) m2 d item).
  { intros item. unfold entry_ok. f_equal.
    destruct (is_metadata_name item); [reflexivity|].
    destruct (reordered_cases m1 m2 (Path.join d item) Hr)
      as [Heq|(l1 & l2 & -> & -> & _)]; [|apply IH].
    rewrite Heq. destruct (m2 !! Path.join d item) as [[| |]|]; try reflexivity.
    apply IH. }
  destruct (reordered_cases m1 m2 d Hr) as [Heq|(l1 & l2 & -> & -> & Hperm)].
  - rewrite Heq. destruct (m2 !! d) as [[| [items|] |]|]; try reflexivity.
    f_equal. apply forallb_ext_in. auto.
  - f_equal.
    + apply bool_decide_ext. by rewrite Hperm.
    + rewrite (forallb_perm _ l1 l2 Hperm). apply forallb_ext_in. auto.
Qed.

Lemma has_favicon_file_reordered `{Cheerio} (m1 m2 : gmap string fs_node) (q : string) :
  reordered m1 m2 -> has_favicon_file m1 q = has_favicon_file m2 q.
Proof.
  intros Hr. unfold has_favicon_file.
  destruct (reordered_cases m1 m2 q Hr) as [Heq|(l1 & l2 & -> & -> & _)]; [|reflexivity].
  by rewrite Heq.
Qed.

Lemma expected_stats_reordered `{Cheerio} (m1 m2 : gmap string fs_node)
    (l1 l2 : list string) :
  reordered m1 m2 -> l1 ≡ₚ l2 -> expected_stats m1 l1 = expected_stats m2 l2.
Proof.
  intros Hr Hperm. unfold expected_stats.
  assert (Hfilter : filter (fun p => has_favicon_file m1 p = true) l1
                    ≡ₚ filter (fun p => has_favicon_file m2 p = true) l2).
  { rewrite <- Hperm. clear Hperm. induction l1 as [|q l IH]; [reflexivity|].
    rewrite !filter_cons, (has_favicon_file_reordered m1 m2 q Hr).
    destruct (decide _); by rewrite IH. }
  by rewrite (Permutation_length Hperm), (Permutation_length Hfilter).
Qed.

(** X23. On a tree where no call fails the counters do not depend on the
    order in which the directories list their entries: two filesystems that
    differ only by that order give the same counters. *)
Theorem counters_do_not_depend_on_order `{Cheerio} (fuel : nat) (d : string)
    (opts : options) (w1 w2 : world) :
  accepted opts ->
  error_free fuel (fs w1) d = true ->
  reordered (fs w1) (fs w2) ->
  exists st w1' w2',
    injectDir fuel d opts w1 = Some (st, w1')
    /\ injectDir fuel d opts w2 = Some (st, w2').
Proof.
  intros Hopts Hok Hr.
  pose proof (accepted_path_is_string opts Hopts) as Hpath.
  destruct (injectDir_counts opts fuel d w1 Hpath Hok) as (w1' & Hrun1).
  destruct (injectDir_counts opts fuel d w2 Hpath) as (w2' & Hrun2).
  { by rewrite <- (error_free_reordered fuel (fs w1) (fs w2) d Hr). }
  eexists _, w1', w2'. split; [exact Hrun1|]. rewrite Hrun2. f_equal. f_equal.
  symmetry. apply expected_stats_reordered; [done|]. by apply html_files_reordered.
Qed.

Lemma counters_do_not_depend_on_order_witness :
  exists st w1' w2',
    @injectDir Sample.parser 20 "/site" Omitted Sample.site_world = Some (st, w1')
    /\ @injectDir Sample.parser 20 "/site" Omitted
         {| fs := <["/site" := Dir (Some ["sub"; "notes.txt"; "._c.html"; "b.html";
                                          "a.html"])]> Sample.site;
            log := [] |} = Some (st, w2').
Proof.
  apply (@counters_do_not_depend_on_order Sample.parser 20 "/site" Omitted
           Sample.site_world).
  - exact I.
  - vm_compute. reflexivity.
  - intros q. simpl. destruct (decide (q = "/site")) as [->|Hne].
    + rewrite lookup_insert_eq.
      replace (Sample.site !! "/site")
        with (Some (Dir (Some ["a.html"; "b.html"; "._c.html"; "notes.txt"; "sub"])))
        by (vm_compute; reflexivity).
      simpl. apply (Permutation_rev ["a.html"; "b.html"; "._c.html"; "notes.txt"; "sub"]).
    + rewrite lookup_insert_ne by done.
      destruct (Sample.site !! q) as [[| [l|] |]|]; simpl; reflexivity.
Defined.

(** ** The presence check of the tests *)

Lemma same_value_eq (a b : Js.value) : same_value a b = true <-> a = b.
Proof.
  destruct a as [| |s], b as [| |t]; simpl; try (split; [discriminate|congruence]);
    try done.
  rewrite bool_decide_eq_true. split; congruence.
Qed.

Lemma tests_rel_spec (v : Js.value) :
  Js.truthy v && (Js.strict_eq v "icon" || Js.strict_eq v "shortcut icon") = true
  <-> v = Js.Str "icon" \/ v = Js.Str "shortcut icon".
Proof.
  split.
  - intros Hv. apply andb_true_iff in Hv as [_ Hv]. apply orb_true_iff in Hv.
    destruct v as [| |s]; simpl in Hv; try (destruct Hv; discriminate).
    destruct Hv as [Hv|Hv]; apply bool_decide_eq_true in Hv; subst; auto.
  - intros [->| ->]; reflexivity.
Qed.

Lemma tests_loop_true (links : list dom_node) (expected : Js.value) :
  Tests.hasFavicon_loop links expected = true ->
  exists link, link ∈ links
    /\ (attr "rel" link = Js.Str "icon" \/ attr "rel" link = Js.Str "shortcut icon")
    /\ (Js.truthy expected = true -> attr "href" link = expected).
Proof.
  induction links as [|link rest IH]; simpl; [discriminate|].
  destruct (Js.truthy (attr "rel" link) && _) eqn:Hrel.
  - intros Hres. exists link. split; [apply list_elem_of_here|].
    split; [by apply tests_rel_spec|].
    intros Htruthy. rewrite Htruthy in Hres. by apply same_value_eq.
  - intros Hres. destruct (IH Hres) as (l & Hin & Hl). exists l.
    split; [by apply list_elem_of_further|done].
Qed.

(** X24. The helper of the tests is at least as strict as the check of the
    library: when it answers [true], the text loads, [hasFavicon] holds of
    the loaded document, and some [link] element has the [rel] [icon] or
    [shortcut icon] and, when a path is expected, that path as its
    [href]. *)
Theorem tests_helper_is_stricter `{Cheerio} (html : string) (expected : Js.value) :
  Tests.hasFavicon html expected = Some true ->
  exists doc link,
    cheerio_load html = Some doc
    /\ hasFavicon doc = true
    /\ link ∈ select "link" doc
    /\ (attr "rel" link = Js.Str "icon" \/ attr "rel" link = Js.Str "shortcut icon")
    /\ (Js.truthy expected = true -> attr "href" link = expected).
Proof.
  unfold Tests.hasFavicon. destruct (cheerio_load html) as [doc|]; [|discriminate].
  intros Hres. injection Hres as Hres.
  destruct (tests_loop_true _ _ Hres) as (link & Hin & Hrel & Hhref).
  exists doc, link. split; [done|]. split; [|done].
  apply hasFavicon_exists.
  destruct Hrel as [Hrel|Hrel]; eexists link, _; (split; [done|]); (split; [exact Hrel|]);
    auto.
Qed.

Lemma tests_helper_is_stricter_witness :
  exists doc link,
    @cheerio_load Sample.parser Sample.page_with_icon = Some doc
    /\ hasFavicon doc = true
    /\ link ∈ select "link" doc
    /\ (attr "rel" link = Js.Str "icon" \/ attr "rel" link = Js.Str "shortcut icon")
    /\ (Js.truthy (Js.Str "/existing.ico") = true
        -> attr "href" link = Js.Str "/existing.ico").
Proof.
  apply (@tests_helper_is_stricter Sample.parser Sample.page_with_icon
           (Js.Str "/existing.ico")).
  vm_compute. reflexivity.
Defined.

Lemma tests_loop_first (links : list dom_node) (expected : Js.value) :
  Js.truthy expected = true ->
  Forall (fun l => attr "rel" l = Js.Str "icon" \/ attr "rel" l = Js.Str "shortcut icon"
                   -> attr "href" l = expected) links ->
  Exists (fun l => attr "rel" l = Js.Str "icon" \/ attr "rel" l = Js.Str "shortcut icon")
         links ->
  Tests.hasFavicon_loop links expected = true.
Proof.
  intros Htruthy. induction links as [|link rest IH]; intros Hall Hex; simpl.
  - by apply Exists_nil in Hex.
  - apply Forall_cons in Hall as [Hlink Hrest].
    destruct (Js.truthy (attr "rel" link) && _) eqn:Hrel.
    + rewrite Htruthy. apply same_value_eq. apply Hlink. by apply tests_rel_spec.
    + apply IH; [done|]. apply Exists_cons in Hex as [Hex|Hex]; [|done].
      apply tests_rel_spec in Hex. congruence.
Qed.

(** X25. What the tests assert after an injection holds of every page: when
    the configured [rel] is [icon] or [shortcut icon], the path is a
    non-empty string, the markup of the tag parses to [link] elements with
    that [rel] and that [href], and the page written is read back with the
    same [link] elements, then the call returns [true] and the helper of
    the tests, given the new content of the file and the configured path,
    answers [true]. *)
Theorem injected_page_passes_the_tests `{Cheerio} (p : string) (opts : options) (w : world)
    (content : string) (doc doc' : document) (fo : FaviconOptions) :
  fs w !! p = Some (File content true true) ->
  Js.startsWith (Path.basename p) "._" = false ->
  detect_type (with_defaults (options_as_object opts)) w = (Ok fo, w) ->
  cheerio_load content = Some doc ->
  hasFavicon doc = false ->
  select "head" doc <> [] ->
  rel fo = Js.Str "icon" \/ rel fo = Js.Str "shortcut icon" ->
  Js.truthy (path fo) = true ->
  select "link" (cheerio_parse (link_tag fo)) <> [] ->
  Forall (fun l => attr "rel" l = rel fo /\ attr "href" l = path fo)
         (select "link" (cheerio_parse (link_tag fo))) ->
  cheerio_load (cheerio_html (append "head" (cheerio_parse (link_tag fo)) doc)) = Some doc' ->
  select "link" doc' = select "link" (append "head" (cheerio_parse (link_tag fo)) doc) ->
  exists w' html',
    injectFavicon p opts w = (Ok true, w')
    /\ fs w' !! p = Some (File html' true true)
    /\ Tests.hasFavicon html' (path fo) = Some true.
Proof.
  intros Hfile Hname Hdetect Hload Hfav Hhead Hrel Htruthy Hsome Hparse Hback Hlinks.
  destruct (injectFavicon_injects p opts w content true doc fo) as (w' & Hrun & Hfs);
    try done.
  exists w', (cheerio_html (append "head" (cheerio_parse (link_tag fo)) doc)).
  split; [done|]. split; [rewrite Hfs; apply lookup_insert_eq|].
  unfold Tests.hasFavicon. rewrite Hback, Hlinks. f_equal.
  rewrite Forall_forall in Hparse.
  apply tests_loop_first; [done| |].
  - eapply Forall_impl; [apply select_append_inv|]. simpl.
    intros l [Hl|(l0 & Hin & Hl)] Hl'.
    + by apply Hparse.
    + exfalso. assert (Hyes : hasFavicon doc = true); [|congruence].
      apply hasFavicon_exists. rewrite (Hl "rel") in Hl'.
      destruct Hl' as [Hl'|Hl']; eexists l0, _; (split; [done|]);
        (split; [exact Hl'|]); auto.
  - destruct (select "link" (cheerio_parse (link_tag fo))) as [|x xs] eqn:Hsel; [done|].
    apply Exists_exists. exists x.
    assert (Hx : x ∈ select "link" (cheerio_parse (link_tag fo))).
    { rewrite Hsel. apply list_elem_of_here. }
    split.
    + apply select_link_append; [done|]. done.
    + destruct (Hparse x) as [Hr _]; [first [exact Hx|apply list_elem_of_here]|].
      by rewrite Hr.
Qed.

Lemma injected_page_passes_the_tests_witness :
  exists w' html',
    @injectFavicon Sample.parser "/site/a.html" (Bare "/test-favicon.ico")
      Sample.site_world = (Ok true, w')
    /\ fs w' !! "/site/a.html" = Some (File html' true true)
    /\ @Tests.hasFavicon Sample.parser html' (Js.Str "/test-favicon.ico") = Some true.
Proof.
  apply (@injected_page_passes_the_tests Sample.parser "/site/a.html"
           (Bare "/test-favicon.ico") Sample.site_world
           Sample.page_plain Sample.doc_plain
           (append "head"
              [Element "link" [("rel", "icon"); ("href", "/test-favicon.ico");
                               ("type", "image/x-icon")] []] Sample.doc_plain)
           {| path := Js.Str "/test-favicon.ico"; rel := Js.Str "icon";
              type := Js.Str "image/x-icon"; sizes := Js.Null |}).
  - vm_compute. reflexivity.
  - vm_compute. reflexivity.
  - vm_compute. reflexivity.
  - vm_compute. reflexivity.
  - vm_compute. reflexivity.
  - vm_compute. discriminate.
  - left. reflexivity.
  - reflexivity.
  - vm_compute. discriminate.
  - vm_compute. apply Forall_cons_2; [split; reflexivity|apply Forall_nil_2].
  - vm_compute. reflexivity.
  - vm_compute. reflexivity.
Defined.

(** ** A path that is no directory *)

(** X26. [injectDir] on a path that cannot be listed returns zeros, logs
    one error and leaves the filesystem as it is: a path that names nothing
    is reported as a directory that does not exist, without a [readdir];
    a path that names a file, or a directory that cannot be read, is
    reported with the error of the [readdir]. *)
Theorem injectDir_not_a_directory `{Cheerio} (fuel : nat) (d : string) (opts : options)
    (w : world) :
  (forall items, fs w !! d <> Some (Dir (Some items))) ->
  injectDir (S fuel) d opts w
  = Some (zero_stats,
          {| fs := fs w;
             log := match fs w !! d with
                    | None =>
                        [ConsoleError ("Error scanning directory " +:+ d +:+ ":")
                           (JsError ("Directory " +:+ d +:+ " does not exist"));
                         FsCall Access d]
                    | Some _ =>
                        [ConsoleError ("Error scanning directory " +:+ d +:+ ":")
                           (FsError Scandir d);
                         FsCall Scandir d; FsCall Access d]
                    end ++ log w |}).
Proof.
  intros Hnode. rewrite injectDir_unfold.
  unfold pathExists, readdir, injectDir_catch. run_monad.
  destruct (fs w !! d) as [[| [items|] |]|] eqn:Hd; simpl; try reflexivity.
  by destruct (Hnode items).
Qed.

Lemma injectDir_not_a_directory_witness :
  @injectDir Sample.parser 1 "/site/a.html" Omitted Sample.site_world
  = Some (zero_stats,
          {| fs := Sample.site;
             log := [ConsoleError "Error scanning directory /site/a.html:"
                       (FsError Scandir "/site/a.html");
                     FsCall Scandir "/site/a.html"; FsCall Access "/site/a.html"] |})
  /\ @injectDir Sample.parser 1 "/nowhere" Omitted Sample.site_world
     = Some (zero_stats,
             {| fs := Sample.site;
                log := [ConsoleError "Error scanning directory /nowhere:"
                          (JsError "Directory /nowhere does not exist");
                        FsCall Access "/nowhere"] |}).
Proof.
  split.
  - rewrite (@injectDir_not_a_directory Sample.parser 0 "/site/a.html" Omitted
               Sample.site_world); [vm_compute; reflexivity|].
    intros items. vm_compute. discriminate.
  - rewrite (@injectDir_not_a_directory Sample.parser 0 "/nowhere" Omitted
               Sample.site_world); [vm_compute; reflexivity|].
    intros items. vm_compute. discriminate.
Defined.

(** ** A second scan *)

Lemma rewritten_cases (d : string) (m m' : gmap string fs_node) (q : string) :
  rewritten d m m' ->
  m' !! q = m !! q
  \/ exists content content' readable,
       m !! q = Some (File content readable true)
       /\ m' !! q = Some (File content' readable true).
Proof. intros Hr. destruct (Hr q) as [E|(_ & Hq)]; [by left|by right]. Qed.

Lemma html_files_rewritten (skip : string -> bool) (fuel : nat) (d0 : string)
    (m m' : gmap string fs_node) (d : string) :
  rewritten d0 m m' -> html_files skip fuel m' d = html_files skip fuel m d.
Proof.
  intros Hr. revert d. induction fuel as [|fuel IH]; intros d; simpl; [reflexivity|].
  assert (Hentry : forall item,
            entry_files skip (html_files skip fuel m') m' d item
            = entry_files skip (html_files skip fuel m) m d item).
  { intros item. unfold entry_files. destruct (skip item); [reflexivity|].
    destruct (rewritten_cases d0 m m' (Path.join d item) Hr)
      as [Heq|(c & c' & r & -> & ->)]; [|reflexivity].
    rewrite Heq. destruct (m !! Path.join d item) as [[| |]|]; try reflexivity.
    apply IH. }
  destruct (rewritten_cases d0 m m' d Hr) as [Heq|(c & c' & r & -> & ->)]; [|reflexivity].
  rewrite Heq. destruct (m !! d) as [[| [items|] |]|]; try reflexivity.
  apply flat_map_ext_in. auto.
Qed.

Lemma error_free_rewritten `{Cheerio} (fuel : nat) (d0 : string)
    (m m' : gmap string fs_node) (d : string) :
  rewritten d0 m m' ->
  error_free fuel m d = true ->
  (forall p, p ∈ reached_html_files fuel m d -> has_favicon_file m' p = true) ->
  error_free fuel m' d = true.
Proof.
  intros Hr. revert d. induction fuel as [|fuel IH]; intros d Hok Hfav; [discriminate|].
  simpl in *. unfold reached_html_files in Hfav. simpl in Hfav.
  destruct (rewritten_cases d0 m m' d Hr) as [Heq|(c & c' & r & Hm & _)];
    [|by rewrite Hm in Hok].
  rewrite Heq. destruct (m !! d) as [[| [items|] |]|]; try discriminate.
  apply andb_true_iff in Hok as [Hnodup Hok]. rewrite Hnodup. simpl.
  apply forallb_forall. intros item Hin.
  pose proof (proj1 (forallb_forall _ _) Hok item Hin) as Hitem.
  assert (Hsub : forall p,
            p ∈ entry_files is_metadata_name (html_files is_metadata_name fuel m) m d item
            -> has_favicon_file m' p = true).
  { intros p Hp. apply Hfav. apply list_elem_of_In, in_flat_map. exists item.
    split; [done|by apply list_elem_of_In]. }
  unfold entry_ok, entry_files in *.
  apply andb_true_iff in Hitem as [Hplain Hitem]. rewrite Hplain. simpl.
  destruct (is_metadata_name item); [reflexivity|].
  destruct (rewritten_cases d0 m m' (Path.join d item) Hr)
    as [Heq'|(c & c' & r & Hm & Hm')].
  - rewrite Heq'.
    destruct (m !! Path.join d item) as [[content readable writable| |]|] eqn:Hnode;
      try done.
    by apply IH.
  - rewrite Hm in *. rewrite Hm'.
    destruct (is_html_name item); [|reflexivity].
    specialize (Hsub _ (list_elem_of_here _ _)). unfold has_favicon_file in Hsub.
    rewrite Hm' in Hsub. simpl in *.
    apply andb_true_iff in Hitem as [-> _]. simpl.
    destruct (cheerio_load c'); [|discriminate]. by rewrite Hsub.
Qed.

(** X27. A second scan finds nothing to do: after a scan on which no call
    fails, when every page reached is read back with a favicon link, the
    same scan run again counts the same files, all of them as skipped and
    none as injected or failed, and changes no file. *)
Theorem second_scan_injects_nothing `{Cheerio} (fuel : nat) (d : string) (opts : options)
    (w w1 : world) (st : InjectionStats) :
  accepted opts ->
  error_free fuel (fs w) d = true ->
  injectDir fuel d opts w = Some (st, w1) ->
  forallb (has_favicon_file (fs w1)) (reached_html_files fuel (fs w) d) = true ->
  exists w2,
    injectDir fuel d opts w1
    = Some ({| total := total st; injected := 0; skipped := total st; failed := 0 |}, w2)
    /\ fs w2 = fs w1.
Proof.
  intros Hopts Hok Hrun Hfav.
  pose proof (accepted_path_is_string opts Hopts) as Hpath.
  destruct (injectDir_counts opts fuel d w Hpath Hok) as (w1' & Hrun').
  rewrite Hrun in Hrun'. injection Hrun' as -> _.
  apply injectDir_inv in Hrun as (Hr & _).
  assert (Hall : forall p, p ∈ reached_html_files fuel (fs w) d ->
                   has_favicon_file (fs w1) p = true).
  { intros p Hp. apply (proj1 (forallb_forall _ _) Hfav). by apply list_elem_of_In. }
  assert (Hfiles : reached_html_files fuel (fs w1) d = reached_html_files fuel (fs w) d).
  { by apply (html_files_rewritten _ _ d). }
  destruct (injectDir_counts opts fuel d w1 Hpath) as (w2 & Hrun2).
  { by apply (error_free_rewritten fuel d (fs w)). }
  rewrite Hfiles in Hrun2. unfold expected_stats in Hrun2.
  rewrite filter_all in Hrun2 by (by apply Forall_forall).
  exists w2. simpl.
  replace (_ - _) with 0 in Hrun2 by lia.
  split; [exact Hrun2|].
  apply injectDir_writes in Hrun2 as [_ [Hfs|Hlt]]; [exact Hfs|simpl in Hlt; lia].
Qed.

Lemma second_scan_injects_nothing_witness :
  exists w1 w2,
    @injectDir Sample.parser 20 "/site" Omitted Sample.site_world
    = Some ({| total := 3; injected := 2; skipped := 1; failed := 0 |}, w1)
    /\ @injectDir Sample.parser 20 "/site" Omitted w1
       = Some ({| total := 3; injected := 0; skipped := 3; failed := 0 |}, w2)
    /\ fs w2 = fs w1.
Proof.
  destruct (@injectDir Sample.parser 20 "/site" Omitted Sample.site_world)
    as [[st w1]|] eqn:Hrun; [|vm_compute in Hrun; discriminate].
  destruct (@second_scan_injects_nothing Sample.parser 20 "/site" Omitted
              Sample.site_world w1 st) as (w2 & Hrun2 & Hfs).
  - exact I.
  - vm_compute. reflexivity.
  - exact Hrun.
  - vm_compute in Hrun. inversion Hrun; subst st w1. vm_compute. reflexivity.
  - exists w1, w2. vm_compute in Hrun. inversion Hrun; subst st w1.
    split; [reflexivity|]. split; [exact Hrun2|exact Hfs].
Defined.

(** ** The files that a scan leaves *)

Lemma scan_item_result `{Cheerio} (fuel : nat) (d : string) (opts : options)
    (fo : FaviconOptions) (item : string) (st : InjectionStats) (w : world) :
  (forall w0, detect_type (with_defaults (options_as_object opts)) w0 = (Ok fo, w0)) ->
  (forall p w0, error_free fuel (fs w0) p = true ->
     exists st1 w1, injectDir fuel p opts w0 = Some (st1, w1)
       /\ forall q,
            (q ∈ reached_html_files fuel (fs w0) p ->
             fs w1 !! q = injected_node fo <$> fs w0 !! q)
            /\ (q ∉ reached_html_files fuel (fs w0) p -> fs w1 !! q = fs w0 !! q)) ->
  entry_ok (error_free fuel (fs w)) (fs w) d item = true ->
  exists st1 w1,
    scan_item (fun p => injectDir fuel p opts) d opts item st w = Some (st1, None, w1)
    /\ forall q,
         (q ∈ entry_files is_metadata_name (reached_html_files fuel (fs w)) (fs w) d item ->
          fs w1 !! q = injected_node fo <$> fs w !! q)
         /\ (q ∉ entry_files is_metadata_name (reached_html_files fuel (fs w)) (fs w) d item ->
             fs w1 !! q = fs w !! q).
Proof.
  intros Hdetect IHf Hok. unfold entry_ok in Hok.
  apply andb_true_iff in Hok as [Hplain Hok].
  unfold scan_item, entry_files. unfold is_metadata_name in *.
  destruct (Js.startsWith item "._") eqn:Hmeta.
  { exists st, w. split; [done|]. intros q. split; [by intros ?%elem_of_nil|done]. }
  unfold stat. run_monad.
  set (p := Path.join d item) in *.
  set (w0 := {| fs := fs w; log := FsCall Stat p :: log w |}).
  destruct (fs w !! p) as [[content readable writable|entries|]|] eqn:Hnode;
    simpl; [| | |discriminate].
  - (* a regular file *)
    unfold p at 1. rewrite is_html_join. fold p.
    destruct (is_html_name item) eqn:Hhtml.
    2:{ exists st, w0. split; [done|]. intros q. split; [by intros ?%elem_of_nil|done]. }
    simpl in Hok. apply andb_true_iff in Hok as [-> Hok].
    destruct (cheerio_load content) as [doc|] eqn:Hload; [|discriminate].
    assert (Hname : Js.startsWith (Path.basename p) "._" = false).
    { unfold p. by rewrite basename_join. }
    destruct (hasFavicon doc) eqn:Hfav.
    + destruct (injectFavicon_skips p opts w0 content writable doc fo)
        as (w1 & Hrun & Hfs1); try done.
      rewrite Hrun. unfold readFile, load. run_monad.
      rewrite Hfs1. simpl. rewrite Hnode. simpl. rewrite Hload. simpl. rewrite Hfav.
      eexists _, _. split; [reflexivity|]. simpl. intros q. split; [|done].
      intros ->%list_elem_of_singleton. rewrite Hnode. simpl.
      destruct writable; by rewrite ?Hload, ?Hfav.
    + simpl in Hok. apply andb_true_iff in Hok as [-> Hhead].
      apply negb_true_iff in Hhead.
      destruct (injectFavicon_injects p opts w0 content true doc fo)
        as (w1 & Hrun & Hfs1); try done.
      { by apply bool_decide_eq_false in Hhead. }
      rewrite Hrun. eexists _, w1. split; [reflexivity|]. rewrite Hfs1. simpl.
      intros q. split.
      * intros ->%list_elem_of_singleton. rewrite lookup_insert_eq, Hnode. simpl.
        by rewrite Hload, Hfav, Hhead.
      * intros Hq. apply lookup_insert_ne. intros <-. apply Hq, list_elem_of_here.
  - (* a directory *)
    destruct (IHf p w0 Hok) as (st1 & w1 & Hrun & Hfs). rewrite Hrun.
    eexists _, w1. split; [reflexivity|]. exact Hfs.
  - (* neither *)
    exists st, w0. split; [done|]. intros q. split; [by intros ?%elem_of_nil|done].
Qed.

Lemma scan_items_result `{Cheerio} (fuel : nat) (d : string) (opts : options)
    (fo : FaviconOptions) (items : list string) (st : InjectionStats) (w : world) :
  (forall w0, detect_type (with_defaults (options_as_object opts)) w0 = (Ok fo, w0)) ->
  (forall p w0, error_free fuel (fs w0) p = true ->
     exists st1 w1, injectDir fuel p opts w0 = Some (st1, w1)
       /\ forall q,
            (q ∈ reached_html_files fuel (fs w0) p ->
             fs w1 !! q = injected_node fo <$> fs w0 !! q)
            /\ (q ∉ reached_html_files fuel (fs w0) p -> fs w1 !! q = fs w0 !! q)) ->
  NoDup items ->
  (forall item, item ∈ items -> entry_ok (error_free fuel (fs w)) (fs w) d item = true) ->
  exists st' w',
    scan_items (fun p => injectDir fuel p opts) d opts items st w = Some (st', None, w')
    /\ forall q,
         (q ∈ flat_map
                (entry_files is_metadata_name (reached_html_files fuel (fs w)) (fs w) d)
                items ->
          fs w' !! q = injected_node fo <$> fs w !! q)
         /\ (q ∉ flat_map
                   (entry_files is_metadata_name (reached_html_files fuel (fs w)) (fs w) d)
                   items ->
             fs w' !! q = fs w !! q).
Proof.
  intros Hdetect IHf. revert st w.
  induction items as [|item rest IH]; intros st w Hnodup Hok; simpl.
  { exists st, w. split; [done|]. intros q. split; [by intros ?%elem_of_nil|done]. }
  apply NoDup_cons in Hnodup as [Hfresh Hnodup].
  destruct (scan_item_result fuel d opts fo item st w Hdetect IHf)
    as (st1 & w1 & Hitem & Hfs1).
  { apply Hok, list_elem_of_here. }
  rewrite Hitem.
  assert (Hagree : forall item' q, item' ∈ rest -> within (Path.join d item') q ->
                     fs w1 !! q = fs w !! q).
  { intros item' q Hin Hq. apply Hfs1. intros Hq'%entry_files_within.
    assert (Hp : plain_name item = true).
    { specialize (Hok item (list_elem_of_here _ _)). unfold entry_ok in Hok.
      by apply andb_true_iff in Hok as [? _]. }
    assert (Hp' : plain_name item' = true).
    { specialize (Hok item' (list_elem_of_further _ _ _ Hin)). unfold entry_ok in Hok.
      by apply andb_true_iff in Hok as [? _]. }
    apply Hfresh. by rewrite (within_disjoint d item item' q). }
  destruct (IH st1 w1 Hnodup) as (st' & w' & Hrest & Hfs').
  { intros item' Hin.
    rewrite <- (Hok item' (list_elem_of_further _ _ _ Hin)).
    apply entry_ok_agree; [apply (Hagree item'); [done|by left]|].
    apply error_free_agree. intros q Hq. by apply (Hagree item'). }
  exists st', w'. split; [exact Hrest|].
  assert (Hfiles :
    flat_map (entry_files is_metadata_name (reached_html_files fuel (fs w1)) (fs w1) d) rest
    = flat_map (entry_files is_metadata_name (reached_html_files fuel (fs w)) (fs w) d) rest).
  { apply flat_map_ext_in. intros item' Hin. apply entry_files_agree.
    - apply (Hagree item'); [done|by left].
    - apply html_files_agree. intros q Hq. by apply (Hagree item'). }
  rewrite Hfiles in Hfs'.
  assert (Hrestq : forall q,
    q ∈ flat_map (entry_files is_metadata_name (reached_html_files fuel (fs w)) (fs w) d) rest
    -> fs w1 !! q = fs w !! q).
  { intros q Hq. apply list_elem_of_In, in_flat_map in Hq as (item' & Hin & Hq).
    apply list_elem_of_In in Hin, Hq. apply (Hagree item'); [done|].
    by eapply entry_files_within. }
  intros q. destruct (Hfs1 q) as [Hin1 Hout1]. destruct (Hfs' q) as [Hin' Hout'].
  split.
  - intros [Hq|Hq]%elem_of_app.
    + destruct (decide (q ∈ flat_map (entry_files is_metadata_name
                                        (reached_html_files fuel (fs w)) (fs w) d) rest))
        as [Hq'|Hq'].
      * exfalso. apply list_elem_of_In, in_flat_map in Hq' as (item' & Hi & Hq').
        apply list_elem_of_In in Hi, Hq'.
        assert (Hp : plain_name item = true).
        { specialize (Hok item (list_elem_of_here _ _)). unfold entry_ok in Hok.
          by apply andb_true_iff in Hok as [? _]. }
        assert (Hp' : plain_name item' = true).
        { specialize (Hok item' (list_elem_of_further _ _ _ Hi)). unfold entry_ok in Hok.
          by apply andb_true_iff in Hok as [? _]. }
        apply Hfresh. rewrite (within_disjoint d item item' q); try done;
          by eapply entry_files_within.
      * rewrite (Hout' Hq'). by apply Hin1.
    + rewrite (Hin' Hq). by rewrite (Hrestq q Hq).
  - intros Hq. rewrite Hout'; [apply Hout1|]; intros Hq'; apply Hq, elem_of_app; auto.
Qed.

Lemma injectDir_result `{Cheerio} (opts : options) (fo : FaviconOptions) (fuel : nat)
    (d : string) (w : world) :
  (forall w0, detect_type (with_defaults (options_as_object opts)) w0 = (Ok fo, w0)) ->
  error_free fuel (fs w) d = true ->
  exists st w',
    injectDir fuel d opts w = Some (st, w')
    /\ forall q,
         (q ∈ reached_html_files fuel (fs w) d ->
          fs w' !! q = injected_node fo <$> fs w !! q)
         /\ (q ∉ reached_html_files fuel (fs w) d -> fs w' !! q = fs w !! q).
Proof.
  intros Hdetect. revert d w. induction fuel as [|fuel IH]; intros d w Hok; [discriminate|].
  simpl in Hok. unfold reached_html_files. simpl.
  unfold pathExists, readdir. run_monad.
  destruct (fs w !! d) as [[| [items|] |]|] eqn:Hd; try discriminate.
  rewrite bool_decide_eq_true_2 by eauto. simpl.
  apply andb_true_iff in Hok as [Hnodup Hok]. apply bool_decide_eq_true in Hnodup.
  destruct (scan_items_result fuel d opts fo items zero_stats
              {| fs := fs w; log := FsCall Scandir d :: FsCall Access d :: log w |}
              Hdetect IH Hnodup) as (st' & w' & Hscan & Hfs).
  { intros item Hin. simpl.
    pose proof (proj1 (forallb_forall _ _) Hok item) as Hitem.
    apply Hitem. by apply list_elem_of_In. }
  rewrite Hscan. simpl. eauto.
Qed.

(** X28. The files that a scan leaves.  On a tree where no call fails, with
    accepted options, every page reached that lacks a favicon link holds,
    after the scan, the serialization of its document with the tag
    appended to its head; every page that has one, and every other path,
    is as before. *)
Theorem scan_leaves_injected_pages `{Cheerio} (fuel : nat) (d : string) (opts : options)
    (w : world) :
  accepted opts ->
  error_free fuel (fs w) d = true ->
  exists fo st w',
    detect_type (with_defaults (options_as_object opts)) w = (Ok fo, w)
    /\ injectDir fuel d opts w = Some (st, w')
    /\ forall q,
         (q ∈ reached_html_files fuel (fs w) d ->
          fs w' !! q = injected_node fo <$> fs w !! q)
         /\ (q ∉ reached_html_files fuel (fs w) d -> fs w' !! q = fs w !! q).
Proof.
  intros Hopts Hok.
  pose proof (accepted_path_is_string opts Hopts) as Hpath. unfold path_is_string in Hpath.
  destruct (path (with_defaults (options_as_object opts))) as [| |s] eqn:Hs;
    try discriminate.
  destruct (detect_type_string _ s w Hs) as (fo & Hdetect & _).
  destruct (injectDir_result opts fo fuel d w) as (st & w' & Hrun & Hfs); [|done|].
  { intros w0. by apply (detect_type_any_world _ w). }
  by exists fo, st, w'.
Qed.

Lemma scan_leaves_injected_pages_witness :
  exists st w',
    @injectDir Sample.parser 20 "/site" Omitted Sample.site_world = Some (st, w')
    /\ fs w' !! "/site/sub/d.HTML"
       = Some (File
            ("<html><head><title>Test</title>" +:+
             "<link rel=" +:+ dquote +:+ "icon" +:+ dquote +:+
             " href=" +:+ dquote +:+ "/favicon.ico" +:+ dquote +:+
             " type=" +:+ dquote +:+ "image/x-icon" +:+ dquote +:+ ">" +:+
             "</head><body></body></html>") true true)
    /\ fs w' !! "/site/b.html" = Some (File Sample.page_with_icon true true)
    /\ fs w' !! "/site/._c.html" = Some (File Sample.page_plain true true).
Proof.
  destruct (@scan_leaves_injected_pages Sample.parser 20 "/site" Omitted Sample.site_world)
    as (fo & st & w' & Hdetect & Hrun & Hfs).
  - exact I.
  - vm_compute. reflexivity.
  - exists st, w'. split; [exact Hrun|].
    vm_compute in Hdetect. inversion Hdetect; subst fo. clear Hdetect.
    split; [|split].
    + rewrite (proj1 (Hfs "/site/sub/d.HTML")); [vm_compute; reflexivity|].
      vm_compute. do 2 apply list_elem_of_further. apply list_elem_of_here.
    + rewrite (proj1 (Hfs "/site/b.html")); [vm_compute; reflexivity|].
      vm_compute. apply list_elem_of_further. apply list_elem_of_here.
    + rewrite (proj2 (Hfs "/site/._c.html")); [vm_compute; reflexivity|].
      vm_compute. intros Hin. repeat (apply elem_of_cons in Hin as [Hin|Hin];
        [discriminate|]). by apply elem_of_nil in Hin.
Defined.

(** ** The joining of the model *)

(** X29. On a directory path that is normalised, [path.join] with a name
    that a listing can give is the plain joining by a separator that the
    scan is modelled with, and the joined path is normalised in its turn,
    so that this holds all the way down a tree. *)
Theorem join_of_normalized (d item : string) :
  normalized d ->
  entry_name item ->
  PosixPath.join d item = Path.join d item
  /\ normalized (Path.join d item).
Proof.
  intros (Hnorm & Htrail & Hdot) Hitem.
  assert (Hd : d <> EmptyString) by (by intros ->).
  pose proof (entry_name_spec item Hitem) as (H0 & Hns & H1 & H2).
  assert (Hjoin : PosixPath.join d item = Path.join d item).
  { rewrite join_entry by done. rewrite render_snoc.
    rewrite normalize_nonempty in Hnorm by done.
    unfold PosixPath.normalizeString in Hnorm. rewrite Htrail in Hnorm.
    unfold Path.join.
    destruct (fold_left _ _ _) as [|first others] eqn:Hkept.
    - exfalso. simpl in Hnorm. destruct (PosixPath.isAbsolute d); [|done].
      subst d. discriminate.
    - destruct (PosixPath.render (first :: others)) as [|r text] eqn:Hrender.
      { apply render_empty in Hrender; [done|].
        rewrite <- Hkept. apply fold_step_kept, Forall_nil_2. }
      cbv zeta in Hnorm.
      destruct (PosixPath.isAbsolute d); rewrite <- Hnorm;
        by rewrite ?append_assoc. }
  split; [exact Hjoin|]. split; [|split].
  - rewrite <- Hjoin at 2. unfold Path.join. by rewrite <- join_nonempty.
  - unfold Path.join. rewrite <- append_assoc. by apply trailingSeparator_join.
  - unfold Path.join. destruct d as [|c d]; [done|]. simpl.
    intros [= _ Hrest]. by apply (append_nonempty d (String "/" item)) in Hrest.
Qed.

Lemma join_of_normalized_witness :
  PosixPath.join "/var/www" "index.html" = "/var/www/index.html"
  /\ normalized "/var/www/index.html".
Proof.
  apply (join_of_normalized "/var/www" "index.html").
  - split; [reflexivity|]. split; [reflexivity|discriminate].
  - split; [reflexivity|]. split; discriminate.
Defined.
